(** * Weighted k-nearest-neighbour reimbursement predictor

    A shallow embedding of [top-coder-solution/main.go]: the functions
    [calculateDistance], [predictWeightedKNN], [loadTrainingData] and
    [main] over IEEE-754 binary64
    values (Go's [float64]) and 64-bit integers (Go's [int]), together with
    the part of Go's [sort] package that [sort.Slice] runs.

    Go's [float64] is modelled by Rocq's primitive binary64 floats: every
    operation is rounded to nearest, ties to even, one operation at a time
    (no fused multiply-add), which is what the Go compiler emits on amd64. *)

From Stdlib Require Import ZArith List Lia Bool Floats Permutation.
From Stdlib Require Import Reals RList Lra.
From Stdlib Require String Ascii.
Import ListNotations.


(* ================================================================= *)
(** * Go's [int] and [float64] *)

Module GoInt.

(** Go's [int] on a 64-bit target: an integer in [-2^63, 2^63), with
    wrap-around on overflow. *)
Definition minInt : Z := - 2 ^ 63.
Definition maxInt : Z := 2 ^ 63 - 1.

Definition in_range (z : Z) : Prop := (minInt <= z <= maxInt)%Z.

Definition wrap (z : Z) : Z := ((z + 2 ^ 63) mod 2 ^ 64 - 2 ^ 63)%Z.

(** [x - y] on [int]. *)
Definition sub (x y : Z) : Z := wrap (x - y).

End GoInt.

Module Float64.

Local Open Scope float_scope.

(** The conversion [float64(n)] of an [int]: the integer rounded to the
    nearest binary64 value.  Rounding to nearest-even is symmetric, so a
    negative integer is converted through its absolute value;
    [-2^63] is itself a binary64 value. *)
Definition of_int (z : Z) : float :=
  if (z =? GoInt.minInt)%Z then (- 0x1p63)
  else if (z <? 0)%Z then - (PrimFloat.of_uint63 (Uint63.of_Z (- z)))
  else PrimFloat.of_uint63 (Uint63.of_Z z).

(** [math.Abs] and [math.Sqrt]. *)
Definition Abs (x : float) : float := PrimFloat.abs x.
Definition Sqrt (x : float) : float := PrimFloat.sqrt x.

(** Classification through the specification-level view [Prim2SF]. *)
Definition SF_is_nan (x : spec_float) : bool :=
  match x with S754_nan => true | _ => false end.

Definition SF_is_finite (x : spec_float) : bool :=
  match x with S754_zero _ | S754_finite _ _ _ => true | _ => false end.

(** Neither NaN nor negative: [+0], [-0], a positive number or [+Inf]. *)
Definition SF_nonneg (x : spec_float) : bool :=
  match x with
  | S754_zero _ | S754_infinity false | S754_finite false _ _ => true
  | _ => false
  end.

Definition is_nan (x : float) : bool := SF_is_nan (Prim2SF x).
Definition is_finite (x : float) : bool := SF_is_finite (Prim2SF x).
Definition nonneg (x : float) : bool := SF_nonneg (Prim2SF x).

(** The integer [z] rounded to binary64, for every integer [z]. *)
Definition round_Z (z : Z) : float := SF2Prim (binary_normalize prec emax z 0 false).

(** The real number a finite binary64 value stands for. *)
Definition SF2R (x : spec_float) : R :=
  match x with
  | S754_finite s m e => (IZR (cond_Zopp s (Zpos m)) * powerRZ 2 e)%R
  | _ => 0%R
  end.

Definition to_R (x : float) : R := SF2R (Prim2SF x).

(** An infinity of either sign. *)
Definition SF_is_inf (x : spec_float) : bool :=
  match x with S754_infinity _ => true | _ => false end.

Definition is_inf (x : float) : bool := SF_is_inf (Prim2SF x).

(** A zero of either sign. *)
Definition SF_is_zero (x : spec_float) : bool :=
  match x with S754_zero _ => true | _ => false end.

Definition is_zero (x : float) : bool := SF_is_zero (Prim2SF x).

(** A normal number: finite, with a mantissa of all [prec] bits. *)
Definition SF_normal (x : spec_float) : bool :=
  match x with
  | S754_finite _ m _ => (2 ^ (prec - 1) <=? Z.pos m)%Z
  | _ => false
  end.

Definition normal (x : float) : bool := SF_normal (Prim2SF x).

End Float64.

(* ================================================================= *)
(** * Rounding, on real numbers *)

Module Rounding.

Import Float64.
Local Open Scope R_scope.

(** [2^e] as a real number. *)
Definition bpow (e : Z) : R := powerRZ 2 e.

(** The real [x] lies, with respect to the grid of step [2^e], at [m] or in
    the cell above [m], where the location [l] says: at [m], below the
    middle, at the middle, above the middle. *)
Definition inbetween (x : R) (m e : Z) (l : location) : Prop :=
  match l with
  | loc_Exact => x = IZR m * bpow e
  | loc_Inexact Lt => IZR m * bpow e < x < (IZR m + / 2) * bpow e
  | loc_Inexact Eq => x = (IZR m + / 2) * bpow e
  | loc_Inexact Gt => (IZR m + / 2) * bpow e < x < (IZR m + 1) * bpow e
  end.

Definition inbetween_rec (x : R) (mrs : shr_record) (e : Z) : Prop :=
  inbetween x (shr_m mrs) e (loc_of_shr_record mrs).

(** The same with the grid brought to step 1. *)
Definition inbetween_unit (y : R) (m : Z) (l : location) : Prop :=
  match l with
  | loc_Exact => y = IZR m
  | loc_Inexact Lt => IZR m < y < IZR m + / 2
  | loc_Inexact Eq => y = IZR m + / 2
  | loc_Inexact Gt => IZR m + / 2 < y < IZR m + 1
  end.

(** The sign as a factor. *)
Definition sgn (s : bool) : R := if s then -1 else 1.

(** The result [binary_round_aux] builds from the mantissa and the
    exponent it has rounded to. *)
Definition SF_of_rounded (prec emax : Z) (s : bool) (m2 e2 : Z) : spec_float :=
  match m2 with
  | Z0 => S754_zero s
  | Zpos mz => if (e2 <=? emax - prec)%Z then S754_finite s mz e2 else S754_infinity s
  | Zneg _ => S754_nan
  end.

(** The unit roundoff [u = 2^-53] of binary64, and [v = u / (1 - u)]. *)
Definition u : R := bpow (- prec).

Definition v : R := u / (1 - u).

End Rounding.

(* ================================================================= *)
(** * Go's [sort.Slice] *)

(** [sort.Slice(x, less)] is library code: [pdqsort_func] of the [sort]
    package (Go 1.19 and later), transcribed here from the package.  The
    slice is a list that every step reads through [Less] and changes
    through [Swap] only; [less i j] of the caller compares the elements
    that are at indices [i] and [j] at the time of the call.  Indices are
    natural numbers: the package keeps them within [0, len]. *)
Module GoSort.

Section Sort.

Context {A : Type}.
Variable lt : A -> A -> bool.

Fixpoint update (data : list A) (i : nat) (x : A) : list A :=
  match data, i with
  | [], _ => []
  | _ :: l, O => x :: l
  | y :: l, S i' => y :: update l i' x
  end.

Definition Less (data : list A) (i j : nat) : bool :=
  match nth_error data i, nth_error data j with
  | Some x, Some y => lt x y
  | _, _ => false
  end.

Definition Swap (data : list A) (i j : nat) : list A :=
  match nth_error data i, nth_error data j with
  | Some x, Some y => update (update data i y) j x
  | _, _ => data
  end.

(** [for j := i; j > a && data.Less(j, j-1); j-- { data.Swap(j, j-1) }] *)
Fixpoint insertionSort_shift (data : list A) (a j : nat) : list A :=
  match j with
  | O => data
  | S j' =>
      if (a <? j) && Less data j j'
      then insertionSort_shift (Swap data j j') a j'
      else data
  end.

(** [insertionSort_func(data, a, b)]: [for i := a + 1; i < b; i++]. *)
Definition insertionSort_func (data : list A) (a b : nat) : list A :=
  fold_left (fun d i => insertionSort_shift d a i) (seq (a + 1) (b - (a + 1))) data.

(** [siftDown_func(data, lo, hi, first)]; the loop variable [root] grows at
    every turn and stays below [hi], which bounds the number of turns. *)
Fixpoint siftDown_loop (fuel : nat) (data : list A) (root hi first : nat)
  : option (list A) :=
  match fuel with
  | O => None
  | S fuel' =>
      let child := 2 * root + 1 in
      if hi <=? child then Some data
      else
        let child :=
          if (child + 1 <? hi) && Less data (first + child) (first + child + 1)
          then child + 1 else child in
        if negb (Less data (first + root) (first + child)) then Some data
        else siftDown_loop fuel' (Swap data (first + root) (first + child)) child hi first
  end.

Definition siftDown_func (data : list A) (lo hi first : nat) : option (list A) :=
  siftDown_loop (S hi) data lo hi first.

(** A counting loop [for i := n - 1; i >= 0; i--] over an operation that
    may fail. *)
Fixpoint for_down (n : nat) (body : list A -> nat -> option (list A))
  (data : list A) : option (list A) :=
  match n with
  | O => Some data
  | S i =>
      match body data i with
      | Some data' => for_down i body data'
      | None => None
      end
  end.

Definition heapSort_func (data : list A) (a b : nat) : option (list A) :=
  let first := a in
  let lo := 0 in
  let hi := b - a in
  match for_down (S ((hi - 1) / 2)) (fun d i => siftDown_func d i hi first) data with
  | Some data =>
      for_down hi (fun d i => siftDown_func (Swap d first (first + i)) lo i first) data
  | None => None
  end.

(** [for i <= j && p(i) { i++ }], with [n = j + 1 - i] candidates left. *)
Fixpoint scan_up (p : nat -> bool) (i n : nat) : nat :=
  match n with
  | O => i
  | S n' => if p i then scan_up p (S i) n' else i
  end.

(** [for i <= j && p(j) { j-- }], with [n = j + 1 - i] candidates left. *)
Fixpoint scan_down (p : nat -> bool) (j n : nat) : nat :=
  match n with
  | O => j
  | S n' => if p j then scan_down p (j - 1) n' else j
  end.

(** The main loop of [partition_func], after the first exchange. *)
Fixpoint partition_loop (fuel : nat) (data : list A) (a i j : nat)
  : option (list A * nat) :=
  match fuel with
  | O => None
  | S fuel' =>
      let i := scan_up (fun i => Less data i a) i (j + 1 - i) in
      let j := scan_down (fun j => negb (Less data j a)) j (j + 1 - i) in
      if j <? i then Some (data, j)
      else partition_loop fuel' (Swap data i j) a (i + 1) (j - 1)
  end.

(** [partition_func(data, a, b, pivot)]: the new index of the pivot and
    whether the range was found partitioned already. *)
Definition partition_func (data : list A) (a b pivot : nat)
  : option (list A * nat * bool) :=
  let data := Swap data a pivot in
  let i := a + 1 in
  let j := b - 1 in
  let i := scan_up (fun i => Less data i a) i (j + 1 - i) in
  let j := scan_down (fun j => negb (Less data j a)) j (j + 1 - i) in
  if j <? i then Some (Swap data j a, j, true)
  else
    let data := Swap data i j in
    match partition_loop (S (b - a)) data a (i + 1) (j - 1) with
    | Some (data, j) => Some (Swap data j a, j, false)
    | None => None
    end.

Fixpoint partitionEqual_loop (fuel : nat) (data : list A) (a i j : nat)
  : option (list A * nat) :=
  match fuel with
  | O => None
  | S fuel' =>
      let i := scan_up (fun i => negb (Less data a i)) i (j + 1 - i) in
      let j := scan_down (fun j => Less data a j) j (j + 1 - i) in
      if j <? i then Some (data, i)
      else partitionEqual_loop fuel' (Swap data i j) a (i + 1) (j - 1)
  end.

Definition partitionEqual_func (data : list A) (a b pivot : nat)
  : option (list A * nat) :=
  let data := Swap data a pivot in
  partitionEqual_loop (S (b - a)) data a (a + 1) (b - 1).

(** [reverseRange_func(data, a, b)], with [n] exchanges left. *)
Fixpoint reverseRange_loop (n : nat) (data : list A) (i j : nat) : list A :=
  match n with
  | O => data
  | S n' => if i <? j then reverseRange_loop n' (Swap data i j) (i + 1) (j - 1) else data
  end.

Definition reverseRange_func (data : list A) (a b : nat) : list A :=
  reverseRange_loop (b - a) data a (b - 1).

(** [order2_func], [median_func] and [medianAdjacent_func] thread the
    counter [swaps]; they only read the slice. *)
Definition order2_func (data : list A) (a b swaps : nat) : nat * nat * nat :=
  if Less data b a then (b, a, swaps + 1) else (a, b, swaps).

Definition median_func (data : list A) (a b c swaps : nat) : nat * nat :=
  let '(a, b, swaps) := order2_func data a b swaps in
  let '(b, c, swaps) := order2_func data b c swaps in
  let '(a, b, swaps) := order2_func data a b swaps in
  (b, swaps).

Definition medianAdjacent_func (data : list A) (a swaps : nat) : nat * nat :=
  median_func data (a - 1) a (a + 1) swaps.

Inductive sortedHint : Set := unknownHint | increasingHint | decreasingHint.

Definition sortedHint_eqb (h1 h2 : sortedHint) : bool :=
  match h1, h2 with
  | unknownHint, unknownHint
  | increasingHint, increasingHint
  | decreasingHint, decreasingHint => true
  | _, _ => false
  end.

Definition choosePivot_func (data : list A) (a b : nat) : nat * sortedHint :=
  let shortestNinther := 50 in
  let maxSwaps := 4 * 3 in
  let l := b - a in
  let swaps := 0 in
  let i := a + l / 4 * 1 in
  let j := a + l / 4 * 2 in
  let k := a + l / 4 * 3 in
  let '(j, swaps) :=
    if 8 <=? l then
      let '(i, j, k, swaps) :=
        if shortestNinther <=? l then
          let '(i, swaps) := medianAdjacent_func data i swaps in
          let '(j, swaps) := medianAdjacent_func data j swaps in
          let '(k, swaps) := medianAdjacent_func data k swaps in
          (i, j, k, swaps)
        else (i, j, k, swaps) in
      median_func data i j k swaps
    else (j, swaps) in
  if swaps =? 0 then (j, increasingHint)
  else if swaps =? maxSwaps then (j, decreasingHint)
  else (j, unknownHint).

(** [bits.Len(uint(n))]: the number of bits of [n]. *)
Definition bits_Len (n : nat) : nat := if n =? 0 then 0 else S (Nat.log2 n).

(** The generator [xorshift] on [uint64]. *)
Definition xorshift_Next (r : Z) : Z :=
  let r := Z.lxor r (Z.shiftl r 13 mod 2 ^ 64) in
  let r := Z.lxor r (Z.shiftr r 7) in
  let r := Z.lxor r (Z.shiftl r 17 mod 2 ^ 64) in
  r.

Definition nextPowerOfTwo (length : nat) : Z := Z.shiftl 1 (Z.of_nat (bits_Len length)).

Definition breakPatterns_func (data : list A) (a b : nat) : list A :=
  let length := b - a in
  if 8 <=? length then
    let random := Z.of_nat length in
    let modulus := nextPowerOfTwo length in
    let idx := a + (length / 4) * 2 - 1 in
    fst (fold_left
           (fun (st : list A * Z) (i : nat) =>
              let '(data, random) := st in
              let random := xorshift_Next random in
              let other := Z.to_nat (Z.land random (modulus - 1)) in
              let other := if length <=? other then other - length else other in
              (Swap data (idx + i) (a + other), random))
           [0; 1; 2] (data, random))
  else data.

(** The two inner loops of [partialInsertionSort_func]:
    [for j := i - 1; j >= 1; j--] and [for j := i + 1; j < b; j++]. *)
Fixpoint shift_left (data : list A) (j : nat) : list A :=
  match j with
  | O => data
  | S j' => if negb (Less data j j') then data else shift_left (Swap data j j') j'
  end.

Fixpoint shift_right (n : nat) (data : list A) (j : nat) : list A :=
  match n with
  | O => data
  | S n' =>
      if negb (Less data j (j - 1)) then data
      else shift_right n' (Swap data j (j - 1)) (S j)
  end.

(** [partialInsertionSort_func(data, a, b)], with [steps] turns of the
    outer loop left ([maxSteps = 5] at the start). *)
Fixpoint partialInsertionSort_loop (steps : nat) (data : list A) (a b i : nat)
  : list A * bool :=
  match steps with
  | O => (data, false)
  | S steps' =>
      let shortestShifting := 50 in
      let i := scan_up (fun i => negb (Less data i (i - 1))) i (b - i) in
      if i =? b then (data, true)
      else if b - a <? shortestShifting then (data, false)
      else
        let data := Swap data i (i - 1) in
        let data := if 2 <=? i - a then shift_left data (i - 1) else data in
        let data := if 2 <=? b - i then shift_right (b - (i + 1)) data (i + 1) else data in
        partialInsertionSort_loop steps' data a b i
  end.

Definition partialInsertionSort_func (data : list A) (a b : nat) : list A * bool :=
  partialInsertionSort_loop 5 data a b (a + 1).

Definition maxInsertion : nat := 12.

(** [pdqsort_func(data, a, b, limit)]: one turn of its loop per unit of
    [fuel]; [wasBalanced] and [wasPartitioned] are its two local flags,
    [true] on entry.  Every turn hands a strictly shorter range to the next
    turn and to the nested call, so [b - a + 1] units are enough. *)
Fixpoint pdqsort_loop (fuel : nat) (data : list A) (a b limit : nat)
  (wasBalanced wasPartitioned : bool) : option (list A) :=
  match fuel with
  | O => None
  | S fuel' =>
      let length := b - a in
      if length <=? maxInsertion then Some (insertionSort_func data a b)
      else if limit =? 0 then heapSort_func data a b
      else
        let '(data, limit) :=
          if negb wasBalanced then (breakPatterns_func data a b, limit - 1)
          else (data, limit) in
        let '(pivot, hint) := choosePivot_func data a b in
        let '(data, pivot, hint) :=
          if sortedHint_eqb hint decreasingHint
          then (reverseRange_func data a b, (b - 1) - (pivot - a), increasingHint)
          else (data, pivot, hint) in
        let '(data, sorted) :=
          if wasBalanced && wasPartitioned && sortedHint_eqb hint increasingHint
          then partialInsertionSort_func data a b
          else (data, false) in
        if sorted then Some data
        else if (0 <? a) && negb (Less data (a - 1) pivot) then
          match partitionEqual_func data a b pivot with
          | Some (data, mid) =>
              pdqsort_loop fuel' data mid b limit wasBalanced wasPartitioned
          | None => None
          end
        else
          match partition_func data a b pivot with
          | Some (data, mid, alreadyPartitioned) =>
              let wasPartitioned := alreadyPartitioned in
              let leftLen := mid - a in
              let rightLen := b - mid in
              let balanceThreshold := length / 8 in
              if leftLen <? rightLen then
                let wasBalanced := balanceThreshold <=? leftLen in
                match pdqsort_loop fuel' data a mid limit true true with
                | Some data =>
                    pdqsort_loop fuel' data (mid + 1) b limit wasBalanced wasPartitioned
                | None => None
                end
              else
                let wasBalanced := balanceThreshold <=? rightLen in
                match pdqsort_loop fuel' data (mid + 1) b limit true true with
                | Some data =>
                    pdqsort_loop fuel' data a mid limit wasBalanced wasPartitioned
                | None => None
                end
          | None => None
          end
  end.

Definition pdqsort_func (data : list A) (a b limit : nat) : option (list A) :=
  pdqsort_loop (S (b - a)) data a b limit true true.

(** [sort.Slice(x, less)]; [None] stands for a loop that ran out of fuel,
    which [GoSortFacts.Slice_rearranges] excludes. *)
Definition Slice (data : list A) : option (list A) :=
  let length := List.length data in
  let limit := bits_Len length in
  pdqsort_func data 0 length limit.

(** What [sort.Slice] is to establish: no element is less than an element
    before it. *)
Definition ascending (data : list A) : Prop :=
  forall i j, i < j -> Less data j i = false.

End Sort.

End GoSort.

(* ================================================================= *)
(** * What sorting a range means *)

(** The vocabulary of the proof that [sort.Slice] sorts: [lt] is the
    comparison and [ok] holds of the elements on which [lt] is a strict
    weak order (for [float64] keys: those that are not NaN). *)
Module GoSortSpec.

Import GoSort.

Section Spec.

Context {A : Type}.
Variable lt : A -> A -> bool.
Variable ok : A -> Prop.

(** Every element is one that the order is good on. *)
Definition valid (data : list A) : Prop :=
  forall i x, nth_error data i = Some x -> ok x.

(** [data[a:b]] is in order. *)
Definition sorted_range (data : list A) (a b : nat) : Prop :=
  forall i j x y, a <= i -> i < j -> j < b ->
    nth_error data i = Some x -> nth_error data j = Some y -> lt y x = false.

(** Every element of [data[a:b]] has the property [Q]. *)
Definition range_all (Q : A -> Prop) (data : list A) (a b : nat) : Prop :=
  forall i x, a <= i -> i < b -> nth_error data i = Some x -> Q x.

(** [data'] is [data] with the elements of [data[a:b]] moved around or
    written over one another; nothing outside the range has changed. *)
Record within (data data' : list A) (a b : nat) : Prop := {
  within_length : length data' = length data;
  within_outside : forall i, i < a \/ b <= i -> nth_error data' i = nth_error data i;
  within_inside : forall i, a <= i -> i < b ->
    exists j, a <= j /\ j < b /\ nth_error data' i = nth_error data j
}.

(** In order but for the element at [j], which is at most every element
    after it: the state of the loop of [insertionSort_func]. *)
Definition sorted_but (data : list A) (a j hi : nat) : Prop :=
  (forall i1 i2 x y, a <= i1 -> i1 < i2 -> i2 < hi -> i1 <> j -> i2 <> j ->
     nth_error data i1 = Some x -> nth_error data i2 = Some y -> lt y x = false)
  /\ (forall i2 x y, j < i2 -> i2 < hi ->
        nth_error data j = Some x -> nth_error data i2 = Some y -> lt y x = false).

(** The element of node [r] is not less than its children's, in the heap
    of [hi] elements that starts at index [first]. *)
Definition heap_node (data : list A) (first hi r : nat) : Prop :=
  forall c x y, c = 2 * r + 1 \/ c = 2 * r + 2 -> c < hi ->
    nth_error data (first + r) = Some x -> nth_error data (first + c) = Some y ->
    lt x y = false.

(** A heap from node [lo] on, but for node [root], whose children are
    under the parent of [root] all the same: the state of the loop of
    [siftDown_func]. *)
Definition heap_but (data : list A) (first lo hi root : nat) : Prop :=
  (forall r, lo <= r -> r <> root -> heap_node data first hi r)
  /\ (forall p c x y, lo <= p -> root = 2 * p + 1 \/ root = 2 * p + 2 ->
        c = 2 * root + 1 \/ c = 2 * root + 2 -> c < hi ->
        nth_error data (first + p) = Some x -> nth_error data (first + c) = Some y ->
        lt x y = false).

(** The state of the loop of [partition_func]: the pivot [p] is at [a],
    the elements of [data[a+1:i]] are less than [p] and those of
    [data[j+1:b]] are not. *)
Definition partitioning (p : A) (data : list A) (a b i j : nat) : Prop :=
  nth_error data a = Some p
  /\ range_all (fun x => lt x p = true) data (a + 1) i
  /\ range_all (fun x => lt x p = false) data (j + 1) b
  /\ a + 1 <= i /\ i <= j + 1 /\ j < b.

(** What [partition_func] leaves: the pivot [p] at [mid], smaller elements
    before it, the others after it. *)
Definition partitioned (p : A) (data : list A) (a b mid : nat) : Prop :=
  a <= mid /\ mid < b /\ nth_error data mid = Some p
  /\ range_all (fun x => lt x p = true) data a mid
  /\ range_all (fun x => lt x p = false) data (mid + 1) b.

(** The same for [partitionEqual_func]: elements not greater than the pivot
    first, then the greater ones. *)
Definition partitioningEqual (p : A) (data : list A) (a b i j : nat) : Prop :=
  nth_error data a = Some p
  /\ range_all (fun x => lt p x = false) data (a + 1) i
  /\ range_all (fun x => lt p x = true) data (j + 1) b
  /\ a + 1 <= i /\ i <= j + 1 /\ j < b.

(** The element before the range is not greater than any element of the
    range: what [pdqsort_func] knows of a range that is not the first. *)
Definition bounded_below (data : list A) (a b : nat) : Prop :=
  a = 0 \/ exists q, nth_error data (a - 1) = Some q
                     /\ range_all (fun x => lt x q = false) data a b.

End Spec.

End GoSortSpec.

(* ================================================================= *)
(** * The program: [main.go] *)

Import Float64.
Open Scope float_scope.

(** [type TestCase struct { Input struct {...}; ExpectedOutput float64 }] *)
Record TestCaseInput : Set := {
  TripDurationDays : Z;
  MilesTraveled : float;
  TotalReceiptsAmount : float
}.

Record TestCase : Set := {
  Input : TestCaseInput;
  ExpectedOutput : float
}.

Record Neighbor : Set := {
  Distance : float;
  Output : float
}.

Definition TrainingData : Set := list TestCase.

(** What a call does: it returns a value, or it stops with the run-time
    panic "index out of range"; [OutOfFuel] is the model's own third case,
    a [sort.Slice] loop cut short, which never happens
    ([GoSortFacts.Slice_rearranges]). *)
Inductive outcome (A : Type) : Type :=
| Returns (v : A)
| PanicIndexOutOfRange
| OutOfFuel.

Arguments Returns {A} v.
Arguments PanicIndexOutOfRange {A}.
Arguments OutOfFuel {A}.

(** [calculateDistance] (main.go, lines 137-150). *)
Definition calculateDistance (days1 : Z) (miles1 receipts1 : float)
  (days2 : Z) (miles2 receipts2 : float) : float :=
  let dayScale := 20 in
  let mileScale := 2000 in
  let receiptScale := 3000 in
  let daysDiff := of_int (GoInt.sub days1 days2) / dayScale in
  let milesDiff := (miles1 - miles2) / mileScale in
  let receiptsDiff := (receipts1 - receipts2) / receiptScale in
  Sqrt (daysDiff * daysDiff + milesDiff * milesDiff + receiptsDiff * receiptsDiff).

(** The tolerance [0.001] and the [epsilon] [1e-8] of the source, as the
    binary64 values nearest to them. *)
Definition tolerance : float := 0x1.0624dd2f1a9fcp-10.
Definition epsilon : float := 0x1.5798ee2308c3ap-27.

(** The test of the first loop of [predictWeightedKNN] (lines 85-87). *)
Definition isExactMatch (tripDays : Z) (miles receipts : float) (case_ : TestCase) : bool :=
  (TripDurationDays (Input case_) =? tripDays)%Z
  && (Abs (MilesTraveled (Input case_) - miles) <? tolerance)
  && (Abs (TotalReceiptsAmount (Input case_) - receipts) <? tolerance).

(** The neighbour appended for one record (lines 96-104). *)
Definition neighborOf (tripDays : Z) (miles receipts : float) (case_ : TestCase) : Neighbor :=
  {| Distance :=
       calculateDistance tripDays miles receipts
         (TripDurationDays (Input case_)) (MilesTraveled (Input case_))
         (TotalReceiptsAmount (Input case_));
     Output := ExpectedOutput case_ |}.

(** The records' neighbours, in TrainingSet order (lines 93-105). *)
Definition neighborsOf (tripDays : Z) (miles receipts : float) (training : TrainingData)
  : list Neighbor :=
  map (neighborOf tripDays miles receipts) training.

(** The [less] function handed to [sort.Slice] (line 109). *)
Definition lessDistance (x y : Neighbor) : bool := Distance x <? Distance y.

(** A neighbour whose distance is a number: on these the [less] function is
    a strict weak order. *)
Definition numbered (nb : Neighbor) : Prop := is_nan (Distance nb) = false.

(** The weight of a neighbour (lines 122-123). *)
Definition weightOf (n : Neighbor) : float := 1 / (Distance n + epsilon).

(** The aggregation loop [for i := 0; i < k; i++] (lines 120-127), with
    [n] turns left; [neighbors[i]] panics out of range. *)
Fixpoint aggregate (n : nat) (neighbors : list Neighbor) (i : nat)
  (weightedSum totalWeight : float) : outcome (float * float) :=
  match n with
  | O => Returns (weightedSum, totalWeight)
  | S n' =>
      match nth_error neighbors i with
      | None => PanicIndexOutOfRange
      | Some nb =>
          let weight := weightOf nb in
          aggregate n' neighbors (S i)
            (weightedSum + weight * Output nb) (totalWeight + weight)
      end
  end.

(** [predictWeightedKNN] (main.go, lines 82-135). *)
Definition predictWeightedKNN (tripDays : Z) (miles receipts : float)
  (training : TrainingData) (k : Z) : outcome float :=
  match find (isExactMatch tripDays miles receipts) training with
  | Some case_ => Returns (ExpectedOutput case_)
  | None =>
      let neighbors := neighborsOf tripDays miles receipts training in
      match GoSort.Slice lessDistance neighbors with
      | None => OutOfFuel
      | Some neighbors =>
          let k :=
            if (Z.of_nat (length neighbors) <? k)%Z
            then Z.of_nat (length neighbors) else k in
          match aggregate (Z.to_nat k) neighbors 0 0 0 with
          | Returns (weightedSum, totalWeight) =>
              if totalWeight =? 0 then
                match nth_error neighbors 0 with
                | Some nb => Returns (Output nb)
                | None => PanicIndexOutOfRange
                end
              else Returns (weightedSum / totalWeight)
          | PanicIndexOutOfRange => PanicIndexOutOfRange
          | OutOfFuel => OutOfFuel
          end
      end
  end.

Definition mkCase (days : Z) (miles receipts output : float) : TestCase :=
  {| Input := {| TripDurationDays := days; MilesTraveled := miles;
                 TotalReceiptsAmount := receipts |};
     ExpectedOutput := output |}.

(** [min(k, n)] turns of the aggregation loop (lines 113-115, 120). *)
Definition clamp (k : Z) (n : nat) : nat :=
  Z.to_nat (if (Z.of_nat n <? k)%Z then Z.of_nat n else k).

(** The sums the aggregation loop leaves after going through [sel]. *)
Definition accumulate (sel : list Neighbor) (weightedSum totalWeight : float)
  : float * float :=
  fold_left
    (fun acc nb => (fst acc + weightOf nb * Output nb, snd acc + weightOf nb))
    sel (weightedSum, totalWeight).

(** Lines 129-134. *)
Definition finish (sums : float * float) (neighbors : list Neighbor) : outcome float :=
  if snd sums =? 0 then
    match neighbors with
    | nb :: _ => Returns (Output nb)
    | [] => PanicIndexOutOfRange
    end
  else Returns (fst sums / snd sums).

(** The value a call returns, under [Prim2SF]; used to tell outcomes apart. *)
Definition returned (o : outcome float) : spec_float :=
  match o with Returns v => Prim2SF v | _ => S754_nan end.

(** The formula of the specification (section 4.1): the differences
    [query - candidate], each over its scale, and their Euclidean norm.
    The difference of the days is the integer difference. *)
Definition scaledEuclidean (d1 : Z) (m1 r1 : float) (d2 : Z) (m2 r2 : float) : float :=
  let day_scale := 20 in
  let mile_scale := 2000 in
  let receipt_scale := 3000 in
  let ddays := round_Z (d1 - d2) / day_scale in
  let dmiles := (m1 - m2) / mile_scale in
  let dreceipts := (r1 - r2) / receipt_scale in
  Sqrt (ddays * ddays + dmiles * dmiles + dreceipts * dreceipts).

Definition outputsR (sel : list Neighbor) : list R :=
  map (fun nb => to_R (Output nb)) sel.

(** The ranked neighbours (lines 93-110) and the ones that are aggregated,
    the first [min(k, n)] of them (lines 113-120). *)
Definition rankedNeighbors (tripDays : Z) (miles receipts : float) (training : TrainingData)
  : list Neighbor :=
  match GoSort.Slice lessDistance (neighborsOf tripDays miles receipts training) with
  | Some neighbors => neighbors
  | None => []
  end.

Definition selectedNeighbors (tripDays : Z) (miles receipts : float)
  (training : TrainingData) (k : Z) : list Neighbor :=
  let neighbors := rankedNeighbors tripDays miles receipts training in
  firstn (clamp k (length neighbors)) neighbors.

(** No overflow and no underflow in the sums of lines 120-127 over [sel],
    from the sums [weightedSum] and [totalWeight]: every output is finite,
    every product [weight * output] is a normal number or has a zero
    factor, and every sum is finite. *)
Fixpoint sums_regular (sel : list Neighbor) (weightedSum totalWeight : float) : bool :=
  match sel with
  | [] => true
  | nb :: sel =>
      let weight := weightOf nb in
      let product := weight * Output nb in
      is_finite (Output nb)
      && (is_zero weight || is_zero (Output nb) || normal product)
      && is_finite (weightedSum + product)
      && is_finite (totalWeight + weight)
      && sums_regular sel (weightedSum + product) (totalWeight + weight)
  end.

(** The same for lines 117-134 as a whole: the quotient, when it is taken,
    is a normal number or that of a zero [weightedSum]. *)
Definition aggregation_regular (sel : list Neighbor) : bool :=
  sums_regular sel 0 0
  && ((snd (accumulate sel 0 0) =? 0)
      || is_zero (fst (accumulate sel 0 0))
      || normal (fst (accumulate sel 0 0) / snd (accumulate sel 0 0))).

(** The largest magnitude of the outputs of [sel]. *)
Definition largestOutput (sel : list Neighbor) : R :=
  MaxRlist (map (fun nb => Rabs (to_R (Output nb))) sel).

(** The sums of the aggregation in exact arithmetic, on the real numbers
    that the binary64 weights and outputs stand for. *)
Definition weightR (nb : Neighbor) : R := to_R (weightOf nb).

Definition weightedSumR (sel : list Neighbor) : R :=
  fold_right (fun nb s => (weightR nb * to_R (Output nb) + s)%R) 0%R sel.

Definition absWeightedSumR (sel : list Neighbor) : R :=
  fold_right (fun nb s => (weightR nb * Rabs (to_R (Output nb)) + s)%R) 0%R sel.

Definition totalWeightR (sel : list Neighbor) : R :=
  fold_right (fun nb s => (weightR nb + s)%R) 0%R sel.

(** A TrainingSet of thirteen records, for the query [(10, 100, 50)]: the
    two last records are at the same distance, one day more than four
    others and less than the rest. *)
Definition thirteen_records : TrainingData :=
  [mkCase 11 100 50 101; mkCase 14 100 50 102; mkCase 14 100 50 103;
   mkCase 11 100 50 104; mkCase 11 100 50 105; mkCase 11 100 50 106;
   mkCase 13 100 50 107; mkCase 14 100 50 108; mkCase 14 100 50 109;
   mkCase 14 100 50 110; mkCase 14 100 50 111; mkCase 12 100 50 1000;
   mkCase 12 100 50 2000].

Close Scope float_scope.

(* ================================================================= *)
(** * The command: [main] and [loadTrainingData] *)

(** [main] (main.go, lines 28-62) and [loadTrainingData] (lines 64-80) over
    the library calls they make: [strconv.Atoi], [strconv.ParseFloat],
    [os.Open], the JSON decoder and the verb [%.2f] of [fmt] are parameters
    of the model, each returning its value or its error ([%v] of the error
    is the error's text).  A run is what the command wrote to the standard
    output and to the standard error through [fmt], and how it ended: with
    an exit status, or with a run-time panic (whose report by the Go
    run-time is not part of [stderr] here). *)
Module GoMain.

Import String.
Local Open Scope string_scope.

Inductive termination : Set :=
| ExitStatus (code : Z)
| RuntimePanic.

Record run : Set := {
  stdout : string;
  stderr : string;
  ending : termination
}.

Section Main.

Variable Atoi : string -> Z + string.
Variable ParseFloat : string -> float + string.
Variable file : Type.
Variable Open : string -> file + string.
Variable Decode : file -> TrainingData + string.
Variable format_2f : float -> string.

(** [loadTrainingData] (lines 64-80). *)
Definition loadTrainingData : TrainingData + string :=
  match Open "../public_cases.json" with
  | inr err => inr err
  | inl f =>
      match Decode f with
      | inr err => inr err
      | inl data => inl data
      end
  end.

(** [fmt.Fprintf(os.Stderr, ...)] followed by [os.Exit(1)]. *)
Definition fail (message : string) : run :=
  {| stdout := ""; stderr := message; ending := ExitStatus 1 |}.

Definition newline : string := String (Ascii.ascii_of_nat 10) "".

(** [main] (lines 28-62) on the argument vector [os.Args].  The last case
    stands for the panic of [predictWeightedKNN]; the call never runs out
    of fuel ([GoSortFacts.Slice_rearranges]). *)
Definition main (Args : list string) : run :=
  if negb (List.length Args =? 4)%nat then
    match Args with
    | [] => {| stdout := ""; stderr := ""; ending := RuntimePanic |}
    | program :: _ =>
        fail ("Usage: " ++ program
              ++ " <trip_duration_days> <miles_traveled> <total_receipts_amount>"
              ++ newline)
    end
  else
    match Atoi (List.nth 1 Args "") with
    | inr err => fail ("Error parsing trip_duration_days: " ++ err ++ newline)
    | inl tripDays =>
        match ParseFloat (List.nth 2 Args "") with
        | inr err => fail ("Error parsing miles_traveled: " ++ err ++ newline)
        | inl miles =>
            match ParseFloat (List.nth 3 Args "") with
            | inr err => fail ("Error parsing total_receipts_amount: " ++ err ++ newline)
            | inl receipts =>
                match loadTrainingData with
                | inr err => fail ("Error loading training data: " ++ err ++ newline)
                | inl trainingData =>
                    match predictWeightedKNN tripDays miles receipts trainingData 5 with
                    | Returns reimbursement =>
                        {| stdout := format_2f reimbursement ++ newline;
                           stderr := ""; ending := ExitStatus 0 |}
                    | _ => {| stdout := ""; stderr := ""; ending := RuntimePanic |}
                    end
                end
            end
        end
    end.

(** The command line has the three arguments after the program's name, each
    is parsed, and the data file is opened and decoded. *)
Definition ready (Args : list string) (tripDays : Z) (miles receipts : float)
  (data : TrainingData) : Prop :=
  exists program a1 a2 a3,
    Args = [program; a1; a2; a3]
    /\ Atoi a1 = inl tripDays /\ ParseFloat a2 = inl miles
    /\ ParseFloat a3 = inl receipts /\ loadTrainingData = inl data.

End Main.

(** Stand-ins for the library calls, for the example runs: one integer
    literal for [Atoi], two literals for [ParseFloat], one file of one
    record, one formatted value. *)
Definition Atoi_digit (s : string) : Z + string :=
  if String.eqb s "3" then inl 3%Z else inr "strconv.Atoi: parsing: invalid syntax".

Definition ParseFloat_literal (s : string) : float + string :=
  if String.eqb s "100" then inl 100%float
  else if String.eqb s "50" then inl 50%float
  else inr "strconv.ParseFloat: parsing: invalid syntax".

Definition Open_one (name : string) : unit + string :=
  if String.eqb name "../public_cases.json" then inl tt
  else inr "open: no such file or directory".

Definition Decode_one (f : unit) : TrainingData + string :=
  inl [mkCase 3 100 50 120].

Definition format_fixed (x : float) : string := "120.00".

End GoMain.

(* ================================================================= *)
(** * Facts about the binary64 specification *)

(** The primitive operations are specified in the Standard Library by their
    images under [Prim2SF] ([SFadd], [SFmul], ...).  The facts below are read
    off these specifications; they hold in every binary format. *)
Module SFFacts.

Import Float64.

Section Rounding.
Variables prec emax : Z.

Lemma iter_pos_invariant (A : Type) (P : A -> Prop) (f : A -> A) :
  (forall x, P x -> P (f x)) -> forall n x, P x -> P (SpecFloat.iter_pos f n x).
Proof.
  intros Hf. induction n as [n IH | n IH | ]; intros x Hx; simpl; auto.
Qed.

Lemma shr_1_nonneg mrs : (0 <= shr_m mrs)%Z -> (0 <= shr_m (shr_1 mrs))%Z.
Proof.
  destruct mrs as [m r s]. simpl.
  destruct m as [ | [p | p | ] | [p | p | ]]; simpl; lia.
Qed.

Lemma shr_nonneg mrs e n :
  (0 <= shr_m mrs)%Z -> (0 <= shr_m (fst (shr mrs e n)))%Z.
Proof.
  intros H. unfold shr. destruct n; simpl; auto.
  apply iter_pos_invariant; auto using shr_1_nonneg.
Qed.

Lemma shr_record_of_loc_m m l : shr_m (shr_record_of_loc m l) = m.
Proof. destruct l as [ | [ | | ]]; reflexivity. Qed.

Lemma shr_fexp_nonneg m e l :
  (0 <= m)%Z -> (0 <= shr_m (fst (shr_fexp prec emax m e l)))%Z.
Proof.
  intros H. unfold shr_fexp. apply shr_nonneg.
  now rewrite shr_record_of_loc_m.
Qed.

Lemma round_nearest_even_nonneg m l :
  (0 <= m)%Z -> (0 <= round_nearest_even m l)%Z.
Proof.
  intros H. destruct l as [ | [ | | ]]; simpl; try lia.
  destruct (Z.even m); lia.
Qed.

(** The sign a result carries; NaN carries none. *)
Definition SF_has_sign (s : bool) (x : spec_float) : bool :=
  match x with
  | S754_zero s' | S754_infinity s' | S754_finite s' _ _ => Bool.eqb s s'
  | S754_nan => false
  end.

Lemma binary_round_aux_sign s mx ex lx :
  (0 <= mx)%Z -> SF_has_sign s (binary_round_aux prec emax s mx ex lx) = true.
Proof.
  intros H. unfold binary_round_aux.
  pose proof (shr_fexp_nonneg mx ex lx H) as H1.
  destruct (shr_fexp prec emax mx ex lx) as [mrs' e']. simpl in H1.
  pose proof (round_nearest_even_nonneg _ (loc_of_shr_record mrs') H1) as H2.
  pose proof (shr_fexp_nonneg _ e' loc_Exact H2) as H3.
  destruct (shr_fexp prec emax _ e' loc_Exact) as [mrs'' e'']. simpl in H3.
  destruct (shr_m mrs''); simpl.
  - apply eqb_reflx.
  - destruct (Z.leb e'' (emax - prec)); simpl; apply eqb_reflx.
  - lia.
Qed.

Lemma binary_round_aux_abs s mx ex lx :
  SFabs (binary_round_aux prec emax s mx ex lx) = SFabs (binary_round_aux prec emax false mx ex lx).
Proof.
  unfold binary_round_aux.
  destruct (shr_fexp prec emax mx ex lx) as [mrs' e'].
  destruct (shr_fexp prec emax _ e' loc_Exact) as [mrs'' e''].
  destruct (shr_m mrs''); simpl; auto.
  destruct (Z.leb e'' (emax - prec)); reflexivity.
Qed.

Lemma binary_round_sign s m e :
  SF_has_sign s (binary_round prec emax s m e) = true.
Proof.
  unfold binary_round. destruct (shl_align _ _ _) as [mz ez].
  apply binary_round_aux_sign. lia.
Qed.

Lemma binary_round_abs s m e :
  SFabs (binary_round prec emax s m e) = SFabs (binary_round prec emax false m e).
Proof.
  unfold binary_round. destruct (shl_align _ _ _) as [mz ez].
  apply binary_round_aux_abs.
Qed.

Lemma binary_normalize_opp_abs m e sz sz' :
  SFabs (binary_normalize prec emax (- m) e sz) = SFabs (binary_normalize prec emax m e sz').
Proof.
  destruct m; simpl; auto.
  - apply binary_round_abs.
  - symmetry. apply binary_round_abs.
Qed.

End Rounding.

Section Ops.
Variables prec emax : Z.

Lemma has_sign_not_nan s x : SF_has_sign s x = true -> SF_is_nan x = false.
Proof. destruct x; simpl; congruence. Qed.

Lemma has_sign_false_nonneg x : SF_has_sign false x = true -> SF_nonneg x = true.
Proof. destruct x as [ s | s | | s m e]; simpl; try congruence; destruct s; auto. Qed.

Lemma nonneg_not_nan x : SF_nonneg x = true -> SF_is_nan x = false.
Proof. destruct x; simpl; congruence. Qed.

Lemma binary_normalize_not_nan m e sz :
  SF_is_nan (binary_normalize prec emax m e sz) = false.
Proof.
  destruct m; simpl; auto;
    eapply has_sign_not_nan, binary_round_sign.
Qed.

Lemma SFsub_diag x : SF_is_finite x = true -> SFsub prec emax x x = S754_zero false.
Proof.
  destruct x as [ s | s | | s m e]; simpl; try discriminate; intros _.
  - destruct s; reflexivity.
  - now rewrite Z.sub_diag.
Qed.

Lemma SFsub_finite_not_nan x y :
  SF_is_finite x = true -> SF_is_finite y = true ->
  SF_is_nan (SFsub prec emax x y) = false.
Proof.
  destruct x as [ sx | sx | | sx mx ex], y as [ sy | sy | | sy my ey];
    simpl; try discriminate; intros _ _; auto.
  - destruct sx, sy; reflexivity.
  - apply binary_normalize_not_nan.
Qed.

Lemma SFsub_swap_abs x y :
  SFabs (SFsub prec emax x y) = SFabs (SFsub prec emax y x).
Proof.
  destruct x as [ sx | sx | | sx mx ex], y as [ sy | sy | | sy my ey];
    simpl; auto; try (destruct sx, sy; reflexivity).
  rewrite (Z.min_comm ey ex).
  set (a := cond_Zopp sx _). set (b := cond_Zopp sy _).
  replace (b - a)%Z with (- (a - b))%Z by lia.
  symmetry. apply binary_normalize_opp_abs.
Qed.

Lemma SFdiv_abs_congr a b c :
  SFabs a = SFabs b -> SFabs (SFdiv prec emax a c) = SFabs (SFdiv prec emax b c).
Proof.
  destruct a as [ sa | sa | | sa ma ea], b as [ sb | sb | | sb mb eb];
    simpl; try discriminate; intros H; auto;
    destruct c as [ sc | sc | | sc mc ec]; simpl; auto.
  injection H as -> ->.
  destruct (SFdiv_core_binary _ _ _ _ _ _) as [[mz ez] lz].
  rewrite binary_round_aux_abs. symmetry. apply binary_round_aux_abs.
Qed.

Lemma SFdiv_core_binary_nonneg m1 e1 m2 e2 :
  (0 <= fst (fst (SFdiv_core_binary prec emax (Zpos m1) e1 (Zpos m2) e2)))%Z.
Proof.
  unfold SFdiv_core_binary.
  set (s := (e1 - e2 - _)%Z).
  set (m' := match s with Zpos _ => _ | Z0 => _ | Zneg _ => _ end).
  assert (Hm : (0 <= m')%Z).
  { subst m'. destruct s; try lia. apply Z.shiftl_nonneg. lia. }
  pose proof (Z.div_pos m' (Zpos m2) Hm ltac:(lia)) as Hq.
  unfold Z.div in Hq.
  destruct (Z.div_eucl m' (Zpos m2)) as [q r]. exact Hq.
Qed.

Lemma SFdiv_not_nan a sc mc ec :
  SF_is_nan a = false ->
  SF_is_nan (SFdiv prec emax a (S754_finite sc mc ec)) = false.
Proof.
  destruct a as [ sa | sa | | sa ma ea]; simpl; try discriminate; intros _; auto.
  pose proof (SFdiv_core_binary_nonneg ma ea mc ec) as H.
  destruct (SFdiv_core_binary _ _ _ _ _ _) as [[mz ez] lz]. simpl in H.
  eapply has_sign_not_nan, binary_round_aux_sign, H.
Qed.

Lemma SFmul_self_abs a b :
  SFabs a = SFabs b -> SFmul prec emax a a = SFmul prec emax b b.
Proof.
  destruct a as [ sa | sa | | sa ma ea], b as [ sb | sb | | sb mb eb];
    simpl; try discriminate; intros H; auto.
  - now rewrite !xorb_nilpotent.
  - now rewrite !xorb_nilpotent.
  - injection H as -> ->. now rewrite !xorb_nilpotent.
Qed.

Lemma SFmul_self_nonneg a :
  SF_is_nan a = false -> SF_nonneg (SFmul prec emax a a) = true.
Proof.
  destruct a as [ sa | sa | | sa ma ea]; simpl; try discriminate; intros _; auto.
  - now rewrite xorb_nilpotent.
  - rewrite xorb_nilpotent.
    apply has_sign_false_nonneg, binary_round_aux_sign. lia.
Qed.

Lemma SFadd_nonneg a b :
  SF_nonneg a = true -> SF_nonneg b = true ->
  SF_nonneg (SFadd prec emax a b) = true.
Proof.
  destruct a as [ sa | [ | ] | | [ | ] ma ea], b as [ sb | [ | ] | | [ | ] mb eb];
    simpl; try discriminate; intros _ _; auto.
  - destruct sa, sb; reflexivity.
  - apply has_sign_false_nonneg, binary_round_sign.
Qed.

Lemma SFsqrt_nonneg a :
  SF_nonneg a = true -> SF_nonneg (SFsqrt prec emax a) = true.
Proof.
  destruct a as [ sa | [ | ] | | [ | ] ma ea]; simpl; try discriminate; intros _; auto.
  unfold SFsqrt_core_binary.
  set (m' := match _ with Zpos _ => _ | Z0 => _ | Zneg _ => _ end).
  pose proof (Z.sqrtrem_sqrt m') as Hs.
  pose proof (Z.sqrt_nonneg m') as Hq.
  destruct (Z.sqrtrem m') as [q r]. simpl in Hs. subst q.
  apply has_sign_false_nonneg, binary_round_aux_sign, Hq.
Qed.

Lemma SFleb_zero_nonneg a :
  SF_nonneg a = true -> SFleb (S754_zero false) a = true.
Proof.
  destruct a as [ sa | [ | ] | | [ | ] ma ea]; simpl; try discriminate; reflexivity.
Qed.

Lemma SFcompare_refl a : SF_is_nan a = false -> SFcompare a a = Some Eq.
Proof.
  destruct a as [ sa | sa | | sa ma ea]; simpl; try discriminate; intros _; auto.
  - destruct sa; reflexivity.
  - change (Pos.compare_cont Eq ma ma) with (Pos.compare ma ma).
    rewrite Z.compare_refl, Pos.compare_refl. destruct sa; reflexivity.
Qed.

Lemma SFeqb_refl a : SF_is_nan a = false -> SFeqb a a = true.
Proof. intros H. unfold SFeqb. now rewrite SFcompare_refl. Qed.

Lemma SFltb_irrefl a : SFltb a a = false.
Proof.
  unfold SFltb. destruct a as [ sa | sa | | sa ma ea]; simpl; auto.
  - destruct sa; reflexivity.
  - change (Pos.compare_cont Eq ma ma) with (Pos.compare ma ma).
    rewrite Z.compare_refl, Pos.compare_refl. destruct sa; reflexivity.
Qed.

Lemma SFcompare_finite_Eq s1 m1 e1 s2 m2 e2 :
  SFcompare (S754_finite s1 m1 e1) (S754_finite s2 m2 e2) = Some Eq ->
  s1 = s2 /\ e1 = e2 /\ m1 = m2.
Proof.
  simpl. change (Pos.compare_cont Eq m1 m2) with (Pos.compare m1 m2).
  destruct s1, s2; try discriminate;
    destruct (Z.compare_spec e1 e2); try discriminate;
    destruct (Pos.compare_spec m1 m2); try discriminate; auto.
Qed.

(** Two values that compare equal to a third are not ordered by [<]. *)
Lemma SFeqb_not_ltb a b d :
  SFeqb a d = true -> SFeqb b d = true -> SFltb a b = false.
Proof.
  unfold SFeqb.
  destruct (SFcompare a d) as [ [ | | ] | ] eqn:Ha; try discriminate.
  destruct (SFcompare b d) as [ [ | | ] | ] eqn:Hb; try discriminate.
  intros _ _.
  destruct a as [ sa | sa | | sa ma ea], d as [ sd | sd | | sd md ed];
    try (simpl in Ha; discriminate);
    try (simpl in Ha; destruct sa; discriminate);
    try (simpl in Ha; destruct sd; discriminate);
    destruct b as [ sb | sb | | sb mb eb];
    try (simpl in Hb; discriminate);
    try (simpl in Hb; destruct sb; discriminate);
    try (simpl in Hb; destruct sd; discriminate).
  - reflexivity.
  - simpl in Ha, Hb.
    destruct sa, sd; try discriminate; destruct sb; try discriminate; reflexivity.
  - apply SFcompare_finite_Eq in Ha, Hb.
    destruct Ha as (-> & -> & ->), Hb as (-> & -> & ->).
    apply SFltb_irrefl.
Qed.

Lemma binary_round_aux_opp s m e l :
  SFopp (binary_round_aux prec emax s m e l) = binary_round_aux prec emax (negb s) m e l.
Proof.
  unfold binary_round_aux.
  destruct (shr_fexp prec emax m e l) as [mrs' e'].
  destruct (shr_fexp prec emax _ e' loc_Exact) as [mrs'' e''].
  destruct (shr_m mrs''); simpl; auto.
  destruct (Z.leb e'' (emax - prec)); reflexivity.
Qed.

Lemma binary_normalize_opp p e :
  SFopp (binary_normalize prec emax (Zpos p) e false) = binary_normalize prec emax (Zneg p) e false.
Proof.
  simpl. unfold binary_round. destruct (shl_align _ _ _) as [mz ez].
  apply binary_round_aux_opp.
Qed.

Lemma SFsqrt_finite_nonneg x :
  SF_is_finite (SFsqrt prec emax x) = true -> SF_nonneg (SFsqrt prec emax x) = true.
Proof.
  destruct x as [ s | [ | ] | | [ | ] m e]; simpl; try discriminate; auto.
  intros _. apply (SFsqrt_nonneg (S754_finite false m e)). reflexivity.
Qed.

Lemma SF_nonneg_to_R x : SF_nonneg x = true -> (0 <= SF2R x)%R.
Proof.
  destruct x as [ s | s | | [ | ] m e]; simpl; try discriminate; intros _; try lra.
  apply Rmult_le_pos.
  - apply IZR_le. lia.
  - apply Rlt_le, powerRZ_lt. lra.
Qed.

End Ops.

End SFFacts.

(* ================================================================= *)
(** * Facts about [int] subtraction *)

Module GoIntFacts.

Lemma wrap_in_range z : GoInt.in_range (GoInt.wrap z).
Proof.
  unfold GoInt.in_range, GoInt.wrap, GoInt.minInt, GoInt.maxInt.
  pose proof (Z.mod_pos_bound (z + 2 ^ 63) (2 ^ 64) ltac:(lia)). lia.
Qed.

Lemma wrap_id z : GoInt.in_range z -> GoInt.wrap z = z.
Proof.
  unfold GoInt.in_range, GoInt.wrap, GoInt.minInt, GoInt.maxInt. intros H.
  rewrite Z.mod_small; lia.
Qed.

Lemma wrap_opp z :
  GoInt.wrap (- z) = if (GoInt.wrap z =? GoInt.minInt)%Z then GoInt.minInt else (- GoInt.wrap z)%Z.
Proof.
  unfold GoInt.wrap, GoInt.minInt.
  pose proof (Z.div_mod (z + 2 ^ 63) (2 ^ 64) ltac:(lia)) as Hd.
  pose proof (Z.mod_pos_bound (z + 2 ^ 63) (2 ^ 64) ltac:(lia)) as Hb.
  set (q := ((z + 2 ^ 63) / 2 ^ 64)%Z) in *.
  set (r := ((z + 2 ^ 63) mod 2 ^ 64)%Z) in *.
  destruct (Z.eqb_spec (r - 2 ^ 63) (- 2 ^ 63)) as [E | E].
  - assert (r = 0)%Z by lia.
    assert (Hm : ((- z + 2 ^ 63) mod 2 ^ 64 = 0)%Z).
    { symmetry. apply (Z.mod_unique _ _ (1 - q)%Z); lia. }
    rewrite Hm. lia.
  - assert (Hm : ((- z + 2 ^ 63) mod 2 ^ 64 = 2 ^ 64 - r)%Z).
    { symmetry. apply (Z.mod_unique _ _ (- q)%Z); lia. }
    rewrite Hm. lia.
Qed.

Lemma int_sub_swap x y :
  GoInt.sub y x = if (GoInt.sub x y =? GoInt.minInt)%Z then GoInt.minInt else (- GoInt.sub x y)%Z.
Proof.
  unfold GoInt.sub. replace (y - x)%Z with (- (x - y))%Z by lia. apply wrap_opp.
Qed.

End GoIntFacts.

(* ================================================================= *)
(** * Facts about [float64] operations *)

Module Float64Facts.

Import Float64 SFFacts GoIntFacts.
Open Scope float_scope.

Lemma SFabs_opp x : SFabs (SFopp x) = SFabs x.
Proof. destruct x; reflexivity. Qed.

Lemma to_Z_of_Z_small z : (0 <= z < 2 ^ 63)%Z -> Uint63.to_Z (Uint63.of_Z z) = z.
Proof.
  intros H. rewrite Uint63.of_Z_spec. apply Z.mod_small.
  change Uint63.wB with (2 ^ 63)%Z. lia.
Qed.

Lemma of_int_not_nan z : is_nan (of_int z) = false.
Proof.
  unfold is_nan, of_int.
  destruct (z =? GoInt.minInt)%Z; [ reflexivity | ].
  destruct (z <? 0)%Z.
  - rewrite FloatAxioms.opp_spec, of_uint63_spec.
    generalize (binary_normalize_not_nan prec emax (Uint63.to_Z (Uint63.of_Z (- z))) 0 false).
    destruct (binary_normalize _ _ _ _ _); simpl; congruence.
  - rewrite of_uint63_spec. apply binary_normalize_not_nan.
Qed.

Lemma of_int_opp_abs z :
  GoInt.in_range z -> z <> GoInt.minInt ->
  SFabs (Prim2SF (of_int (- z))) = SFabs (Prim2SF (of_int z)).
Proof.
  unfold GoInt.in_range, GoInt.minInt, GoInt.maxInt. intros Hr Hm.
  unfold of_int, GoInt.minInt.
  destruct (Z.eqb_spec z (- 2 ^ 63)) as [ | _]; [ contradiction | ].
  destruct (Z.eqb_spec (- z) (- 2 ^ 63)) as [ | _]; [ exfalso; lia | ].
  destruct (Z.ltb_spec z 0), (Z.ltb_spec (- z) 0); try (exfalso; lia).
  - now rewrite FloatAxioms.opp_spec, SFabs_opp.
  - rewrite Z.opp_involutive. now rewrite FloatAxioms.opp_spec, SFabs_opp.
  - assert (z = 0)%Z as -> by lia. reflexivity.
Qed.

Lemma of_int_sub_swap_abs x y :
  SFabs (Prim2SF (of_int (GoInt.sub x y))) = SFabs (Prim2SF (of_int (GoInt.sub y x))).
Proof.
  rewrite (int_sub_swap x y).
  destruct (Z.eqb_spec (GoInt.sub x y) GoInt.minInt) as [E | E].
  - now rewrite E.
  - symmetry. apply of_int_opp_abs; auto. apply wrap_in_range.
Qed.

Lemma float_sub_diag x : is_finite x = true -> x - x = 0.
Proof.
  intros H. apply Prim2SF_inj. rewrite FloatAxioms.sub_spec.
  unfold SF64sub. now rewrite SFsub_diag.
Qed.

Lemma sub_swap_abs x y : SFabs (Prim2SF (x - y)) = SFabs (Prim2SF (y - x)).
Proof. rewrite !FloatAxioms.sub_spec. apply SFsub_swap_abs. Qed.

Lemma sub_finite_not_nan x y :
  is_finite x = true -> is_finite y = true -> is_nan (x - y) = false.
Proof. unfold is_nan. rewrite FloatAxioms.sub_spec. apply SFsub_finite_not_nan. Qed.

Lemma div_abs_congr a b c :
  SFabs (Prim2SF a) = SFabs (Prim2SF b) ->
  SFabs (Prim2SF (a / c)) = SFabs (Prim2SF (b / c)).
Proof. rewrite !FloatAxioms.div_spec. apply SFdiv_abs_congr. Qed.

Lemma mul_self_congr a b :
  SFabs (Prim2SF a) = SFabs (Prim2SF b) -> a * a = b * b.
Proof.
  intros H. apply Prim2SF_inj. rewrite !FloatAxioms.mul_spec. now apply SFmul_self_abs.
Qed.

(** The square of a scaled difference does not depend on the order of the
    two operands. *)
Lemma scaled_sub_sq_swap x y c :
  (x - y) / c * ((x - y) / c) = (y - x) / c * ((y - x) / c).
Proof. apply mul_self_congr, div_abs_congr, sub_swap_abs. Qed.

Lemma scaled_int_sub_sq_swap x y c :
  of_int (GoInt.sub x y) / c * (of_int (GoInt.sub x y) / c)
  = of_int (GoInt.sub y x) / c * (of_int (GoInt.sub y x) / c).
Proof. apply mul_self_congr, div_abs_congr, of_int_sub_swap_abs. Qed.

Lemma div_not_nan a c s m e :
  Prim2SF c = S754_finite s m e -> is_nan a = false -> is_nan (a / c) = false.
Proof.
  unfold is_nan. intros Hc Ha. rewrite FloatAxioms.div_spec, Hc. now apply SFdiv_not_nan.
Qed.

Lemma mul_self_nonneg a : is_nan a = false -> nonneg (a * a) = true.
Proof. unfold is_nan, nonneg. rewrite FloatAxioms.mul_spec. apply SFmul_self_nonneg. Qed.

Lemma float_add_nonneg a b : nonneg a = true -> nonneg b = true -> nonneg (a + b) = true.
Proof. unfold nonneg. rewrite FloatAxioms.add_spec. apply SFadd_nonneg. Qed.

Lemma Sqrt_nonneg a : nonneg a = true -> nonneg (Sqrt a) = true.
Proof. unfold nonneg, Sqrt. rewrite FloatAxioms.sqrt_spec. apply SFsqrt_nonneg. Qed.

Lemma nonneg_leb a : nonneg a = true -> (0 <=? a) = true.
Proof. unfold nonneg. rewrite FloatAxioms.leb_spec. apply SFleb_zero_nonneg. Qed.

Lemma nonneg_is_nan a : nonneg a = true -> is_nan a = false.
Proof. apply nonneg_not_nan. Qed.

Lemma float_eqb_refl a : is_nan a = false -> (a =? a) = true.
Proof. unfold is_nan. rewrite FloatAxioms.eqb_spec. apply SFeqb_refl. Qed.

Lemma eqb_not_ltb a b d : (a =? d) = true -> (b =? d) = true -> (a <? b) = false.
Proof. rewrite !FloatAxioms.eqb_spec, FloatAxioms.ltb_spec. apply SFeqb_not_ltb. Qed.

Lemma of_int_round_Z z : GoInt.in_range z -> of_int z = round_Z z.
Proof.
  unfold GoInt.in_range, GoInt.minInt, GoInt.maxInt, round_Z, of_int, GoInt.minInt.
  intros Hr.
  destruct (Z.eqb_spec z (- 2 ^ 63)) as [-> | Hm]; [ vm_compute; reflexivity | ].
  destruct (Z.ltb_spec z 0) as [Hneg | Hpos].
  - rewrite <- (SF2Prim_Prim2SF (- _)).
    rewrite FloatAxioms.opp_spec, of_uint63_spec, to_Z_of_Z_small by lia.
    destruct z as [ | p | p]; try lia.
    change (- Z.neg p)%Z with (Z.pos p). now rewrite binary_normalize_opp.
  - rewrite <- (SF2Prim_Prim2SF (of_uint63 _)).
    now rewrite of_uint63_spec, to_Z_of_Z_small by lia.
Qed.

Lemma Sqrt_finite_nonneg x : is_finite (Sqrt x) = true -> nonneg (Sqrt x) = true.
Proof.
  unfold is_finite, nonneg, Sqrt. rewrite FloatAxioms.sqrt_spec. apply SFsqrt_finite_nonneg.
Qed.

Lemma to_R_epsilon_pos : (0 < to_R epsilon)%R.
Proof.
  unfold to_R.
  replace (Prim2SF epsilon) with (S754_finite false 6044629098073146 (-79))
    by (vm_compute; reflexivity).
  unfold SF2R, cond_Zopp. apply Rmult_lt_0_compat.
  - apply IZR_lt. lia.
  - apply powerRZ_lt. lra.
Qed.

End Float64Facts.

(* ================================================================= *)
(** * Rounding to nearest: the error of the binary64 operations *)

(** [SpecFloat] rounds a number that is given by a mantissa, an exponent
    and the location of the rest.  The lemmas follow the number through
    [shr], [round_nearest_even] and [binary_round_aux] and give the error
    of an addition, a multiplication and a division. *)
Module RoundingFacts.

Import Float64 SFFacts Rounding.
Local Open Scope R_scope.

Section Bpow.

Lemma bpow_pos e : 0 < bpow e.
Proof. apply powerRZ_lt. lra. Qed.

Lemma bpow_add e1 e2 : bpow (e1 + e2) = bpow e1 * bpow e2.
Proof. apply powerRZ_add. lra. Qed.

Lemma bpow_succ e : bpow (e + 1) = 2 * bpow e.
Proof. rewrite bpow_add. unfold bpow at 2. simpl. lra. Qed.

Lemma bpow_0 : bpow 0 = 1.
Proof. reflexivity. Qed.

Lemma bpow_IZR n : (0 <= n)%Z -> bpow n = IZR (2 ^ n).
Proof.
  intros H. pattern n. apply natlike_ind; auto.
  intros k Hk IH. unfold Z.succ. rewrite bpow_succ, IH, Z.pow_add_r by lia.
  rewrite mult_IZR. change (IZR (2 ^ 1)) with 2. lra.
Qed.

Lemma bpow_le e1 e2 : (e1 <= e2)%Z -> bpow e1 <= bpow e2.
Proof.
  intros H. replace e2 with (e1 + (e2 - e1))%Z by lia.
  rewrite bpow_add, (bpow_IZR (e2 - e1)) by lia.
  assert (1 <= IZR (2 ^ (e2 - e1))).
  { apply IZR_le. assert (0 < 2 ^ (e2 - e1))%Z by (apply Z.pow_pos_nonneg; lia). lia. }
  pose proof (bpow_pos e1). nra.
Qed.

Lemma bpow_opp e : bpow (- e) = / bpow e.
Proof.
  assert (H : bpow (- e) * bpow e = 1).
  { rewrite <- bpow_add. replace (- e + e)%Z with 0%Z by lia. reflexivity. }
  pose proof (bpow_pos e). apply (Rmult_eq_reg_r (bpow e)); [ | lra ].
  rewrite H. field. lra.
Qed.

End Bpow.

Section Shift.


Lemma inbetween_rec_of_loc x m e l :
  inbetween_rec x (shr_record_of_loc m l) e <-> inbetween x m e l.
Proof. destruct l as [ | [ | | ]]; reflexivity. Qed.

Lemma shr_1_div2 mrs : (0 <= shr_m mrs)%Z -> shr_m (shr_1 mrs) = (shr_m mrs / 2)%Z.
Proof.
  destruct mrs as [m r s]. cbn [shr_m]. intros H.
  destruct m as [ | [p | p | ] | p]; try lia; cbn [shr_1 shr_m].
  - reflexivity.
  - rewrite Pos2Z.inj_xI. apply (Z.div_unique _ _ _ 1); lia.
  - rewrite Pos2Z.inj_xO. apply (Z.div_unique _ _ _ 0); lia.
  - reflexivity.
Qed.


Lemma scale_lt a b B : 0 < B -> (a * B < b * B <-> a < b).
Proof.
  intros HB. split; intros H.
  - now apply (Rmult_lt_reg_r B).
  - now apply Rmult_lt_compat_r.
Qed.

Lemma scale_eq a b B : 0 < B -> (a * B = b * B <-> a = b).
Proof.
  intros HB. split; intros H.
  - apply (Rmult_eq_reg_r B); auto. lra.
  - now rewrite H.
Qed.

Lemma inbetween_scale x m e l :
  inbetween x m e l <-> inbetween_unit (x / bpow e) m l.
Proof.
  pose proof (bpow_pos e) as HB.
  assert (Hx : x = x / bpow e * bpow e) by (field; lra).
  set (y := x / bpow e) in *. rewrite Hx. clearbody y. clear Hx.
  destruct l as [ | [ | | ]]; cbn [inbetween inbetween_unit].
  - apply scale_eq; auto.
  - apply scale_eq; auto.
  - rewrite !scale_lt by auto. reflexivity.
  - rewrite !scale_lt by auto. reflexivity.
Qed.

Lemma shr_1_inbetween x mrs e :
  (0 <= shr_m mrs)%Z -> inbetween_rec x mrs e -> inbetween_rec x (shr_1 mrs) (e + 1).
Proof.
  destruct mrs as [m r s]. unfold inbetween_rec. cbn [shr_m]. intros Hm.
  rewrite !inbetween_scale, bpow_succ.
  pose proof (bpow_pos e) as Hb.
  replace (x / (2 * bpow e)) with (x / bpow e / 2) by (field; lra).
  generalize (x / bpow e). intros y.
  destruct m as [ | [p | p | ] | p]; try lia;
    destruct r, s; cbn [shr_1 shr_m loc_of_shr_record orb inbetween_unit];
    rewrite ?(Pos2Z.inj_xI p), ?(Pos2Z.inj_xO p), ?plus_IZR, ?mult_IZR;
    intros H; lra.
Qed.

Lemma iter_pos_shr_1 x : forall p mrs e,
  (0 <= shr_m mrs)%Z -> inbetween_rec x mrs e ->
  inbetween_rec x (SpecFloat.iter_pos shr_1 p mrs) (e + Z.pos p)
  /\ shr_m (SpecFloat.iter_pos shr_1 p mrs) = (shr_m mrs / 2 ^ Z.pos p)%Z.
Proof.
  induction p as [p IH | p IH | ]; intros mrs e Hm Hx; cbn [SpecFloat.iter_pos].
  - pose proof (shr_1_inbetween x mrs e Hm Hx) as H1.
    pose proof (shr_1_div2 mrs Hm) as D1.
    assert (Hm1 : (0 <= shr_m (shr_1 mrs))%Z) by now apply shr_1_nonneg.
    destruct (IH _ _ Hm1 H1) as [H2 D2].
    assert (Hm2 : (0 <= shr_m (SpecFloat.iter_pos shr_1 p (shr_1 mrs)))%Z).
    { rewrite D2. apply Z.div_pos; [ lia | apply Z.pow_pos_nonneg; lia ]. }
    destruct (IH _ _ Hm2 H2) as [H3 D3].
    split.
    + replace (e + Z.pos p~1)%Z with (e + 1 + Z.pos p + Z.pos p)%Z by lia. exact H3.
    + rewrite D3, D2, D1.
      assert (E : (2 ^ Z.pos p~1 = 2 * 2 ^ Z.pos p * 2 ^ Z.pos p)%Z).
      { rewrite (Pos2Z.inj_xI p).
        replace (2 * Z.pos p + 1)%Z with (1 + Z.pos p + Z.pos p)%Z by lia.
        rewrite !Z.pow_add_r by lia. reflexivity. }
      rewrite E.
      rewrite !Z.div_div by (try lia; apply Z.pow_pos_nonneg; lia).
      f_equal. ring.
  - destruct (IH _ _ Hm Hx) as [H2 D2].
    assert (Hm2 : (0 <= shr_m (SpecFloat.iter_pos shr_1 p mrs))%Z).
    { rewrite D2. apply Z.div_pos; [ lia | apply Z.pow_pos_nonneg; lia ]. }
    destruct (IH _ _ Hm2 H2) as [H3 D3].
    split.
    + replace (e + Z.pos p~0)%Z with (e + Z.pos p + Z.pos p)%Z by lia. exact H3.
    + rewrite D3, D2.
      assert (E : (2 ^ Z.pos p~0 = 2 ^ Z.pos p * 2 ^ Z.pos p)%Z).
      { rewrite (Pos2Z.inj_xO p).
        replace (2 * Z.pos p)%Z with (Z.pos p + Z.pos p)%Z by lia.
        rewrite !Z.pow_add_r by lia. reflexivity. }
      rewrite E.
      rewrite !Z.div_div by (try lia; apply Z.pow_pos_nonneg; lia). reflexivity.
  - split; [ now apply shr_1_inbetween | ].
    rewrite shr_1_div2 by exact Hm. reflexivity.
Qed.

(** [shr]: the exponent grows to [max e (e + n)], the mantissa is divided. *)
Lemma shr_inbetween x mrs e n :
  (0 <= shr_m mrs)%Z -> inbetween_rec x mrs e ->
  inbetween_rec x (fst (shr mrs e n)) (snd (shr mrs e n))
  /\ snd (shr mrs e n) = Z.max e (e + n)
  /\ shr_m (fst (shr mrs e n)) = (shr_m mrs / 2 ^ (Z.max 0 n))%Z.
Proof.
  intros Hm Hx. unfold shr. destruct n as [ | p | p]; cbn [fst snd].
  - rewrite Z.max_l by lia. change (2 ^ Z.max 0 0)%Z with 1%Z. rewrite Z.div_1_r.
    repeat split; auto.
  - destruct (iter_pos_shr_1 x p mrs e Hm Hx) as [H1 H2].
    rewrite Z.max_r by lia. rewrite (Z.max_r 0) by lia. repeat split; auto.
  - rewrite Z.max_l by lia. rewrite (Z.max_l 0) by lia.
    change (2 ^ 0)%Z with 1%Z. rewrite Z.div_1_r. repeat split; auto.
Qed.

Lemma round_nearest_even_error x m e l :
  inbetween x m e l ->
  Rabs (IZR (round_nearest_even m l) * bpow e - x) <= / 2 * bpow e
  /\ (m <= round_nearest_even m l <= m + 1)%Z
  /\ (l = loc_Exact -> IZR (round_nearest_even m l) * bpow e = x).
Proof.
  pose proof (bpow_pos e) as Hb.
  destruct l as [ | [ | | ]]; cbn [inbetween round_nearest_even]; intros H.
  - split; [ | split; [ lia | auto ] ].
    rewrite H. replace (IZR m * bpow e - IZR m * bpow e) with 0 by ring.
    rewrite Rabs_R0. lra.
  - split; [ | split; [ | discriminate ] ].
    + destruct (Z.even m).
      * apply Rabs_le. lra.
      * rewrite plus_IZR. apply Rabs_le. lra.
    + destruct (Z.even m); lia.
  - split; [ | split; [ lia | discriminate ] ].
    apply Rabs_le. lra.
  - split; [ | split; [ lia | discriminate ] ].
    rewrite plus_IZR. apply Rabs_le. lra.
Qed.

End Shift.

Section Digits.

Lemma digits2_pos_spec p :
  (2 ^ (Z.pos (digits2_pos p) - 1) <= Z.pos p < 2 ^ Z.pos (digits2_pos p))%Z.
Proof.
  induction p as [p IH | p IH | ]; cbn [digits2_pos];
    rewrite ?Pos2Z.inj_succ, ?(Pos2Z.inj_xI p), ?(Pos2Z.inj_xO p).
  - replace (Z.succ (Z.pos (digits2_pos p)) - 1)%Z
      with (Z.succ (Z.pos (digits2_pos p) - 1)) by lia.
    rewrite !Z.pow_succ_r by lia. lia.
  - replace (Z.succ (Z.pos (digits2_pos p)) - 1)%Z
      with (Z.succ (Z.pos (digits2_pos p) - 1)) by lia.
    rewrite !Z.pow_succ_r by lia. lia.
  - simpl. lia.
Qed.

Lemma Zdigits2_nonneg m : (0 <= Zdigits2 m)%Z.
Proof. destruct m; simpl; lia. Qed.

Lemma Zdigits2_spec m :
  (0 < m)%Z -> (2 ^ (Zdigits2 m - 1) <= m < 2 ^ Zdigits2 m)%Z /\ (0 < Zdigits2 m)%Z.
Proof.
  destruct m as [ | p | p]; try lia. intros _. cbn [Zdigits2].
  split; [ apply digits2_pos_spec | lia ].
Qed.

Lemma Zdigits2_le m k : (0 <= m)%Z -> (0 <= k)%Z -> (m < 2 ^ k)%Z -> (Zdigits2 m <= k)%Z.
Proof.
  intros Hm Hk H. destruct (Z.eq_dec m 0) as [-> | Hn]; [ exact Hk | ].
  destruct (Zdigits2_spec m ltac:(lia)) as [[H1 _] Hd].
  assert (H2 : (2 ^ (Zdigits2 m - 1) < 2 ^ k)%Z) by lia.
  apply Z.pow_lt_mono_r_iff in H2; lia.
Qed.

Lemma Zdigits2_gt m k : (0 <= k)%Z -> (2 ^ k <= m)%Z -> (k < Zdigits2 m)%Z.
Proof.
  intros Hk H.
  assert (Hm : (0 < m)%Z).
  { assert (0 < 2 ^ k)%Z by (apply Z.pow_pos_nonneg; lia). lia. }
  destruct (Zdigits2_spec m Hm) as [[_ H1] Hd].
  assert (H2 : (2 ^ k < 2 ^ Zdigits2 m)%Z) by lia.
  apply Z.pow_lt_mono_r_iff in H2; lia.
Qed.

Lemma Zdigits2_mono m n : (0 <= m <= n)%Z -> (Zdigits2 m <= Zdigits2 n)%Z.
Proof.
  intros H. destruct (Z.eq_dec n 0) as [-> | Hn].
  { replace m with 0%Z by lia. lia. }
  destruct (Zdigits2_spec n ltac:(lia)) as [[_ H1] Hd].
  apply Zdigits2_le; lia.
Qed.

(** One more digit after adding one: the result is a power of two. *)
Lemma Zdigits2_succ m :
  (0 < m)%Z -> (Zdigits2 m < Zdigits2 (m + 1))%Z ->
  (m + 1 = 2 ^ Zdigits2 m)%Z /\ (Zdigits2 (m + 1) = Zdigits2 m + 1)%Z.
Proof.
  intros Hm H.
  destruct (Zdigits2_spec m Hm) as [[L1 U1] D1].
  destruct (Zdigits2_spec (m + 1) ltac:(lia)) as [[L2 U2] D2].
  assert (Hp : (2 ^ Zdigits2 m <= 2 ^ (Zdigits2 (m + 1) - 1))%Z)
    by (apply Z.pow_le_mono_r; lia).
  assert (E : (m + 1 = 2 ^ Zdigits2 m)%Z) by lia.
  split; [ exact E | ].
  assert (Zdigits2 (m + 1) <= Zdigits2 m + 1)%Z; [ | lia ].
  apply Zdigits2_le; try lia.
  rewrite Z.pow_add_r by lia. lia.
Qed.

End Digits.

Section Round.

Variables prec emax : Z.
Hypothesis Hprec : (0 < prec)%Z.

Local Abbreviation fexp := (SpecFloat.fexp prec emax).
Local Abbreviation emin := (SpecFloat.emin prec emax).

Lemma fexp_ge_emin a : (emin <= fexp a)%Z.
Proof. unfold SpecFloat.fexp. lia. Qed.

Lemma fexp_mono a b : (a <= b)%Z -> (fexp a <= fexp b)%Z.
Proof. unfold SpecFloat.fexp. lia. Qed.

Lemma fexp_succ a : (fexp (a + 1) <= fexp a + 1)%Z.
Proof. unfold SpecFloat.fexp. lia. Qed.

Lemma shr_no_shift mrs e n : (n <= 0)%Z -> shr mrs e n = (mrs, e).
Proof. destruct n; try reflexivity. lia. Qed.

Lemma loc_of_shr_record_of_loc m l : loc_of_shr_record (shr_record_of_loc m l) = l.
Proof. destruct l as [ | [ | | ]]; reflexivity. Qed.

(** What [shr_fexp] leaves of [m * 2^e] (exactly): the same value when no
    bit is shifted out, which is the case of an even [m] shifted by one. *)
Lemma shr_fexp_exact m e :
  (0 <= m)%Z ->
  let n := (fexp (Zdigits2 m + e) - e)%Z in
  (n <= 0 \/ (n = 1 /\ Z.even m = true))%Z ->
  IZR (shr_m (fst (shr_fexp prec emax m e loc_Exact)))
  * bpow (snd (shr_fexp prec emax m e loc_Exact))
  = IZR m * bpow e
  /\ (e <= snd (shr_fexp prec emax m e loc_Exact))%Z
  /\ (0 <= shr_m (fst (shr_fexp prec emax m e loc_Exact)))%Z.
Proof.
  intros Hm n Hn. unfold shr_fexp. fold n.
  destruct Hn as [Hn | [Hn He]].
  - rewrite shr_no_shift by exact Hn. cbn [fst snd shr_record_of_loc shr_m].
    repeat split; auto; lia.
  - rewrite Hn. cbn [shr fst snd SpecFloat.iter_pos shr_record_of_loc].
    destruct m as [ | [p | p | ] | p]; try lia; try discriminate;
      cbn [shr_1 shr_m orb].
    + rewrite bpow_succ. simpl. split; [ lra | split; lia ].
    + rewrite bpow_succ, (Pos2Z.inj_xO p), mult_IZR. split; [ lra | split; lia ].
Qed.


(** [binary_round_aux] on a number [x] given by mantissa, exponent and
    location: the mantissa [m'] it rounds to at the exponent [e1], the
    error, and the exact renormalisation [m2 * 2^e2] of [m' * 2^e1]. *)
Lemma binary_round_aux_model s m e l x :
  (0 <= m)%Z -> inbetween x m e l ->
  let e1 := Z.max e (fexp (Zdigits2 m + e)) in
  exists m' m2 e2,
    (m / 2 ^ (e1 - e) <= m' <= m / 2 ^ (e1 - e) + 1)%Z
    /\ Rabs (IZR m' * bpow e1 - x) <= / 2 * bpow e1
    /\ (e1 = e -> l = loc_Exact -> IZR m' * bpow e1 = x)
    /\ (e1 <= e2)%Z /\ (0 <= m2)%Z
    /\ IZR m2 * bpow e2 = IZR m' * bpow e1
    /\ binary_round_aux prec emax s m e l = SF_of_rounded prec emax s m2 e2.
Proof.
  intros Hm Hx e1. unfold binary_round_aux.
  set (n := (fexp (Zdigits2 m + e) - e)%Z).
  assert (He1 : e1 = Z.max e (e + n)) by (unfold e1, n; f_equal; lia).
  assert (Hemin : (emin <= e1)%Z)
    by (pose proof (fexp_ge_emin (Zdigits2 m + e)); unfold e1; lia).
  (* the first shift *)
  pose proof (shr_inbetween x (shr_record_of_loc m l) e n) as S1.
  rewrite shr_record_of_loc_m in S1.
  specialize (S1 Hm (proj2 (inbetween_rec_of_loc x m e l) Hx)).
  assert (N1 : (n <= 0)%Z -> shr (shr_record_of_loc m l) e n = (shr_record_of_loc m l, e))
    by apply shr_no_shift.
  unfold shr_fexp at 1. fold n.
  destruct (shr (shr_record_of_loc m l) e n) as [mrs1 e1'] eqn:E1.
  cbn [fst snd] in S1. destruct S1 as (X1 & -> & M1).
  rewrite <- He1 in *.
  set (m1 := shr_m mrs1) in *.
  assert (Hm1 : (0 <= m1)%Z).
  { rewrite M1. apply Z.div_pos; [ lia | apply Z.pow_pos_nonneg; lia ]. }
  assert (Hm1' : m1 = (m / 2 ^ (e1 - e))%Z).
  { rewrite M1. f_equal. f_equal. lia. }
  (* rounding *)
  destruct (round_nearest_even_error x m1 e1 (loc_of_shr_record mrs1) X1)
    as (R1 & R2 & R3).
  set (m' := round_nearest_even m1 (loc_of_shr_record mrs1)) in *.
  (* the mantissa after the first shift fits *)
  assert (C : (fexp (Zdigits2 m1 + e1) <= e1)%Z).
  { destruct (Z.le_gt_cases n 0) as [Hn | Hn].
    - assert (Ee : e1 = e) by lia.
      assert (Em : m1 = m).
      { rewrite Hm1'. replace (e1 - e)%Z with 0%Z by lia.
        change (2 ^ 0)%Z with 1%Z. apply Z.div_1_r. }
      rewrite Em, Ee. unfold n in Hn. lia.
    - assert (e1 = fexp (Zdigits2 m + e)) by (unfold n in *; lia).
      assert (Hd : (Zdigits2 m1 <= prec)%Z).
      { apply Zdigits2_le; try lia. rewrite Hm1'.
        apply Z.div_lt_upper_bound; [ apply Z.pow_pos_nonneg; lia | ].
        rewrite <- Z.pow_add_r by lia.
        destruct (Z.eq_dec m 0) as [-> | Hn0];
          [ apply Z.pow_pos_nonneg; lia | ].
        destruct (Zdigits2_spec m ltac:(lia)) as [[_ U] D].
        eapply Z.lt_le_trans; [ exact U | ].
        apply Z.pow_le_mono_r; [ lia | ].
        unfold SpecFloat.fexp in *. lia. }
      unfold SpecFloat.fexp in *. lia. }
  (* the second shift is exact *)
  assert (Hm'0 : (0 <= m')%Z) by lia.
  assert (N2 : let n2 := (fexp (Zdigits2 m' + e1) - e1)%Z in
               (n2 <= 0 \/ (n2 = 1 /\ Z.even m' = true))%Z).
  { intros n2.
    destruct (Z.le_gt_cases (Zdigits2 m') (Zdigits2 m1)) as [Hd | Hd].
    { left. pose proof (fexp_mono (Zdigits2 m' + e1) (Zdigits2 m1 + e1) ltac:(lia)).
      unfold n2. lia. }
    assert (Hm'1 : m' = (m1 + 1)%Z).
    { destruct (Z.eq_dec m' m1) as [E | E]; [ rewrite E in Hd; lia | lia ]. }
    destruct (Z.eq_dec m1 0) as [Hz | Hz].
    { left. unfold n2. rewrite Hm'1, Hz. change (Zdigits2 (0 + 1)) with 1%Z.
      unfold SpecFloat.fexp in *. lia. }
    rewrite Hm'1 in Hd.
    destruct (Zdigits2_succ m1 ltac:(lia) Hd) as [P1 P2].
    pose proof (fexp_succ (Zdigits2 m1 + e1)) as F.
    destruct (Z.le_gt_cases n2 0) as [Hn2 | Hn2]; [ now left | right ].
    assert (Hn2' : n2 = 1%Z).
    { unfold n2 in *. rewrite Hm'1, P2 in *.
      replace (Zdigits2 m1 + 1 + e1)%Z with (Zdigits2 m1 + e1 + 1)%Z in * by lia. lia. }
    split; [ exact Hn2' | ].
    rewrite Hm'1, P1.
    destruct (Zdigits2_spec m1 ltac:(lia)) as [_ D].
    replace (Zdigits2 m1) with (Z.succ (Zdigits2 m1 - 1)) by lia.
    rewrite Z.pow_succ_r by lia. rewrite Z.even_mul. reflexivity. }
  destruct (shr_fexp_exact m' e1 Hm'0 N2) as (V1 & V2 & V3).
  destruct (shr_fexp prec emax m' e1 loc_Exact) as [mrs2 e2]. cbn [fst snd] in *.
  exists m', (shr_m mrs2), e2.
  split; [ lia | ].
  split; [ exact R1 | ].
  split.
  { intros Ee Hl. apply R3.
    assert (Hn : (n <= 0)%Z) by lia.
    pose proof (N1 Hn) as Q. injection Q as Q1 Q2.
    rewrite Q1, loc_of_shr_record_of_loc. exact Hl. }
  split; [ exact V2 | ]. split; [ exact V3 | ]. split; [ exact V1 | ].
  unfold SF_of_rounded. reflexivity.
Qed.

End Round.

Section Value.

Lemma IZR_cond_Zopp s z : IZR (cond_Zopp s z) = sgn s * IZR z.
Proof. destruct s; simpl; [ rewrite opp_IZR | ]; unfold sgn; lra. Qed.

Lemma SF2R_finite s m e : SF2R (S754_finite s m e) = sgn s * (IZR (Z.pos m) * bpow e).
Proof. cbn [SF2R]. rewrite IZR_cond_Zopp. unfold bpow. ring. Qed.

Lemma Rabs_sgn s a : Rabs (sgn s * a) = Rabs a.
Proof. destruct s; unfold sgn; [ rewrite <- (Rabs_Ropp a); f_equal; ring | f_equal; ring ]. Qed.

Lemma Rabs_sgn_sub s a b : Rabs (sgn s * a - sgn s * b) = Rabs (a - b).
Proof. rewrite <- Rmult_minus_distr_l. apply Rabs_sgn. Qed.

Lemma sgn_xorb s1 s2 : sgn (xorb s1 s2) = sgn s1 * sgn s2.
Proof. destruct s1, s2; unfold sgn; simpl; lra. Qed.

Lemma sgn_sq s : sgn s * sgn s = 1.
Proof. destruct s; unfold sgn; lra. Qed.

Lemma IZR_pos_pos p : 0 < IZR (Z.pos p).
Proof. apply IZR_lt. lia. Qed.

End Value.

Section Models.

Variables prec emax : Z.
Hypothesis Hprec : (0 < prec)%Z.

Local Abbreviation fexp := (SpecFloat.fexp prec emax).
Local Abbreviation emin := (SpecFloat.emin prec emax).

Lemma SF_of_rounded_finite s m2 e2 sz mz ez :
  SF_of_rounded prec emax s m2 e2 = S754_finite sz mz ez ->
  sz = s /\ m2 = Z.pos mz /\ e2 = ez.
Proof.
  unfold SF_of_rounded. destruct m2 as [ | p | p]; try discriminate.
  destruct (e2 <=? emax - prec)%Z; try discriminate.
  intros H. injection H as -> -> ->. auto.
Qed.

Lemma SF_of_rounded_zero s m2 e2 sz :
  SF_of_rounded prec emax s m2 e2 = S754_zero sz -> m2 = 0%Z.
Proof.
  unfold SF_of_rounded. destruct m2 as [ | p | p]; try discriminate; auto.
  destruct (e2 <=? emax - prec)%Z; discriminate.
Qed.

(** A finite result of [binary_round_aux]. *)
Lemma binary_round_aux_finite s m e l x sz mz ez :
  (0 <= m)%Z -> inbetween x m e l ->
  binary_round_aux prec emax s m e l = S754_finite sz mz ez ->
  let e1 := Z.max e (fexp (Zdigits2 m + e)) in
  sz = s
  /\ exists m',
       (m / 2 ^ (e1 - e) <= m')%Z
       /\ IZR (Z.pos mz) * bpow ez = IZR m' * bpow e1
       /\ Rabs (IZR m' * bpow e1 - x) <= / 2 * bpow e1
       /\ (e1 = e -> l = loc_Exact -> IZR m' * bpow e1 = x)
       /\ (e1 <= ez)%Z.
Proof.
  intros Hm Hx E e1.
  destruct (binary_round_aux_model prec emax Hprec s m e l x Hm Hx)
    as (m' & m2 & e2 & B1 & B2 & B3 & B4 & B5 & B6 & B7).
  fold e1 in B1, B2, B3, B4, B6.
  rewrite B7 in E. apply SF_of_rounded_finite in E. destruct E as (-> & -> & ->).
  split; [ reflexivity | ]. exists m'. repeat split; auto; lia.
Qed.

(** A zero result of [binary_round_aux]: the number was rounded to zero. *)
Lemma binary_round_aux_zero s m e l x sz :
  (0 <= m)%Z -> inbetween x m e l ->
  binary_round_aux prec emax s m e l = S754_zero sz ->
  let e1 := Z.max e (fexp (Zdigits2 m + e)) in
  (m / 2 ^ (e1 - e) <= 0)%Z /\ (e1 = e -> l = loc_Exact -> x = 0).
Proof.
  intros Hm Hx E e1.
  destruct (binary_round_aux_model prec emax Hprec s m e l x Hm Hx)
    as (m' & m2 & e2 & B1 & B2 & B3 & B4 & B5 & B6 & B7).
  fold e1 in B1, B2, B3, B4, B6.
  rewrite B7 in E. apply SF_of_rounded_zero in E. subst m2.
  assert (Hz : m' = 0%Z).
  { pose proof (bpow_pos e1). pose proof (bpow_pos e2).
    apply eq_IZR. apply (Rmult_eq_reg_r (bpow e1)); [ | lra ].
    rewrite <- B6. ring. }
  subst m'. split; [ lia | ].
  intros Ee Hl. rewrite <- (B3 Ee Hl). ring.
Qed.

Lemma half_ulp_normal (mz : positive) (ez : Z) :
  (2 ^ (prec - 1) <= Z.pos mz)%Z ->
  / 2 * bpow ez <= bpow (- prec) * (IZR (Z.pos mz) * bpow ez).
Proof.
  intros Hn. pose proof (bpow_pos ez) as Hb.
  assert (H1 : bpow (prec - 1) <= IZR (Z.pos mz)).
  { rewrite bpow_IZR by lia. now apply IZR_le. }
  assert (H2 : bpow (- prec) * bpow (prec - 1) = / 2).
  { rewrite <- bpow_add. replace (- prec + (prec - 1))%Z with (- (1))%Z by lia.
    rewrite bpow_opp. change (bpow 1) with (2 * 1). f_equal. ring. }
  pose proof (bpow_pos (- prec)) as Hu.
  assert (H3 : / 2 <= bpow (- prec) * IZR (Z.pos mz)).
  { rewrite <- H2. apply Rmult_le_compat_l; lra. }
  replace (bpow (- prec) * (IZR (Z.pos mz) * bpow ez))
    with (bpow (- prec) * IZR (Z.pos mz) * bpow ez) by ring.
  apply Rmult_le_compat_r; lra.
Qed.

(** A result with a full mantissa is within the relative error [2^-prec]. *)
Lemma binary_round_aux_normal s m e l x sz mz ez :
  (0 <= m)%Z -> inbetween x m e l ->
  binary_round_aux prec emax s m e l = S754_finite sz mz ez ->
  (2 ^ (prec - 1) <= Z.pos mz)%Z ->
  sz = s
  /\ Rabs (IZR (Z.pos mz) * bpow ez - x) <= bpow (- prec) * (IZR (Z.pos mz) * bpow ez).
Proof.
  intros Hm Hx E Hn.
  destruct (binary_round_aux_finite s m e l x sz mz ez Hm Hx E)
    as (Hs & m' & M1 & M2 & M3 & M4 & M5).
  split; [ exact Hs | ].
  rewrite M2. eapply Rle_trans; [ exact M3 | ].
  rewrite <- M2.
  eapply Rle_trans; [ | apply half_ulp_normal; exact Hn ].
  apply Rmult_le_compat_l; [ lra | ]. now apply bpow_le.
Qed.

Lemma iter_xO_value m d : Z.pos (Pos.iter xO m d) = (Z.pos m * 2 ^ Z.pos d)%Z.
Proof.
  induction d as [ | d IH] using Pos.peano_ind.
  - simpl. lia.
  - rewrite Pos.iter_succ, Pos2Z.inj_xO, IH, Pos2Z.inj_succ, Z.pow_succ_r by lia. ring.
Qed.

Lemma iter_xO_digits m d :
  Z.pos (digits2_pos (Pos.iter xO m d)) = (Z.pos (digits2_pos m) + Z.pos d)%Z.
Proof.
  induction d as [ | d IH] using Pos.peano_ind.
  - simpl. lia.
  - rewrite Pos.iter_succ. cbn [digits2_pos]. rewrite Pos2Z.inj_succ, IH. lia.
Qed.

(** [shl_align] towards a smaller exponent keeps the value. *)
Lemma shl_align_value mx ex ex' :
  (ex' <= ex)%Z ->
  snd (shl_align mx ex ex') = ex'
  /\ IZR (Z.pos (fst (shl_align mx ex ex'))) * bpow ex' = IZR (Z.pos mx) * bpow ex
  /\ Z.pos (digits2_pos (fst (shl_align mx ex ex')))
     = (Z.pos (digits2_pos mx) + (ex - ex'))%Z.
Proof.
  intros H. unfold shl_align. destruct (ex' - ex)%Z as [ | d | d] eqn:E; try lia;
    cbn [fst snd].
  - assert (ex' = ex) by lia. subst. repeat split; auto. lia.
  - rewrite iter_xO_value, iter_xO_digits, mult_IZR.
    assert (Eb : bpow ex = IZR (2 ^ Z.pos d) * bpow ex').
    { replace ex with (Z.pos d + ex')%Z by lia.
      rewrite bpow_add, (bpow_IZR (Z.pos d)) by lia.
      replace (Z.pos d + ex' - ex')%Z with (Z.pos d) by lia. reflexivity. }
    rewrite Eb. repeat split; auto; [ ring | lia ].
Qed.

(** [binary_round] of [M * 2^E], [E] not below [emin]: the relative error
    of a finite result is at most [2^-prec]. *)
Lemma binary_round_model s M E :
  (emin <= E)%Z ->
  SF_is_finite (binary_round prec emax s M E) = true ->
  Rabs (SF2R (binary_round prec emax s M E) - sgn s * (IZR (Z.pos M) * bpow E))
  <= bpow (- prec) * Rabs (SF2R (binary_round prec emax s M E)).
Proof.
  intros HE. unfold binary_round.
  set (D := Z.pos (digits2_pos M)).
  set (F := fexp (D + E)).
  assert (HM : (2 ^ (D - 1) <= Z.pos M < 2 ^ D)%Z) by apply digits2_pos_spec.
  set (x := IZR (Z.pos M) * bpow E).
  assert (Hxpos : 0 < x).
  { unfold x. apply Rmult_lt_0_compat; [ apply IZR_pos_pos | apply bpow_pos ]. }
  pose proof (bpow_pos (- prec)) as Hu.
  (* the aligned mantissa and what rounding it at its exponent does *)
  assert (K : exists Mz Ez,
             shl_align M E F = (Mz, Ez)
             /\ IZR (Z.pos Mz) * bpow Ez = x
             /\ let e1 := Z.max Ez (fexp (Zdigits2 (Z.pos Mz) + Ez)) in
                (e1 = Ez \/ (2 ^ (prec - 1) <= Z.pos Mz / 2 ^ (e1 - Ez))%Z)).
  { destruct (Z.le_gt_cases E F) as [HF | HF].
    - exists M, E. split; [ | split; [ reflexivity | ] ].
      { unfold shl_align. destruct (F - E)%Z eqn:EF; try reflexivity. lia. }
      cbv zeta. cbn [Zdigits2]. fold D. fold F. set (e1 := Z.max E F).
      destruct (Z.eq_dec F E) as [EF | EF]; [ left; unfold e1; lia | right ].
      assert (He1 : e1 = F) by (unfold e1; lia).
      assert (HFv : F = (D + E - prec)%Z) by (unfold F, SpecFloat.fexp in *; lia).
      rewrite He1, HFv. replace (D + E - prec - E)%Z with (D - prec)%Z by lia.
      apply Z.div_le_lower_bound; [ apply Z.pow_pos_nonneg; lia | ].
      rewrite <- Z.pow_add_r by lia.
      replace (D - prec + (prec - 1))%Z with (D - 1)%Z by lia. lia.
    - assert (HFE : (F <= E)%Z) by lia.
      destruct (shl_align_value M E F HFE) as (A1 & A2 & A3).
      destruct (shl_align M E F) as [Mz Ez]. cbn [fst snd] in *. subst Ez.
      exists Mz, F. split; [ reflexivity | split; [ exact A2 | ] ].
      cbv zeta. cbn [Zdigits2]. rewrite A3. fold D.
      replace (D + (E - F) + F)%Z with (D + E)%Z by lia. fold F.
      left. lia. }
  destruct K as (Mz & Ez & -> & Kx & Ke). cbv zeta in Ke.
  assert (Hin : inbetween x (Z.pos Mz) Ez loc_Exact) by (symmetry; exact Kx).
  destruct (binary_round_aux prec emax s (Z.pos Mz) Ez loc_Exact)
    as [sz | sz | | sz mz ez] eqn:R; try discriminate; intros _.
  - (* a zero result is impossible *)
    exfalso.
    destruct (binary_round_aux_zero s _ _ _ x sz (Pos2Z.is_nonneg Mz) Hin R) as [Z1 Z2].
    destruct Ke as [Ke | Ke].
    + specialize (Z2 Ke eq_refl). lra.
    + assert (0 < 2 ^ (prec - 1))%Z by (apply Z.pow_pos_nonneg; lia). lia.
  - destruct (binary_round_aux_finite s _ _ _ x sz mz ez (Pos2Z.is_nonneg Mz) Hin R)
      as (-> & m' & M1 & M2 & M3 & M4 & M5).
    rewrite SF2R_finite, Rabs_sgn_sub, Rabs_sgn.
    assert (Hv : 0 < IZR (Z.pos mz) * bpow ez).
    { apply Rmult_lt_0_compat; [ apply IZR_pos_pos | apply bpow_pos ]. }
    rewrite (Rabs_pos_eq (IZR (Z.pos mz) * bpow ez)) by lra.
    destruct Ke as [Ke | Ke].
    + rewrite M2, (M4 Ke eq_refl).
      replace (x - x) with 0 by ring. rewrite Rabs_R0.
      apply Rmult_le_pos; lra.
    + rewrite M2. eapply Rle_trans; [ exact M3 | ].
      set (e1 := Z.max Ez (fexp (Zdigits2 (Z.pos Mz) + Ez))) in *.
      pose proof (bpow_pos e1) as Hb.
      assert (H1 : bpow (prec - 1) <= IZR m').
      { rewrite bpow_IZR by lia. apply IZR_le. lia. }
      assert (H2 : bpow (- prec) * bpow (prec - 1) = / 2).
      { rewrite <- bpow_add. replace (- prec + (prec - 1))%Z with (- (1))%Z by lia.
        rewrite bpow_opp. change (bpow 1) with (2 * 1). f_equal. ring. }
      assert (H3 : / 2 <= bpow (- prec) * IZR m').
      { rewrite <- H2. apply Rmult_le_compat_l; lra. }
      replace (bpow (- prec) * (IZR m' * bpow e1))
        with (bpow (- prec) * IZR m' * bpow e1) by ring.
      apply Rmult_le_compat_r; lra.
Qed.

End Models.

Section DivCore.

Variables prec emax : Z.

Lemma SFdiv_core_binary_inbetween mx ex my ey :
  (0 <= fst (fst (SFdiv_core_binary prec emax (Z.pos mx) ex (Z.pos my) ey)))%Z
  /\ inbetween (IZR (Z.pos mx) * bpow ex / (IZR (Z.pos my) * bpow ey))
       (fst (fst (SFdiv_core_binary prec emax (Z.pos mx) ex (Z.pos my) ey)))
       (snd (fst (SFdiv_core_binary prec emax (Z.pos mx) ex (Z.pos my) ey)))
       (snd (SFdiv_core_binary prec emax (Z.pos mx) ex (Z.pos my) ey)).
Proof.
  unfold SFdiv_core_binary.
  set (e' := Z.min _ (ex - ey)).
  set (s := (ex - ey - e')%Z).
  assert (Hs : (0 <= s)%Z) by (unfold s, e'; lia).
  set (m' := match s with Z.pos _ => _ | Z0 => _ | Z.neg _ => _ end).
  assert (Hm' : m' = (Z.pos mx * 2 ^ s)%Z).
  { unfold m'. destruct s as [ | p | p ] eqn:Es; try lia.
    apply Z.shiftl_mul_pow2. lia. }
  clearbody m'.
  pose proof (Z_div_mod m' (Z.pos my) ltac:(lia)) as Hdiv.
  destruct (Z.div_eucl m' (Z.pos my)) as [q r]. destruct Hdiv as [Hq Hr].
  cbn [fst snd].
  assert (Hm'0 : (0 < m')%Z).
  { rewrite Hm'. assert (0 < 2 ^ s)%Z by (apply Z.pow_pos_nonneg; lia). lia. }
  split; [ nia | ].
  apply inbetween_scale.
  pose proof (IZR_pos_pos my) as Hy.
  pose proof (bpow_pos e') as He'. pose proof (bpow_pos ey) as Hey.
  set (rho := IZR r / IZR (Z.pos my)).
  assert (HX : IZR (Z.pos mx) * bpow ex / (IZR (Z.pos my) * bpow ey) / bpow e'
               = IZR q + rho).
  { assert (Eb : bpow ex = IZR (2 ^ s) * bpow e' * bpow ey).
    { rewrite <- bpow_IZR, <- !bpow_add by lia. f_equal. unfold s. lia. }
    rewrite Eb.
    assert (Em : IZR (Z.pos mx) * IZR (2 ^ s) = IZR (Z.pos my) * IZR q + IZR r).
    { rewrite <- !mult_IZR, <- plus_IZR. f_equal. lia. }
    transitivity (IZR (Z.pos mx) * IZR (2 ^ s) / IZR (Z.pos my)); [ field; lra | ].
    rewrite Em. unfold rho. field. lra. }
  rewrite HX.
  assert (Hr0 : 0 <= IZR r) by (apply IZR_le; lia).
  assert (Hrho : IZR r = rho * IZR (Z.pos my)) by (unfold rho; field; lra).
  assert (Hrho0 : 0 <= rho).
  { unfold rho. apply Rmult_le_pos; [ lra | ]. left. now apply Rinv_0_lt_compat. }
  assert (Cmp : forall a b : Z, (a < b)%Z -> IZR a < IZR b) by (intros; now apply IZR_lt).
  assert (Hlt : IZR r < IZR (Z.pos my)) by (apply IZR_lt; lia).
  unfold new_location, new_location_even, new_location_odd.
  destruct (Z.even (Z.pos my)) eqn:Ev; cbv beta;
    (destruct (Z.eqb_spec r 0) as [Hz | Hz];
     [ assert (rho = 0) by (unfold rho; rewrite Hz; field; lra);
       cbv beta iota delta [inbetween_unit]; lra | ]).
  - destruct (Z.compare_spec (2 * r) (Z.pos my)) as [Hc | Hc | Hc];
      cbv beta iota delta [inbetween_unit].
    + apply (f_equal IZR) in Hc. rewrite mult_IZR in Hc. nra.
    + apply Cmp in Hc. rewrite mult_IZR in Hc.
      assert (0 < IZR r) by (apply IZR_lt; lia). nra.
    + apply Cmp in Hc. rewrite mult_IZR in Hc. nra.
  - assert (Hodd : (2 * r <> Z.pos my)%Z).
    { intros Hc. rewrite <- Hc, Z.even_mul in Ev. discriminate. }
    assert (0 < IZR r) by (apply IZR_lt; lia).
    destruct (Z.compare_spec (2 * r + 1) (Z.pos my)) as [Hc | Hc | Hc];
      cbv beta iota delta [inbetween_unit].
    + assert (Hc' : (2 * r < Z.pos my)%Z) by lia.
      apply Cmp in Hc'. rewrite mult_IZR in Hc'. nra.
    + assert (Hc' : (2 * r < Z.pos my)%Z) by lia.
      apply Cmp in Hc'. rewrite mult_IZR in Hc'. nra.
    + assert (Hc' : (Z.pos my < 2 * r)%Z) by lia.
      apply Cmp in Hc'. rewrite mult_IZR in Hc'. nra.
Qed.

End DivCore.

Section OpModels.

Lemma prec_pos : (0 < prec)%Z.
Proof. reflexivity. Qed.

Lemma SF_is_finite_SF2R_zero x : SF_is_zero x = true -> SF2R x = 0.
Proof. destruct x; try discriminate. reflexivity. Qed.

Lemma valid_binary_emin s m e :
  valid_binary (S754_finite s m e) = true -> (SpecFloat.emin prec emax <= e)%Z.
Proof.
  unfold valid_binary. cbn [SpecFloat.valid_binary]. unfold bounded, canonical_mantissa.
  intros H. apply andb_prop in H. destruct H as [H _].
  apply Z.eqb_eq in H. rewrite <- H. apply fexp_ge_emin.
Qed.

(** Multiplication: a product that is a normal number, or has a zero
    operand, is within the relative error [u]. *)
Lemma SFmul_model x y :
  SF_is_finite (SFmul prec emax x y) = true ->
  (SF_is_zero x || SF_is_zero y || SF_normal (SFmul prec emax x y)) = true ->
  Rabs (SF2R (SFmul prec emax x y) - SF2R x * SF2R y)
  <= u * Rabs (SF2R (SFmul prec emax x y)).
Proof.
  assert (Hu : 0 < u) by apply bpow_pos.
  assert (Z0 : Rabs (0 - 0) <= u * Rabs 0).
  { replace (0 - 0) with 0 by ring. rewrite Rabs_R0. lra. }
  destruct x as [ sx | sx | | sx mx ex], y as [ sy | sy | | sy my ey];
    cbn [SFmul SF_is_finite SF_is_zero SF_normal orb]; try discriminate; intros Hf Hn;
    try (cbn [SF2R]; rewrite ?Rmult_0_l, ?Rmult_0_r; exact Z0).
  destruct (binary_round_aux prec emax (xorb sx sy) (Z.pos (mx * my)) (ex + ey) loc_Exact)
    as [ sz | sz | | sz mz ez ] eqn:R; try discriminate.
  cbn [SF_normal] in Hn. apply Z.leb_le in Hn.
  assert (Hin : inbetween (IZR (Z.pos (mx * my)) * bpow (ex + ey))
                  (Z.pos (mx * my)) (ex + ey) loc_Exact) by reflexivity.
  destruct (binary_round_aux_normal prec emax prec_pos _ _ _ _ _ sz mz ez
              (Pos2Z.is_nonneg _) Hin R Hn) as [-> Hb].
  rewrite !SF2R_finite, sgn_xorb.
  replace (sgn sx * (IZR (Z.pos mx) * bpow ex) * (sgn sy * (IZR (Z.pos my) * bpow ey)))
    with (sgn sx * sgn sy * (IZR (Z.pos (mx * my)) * bpow (ex + ey))).
  2:{ rewrite Pos2Z.inj_mul, mult_IZR, bpow_add. ring. }
  rewrite <- sgn_xorb, Rabs_sgn_sub, Rabs_sgn.
  rewrite (Rabs_pos_eq (IZR (Z.pos mz) * bpow ez)); [ exact Hb | ].
  apply Rmult_le_pos; [ left; apply IZR_pos_pos | left; apply bpow_pos ].
Qed.

(** Division by a number that is not zero: a quotient that is a normal
    number, or has a zero numerator, is within the relative error [u]. *)
Lemma SFdiv_model x y :
  SF_is_finite x = true -> SF_is_finite y = true -> SF_is_zero y = false ->
  (SF_is_zero x || SF_normal (SFdiv prec emax x y)) = true ->
  Rabs (SF2R (SFdiv prec emax x y) - SF2R x / SF2R y)
  <= u * Rabs (SF2R (SFdiv prec emax x y)).
Proof.
  assert (Hu : 0 < u) by apply bpow_pos.
  destruct x as [ sx | sx | | sx mx ex], y as [ sy | sy | | sy my ey];
    cbn [SFdiv SF_is_finite SF_is_zero SF_normal orb]; try discriminate;
    intros _ _ _ Hn.
  { cbn [SF2R]. unfold Rdiv. rewrite Rmult_0_l.
    replace (0 - 0) with 0 by ring. rewrite Rabs_R0. lra. }
  pose proof (SFdiv_core_binary_inbetween prec emax mx ex my ey) as [Hq Hin].
  destruct (SFdiv_core_binary prec emax (Z.pos mx) ex (Z.pos my) ey) as [[q e'] l].
  cbn [fst snd] in Hq, Hin.
  destruct (binary_round_aux prec emax (xorb sx sy) q e' l)
    as [ sz | sz | | sz mz ez ] eqn:R; try discriminate.
  cbn [SF_normal] in Hn. apply Z.leb_le in Hn.
  destruct (binary_round_aux_normal prec emax prec_pos _ _ _ _ _ sz mz ez Hq Hin R Hn)
    as [-> Hb].
  rewrite !SF2R_finite, sgn_xorb.
  pose proof (IZR_pos_pos my). pose proof (bpow_pos ey).
  replace (sgn sx * (IZR (Z.pos mx) * bpow ex) / (sgn sy * (IZR (Z.pos my) * bpow ey)))
    with (sgn sx * sgn sy * (IZR (Z.pos mx) * bpow ex / (IZR (Z.pos my) * bpow ey))).
  2:{ destruct sx, sy; unfold sgn; field; lra. }
  rewrite <- sgn_xorb, Rabs_sgn_sub, Rabs_sgn.
  rewrite (Rabs_pos_eq (IZR (Z.pos mz) * bpow ez)); [ exact Hb | ].
  apply Rmult_le_pos; [ left; apply IZR_pos_pos | left; apply bpow_pos ].
Qed.

(** Addition of binary64 values: a finite sum is within the relative
    error [u]; there is no underflow in an addition. *)
Lemma SFadd_model x y :
  valid_binary x = true -> valid_binary y = true ->
  SF_is_finite (SFadd prec emax x y) = true ->
  Rabs (SF2R (SFadd prec emax x y) - (SF2R x + SF2R y))
  <= u * Rabs (SF2R (SFadd prec emax x y)).
Proof.
  assert (Hu : 0 < u) by apply bpow_pos.
  assert (Ex : forall a, Rabs (a - a) <= u * Rabs a).
  { intros a. replace (a - a) with 0 by ring. rewrite Rabs_R0.
    apply Rmult_le_pos; [ lra | apply Rabs_pos ]. }
  intros Vx Vy.
  destruct x as [ sx | sx | | sx mx ex], y as [ sy | sy | | sy my ey];
    try (cbn [SFadd SF_is_finite]; discriminate);
    try (destruct sx, sy; cbn [SFadd SF_is_finite]; discriminate).
  - intros _. destruct sx, sy; cbn [SFadd SF2R];
      replace (0 + 0) with 0 by ring; apply Ex.
  - intros _. cbn [SFadd]. replace (SF2R (S754_zero sx)) with 0 by reflexivity.
    rewrite Rplus_0_l. apply Ex.
  - intros _. cbn [SFadd]. replace (SF2R (S754_zero sy)) with 0 by reflexivity.
    rewrite Rplus_0_r. apply Ex.
  - cbn [SFadd].
    pose proof (valid_binary_emin _ _ _ Vx) as Hex.
    pose proof (valid_binary_emin _ _ _ Vy) as Hey.
    set (E := Z.min ex ey).
    destruct (shl_align_value mx ex E ltac:(unfold E; lia)) as (_ & X2 & _).
    destruct (shl_align_value my ey E ltac:(unfold E; lia)) as (_ & Y2 & _).
    set (Mx := fst (shl_align mx ex E)) in *.
    set (My := fst (shl_align my ey E)) in *.
    assert (Hsum : SF2R (S754_finite sx mx ex) + SF2R (S754_finite sy my ey)
                   = IZR (cond_Zopp sx (Z.pos Mx) + cond_Zopp sy (Z.pos My)) * bpow E).
    { rewrite !SF2R_finite, plus_IZR, !IZR_cond_Zopp, <- X2, <- Y2. ring. }
    rewrite Hsum.
    destruct (cond_Zopp sx (Z.pos Mx) + cond_Zopp sy (Z.pos My))%Z as [ | p | p ];
      cbn [binary_normalize].
    + intros _. cbn [SF2R]. rewrite Rmult_0_l. apply Ex.
    + intros Hf.
      pose proof (binary_round_model prec emax prec_pos false p E ltac:(unfold E; lia) Hf)
        as Hm.
      unfold sgn in Hm. rewrite Rmult_1_l in Hm. exact Hm.
    + intros Hf.
      pose proof (binary_round_model prec emax prec_pos true p E ltac:(unfold E; lia) Hf)
        as Hm.
      unfold sgn in Hm.
      replace (IZR (Z.neg p) * bpow E) with (-1 * (IZR (Z.pos p) * bpow E)).
      2:{ change (Z.neg p) with (- Z.pos p)%Z. rewrite opp_IZR. ring. }
      exact Hm.
Qed.

End OpModels.

Section FloatModels.

Open Scope float_scope.

Lemma add_model (x y : float) :
  is_finite (x + y) = true ->
  (Rabs (to_R (x + y) - (to_R x + to_R y)) <= u * Rabs (to_R (x + y)))%R.
Proof.
  unfold is_finite, to_R. rewrite FloatAxioms.add_spec.
  apply SFadd_model; apply FloatAxioms.Prim2SF_valid.
Qed.

Lemma mul_model (x y : float) :
  is_finite (x * y) = true ->
  (is_zero x || is_zero y || normal (x * y)) = true ->
  (Rabs (to_R (x * y) - to_R x * to_R y) <= u * Rabs (to_R (x * y)))%R.
Proof.
  unfold is_finite, is_zero, normal, to_R. rewrite FloatAxioms.mul_spec.
  apply SFmul_model.
Qed.

Lemma div_model (x y : float) :
  is_finite x = true -> is_finite y = true -> is_zero y = false ->
  (is_zero x || normal (x / y)) = true ->
  (Rabs (to_R (x / y) - to_R x / to_R y) <= u * Rabs (to_R (x / y)))%R.
Proof.
  unfold is_finite, is_zero, normal, to_R. rewrite FloatAxioms.div_spec.
  apply SFdiv_model.
Qed.

(** Finite results come from finite operands. *)
Lemma add_finite (x y : float) :
  is_finite (x + y) = true -> is_finite x = true /\ is_finite y = true.
Proof.
  unfold is_finite. rewrite FloatAxioms.add_spec.
  destruct (Prim2SF x) as [ sx | sx | | sx mx ex], (Prim2SF y) as [ sy | sy | | sy my ey];
    cbn [SFadd SF_is_finite]; auto; try discriminate;
    destruct sx, sy; cbn [SF_is_finite]; auto; discriminate.
Qed.

Lemma mul_finite (x y : float) :
  is_finite (x * y) = true -> is_finite x = true /\ is_finite y = true.
Proof.
  unfold is_finite. rewrite FloatAxioms.mul_spec.
  destruct (Prim2SF x) as [ sx | sx | | sx mx ex], (Prim2SF y) as [ sy | sy | | sy my ey];
    cbn [SFmul SF_is_finite]; auto; discriminate.
Qed.

End FloatModels.

Section ErrorAnalysis.

Lemma Rabs_le_inv a b : Rabs a <= b -> - b <= a <= b.
Proof. unfold Rabs. destruct (Rcase_abs a); lra. Qed.

(** From an error relative to the result to one relative to the exact
    value: [v = u / (1 - u)]. *)
Lemma relative_error (u v x x' : R) :
  0 < u < 1 -> v * (1 - u) = u ->
  Rabs (x' - x) <= u * Rabs x' ->
  Rabs (x' - x) <= v * Rabs x.
Proof.
  intros Hu Hv H.
  assert (Ht : Rabs x' <= Rabs x + Rabs (x' - x)).
  { replace x' with (x + (x' - x)) at 1 by ring. apply Rabs_triang. }
  pose proof (Rabs_pos x) as Px. pose proof (Rabs_pos x') as Px'.
  pose proof (Rabs_pos (x' - x)) as Pe.
  set (e := Rabs (x' - x)) in *. set (a := Rabs x') in *. set (b := Rabs x) in *.
  assert (H1 : e * (1 - u) <= u * b) by nra.
  apply (Rmult_le_reg_r (1 - u)); [ lra | ].
  replace (v * b * (1 - u)) with (v * (1 - u) * b) by ring.
  rewrite Hv. exact H1.
Qed.

(** One turn of a running sum: the sum [x] of the exact value [a], known
    within [c * B], takes a term [t] of exact value [tau], known within
    [v * beta], and is rounded with relative error [v]. *)
Lemma sum_step (v c x a B t tau beta x' : R) :
  0 <= v <= 1 -> v <= c <= 1 ->
  Rabs (x - a) <= c * B -> Rabs a <= B ->
  Rabs (t - tau) <= v * beta -> Rabs tau <= beta ->
  Rabs (x' - (x + t)) <= v * Rabs (x + t) ->
  Rabs (x' - (a + tau)) <= (c + 2 * v) * (B + beta)
  /\ Rabs (a + tau) <= B + beta.
Proof.
  intros Hv Hc Hx Ha Ht Htau Hx'.
  pose proof (Rabs_pos a) as Pa. pose proof (Rabs_pos tau) as Ptau.
  apply Rabs_le_inv in Hx, Ha, Ht, Htau.
  assert (HB : 0 <= B) by lra. assert (Hbeta : 0 <= beta) by lra.
  assert (HcB : 0 <= c * B) by (apply Rmult_le_pos; lra).
  assert (Hvb : 0 <= v * beta) by (apply Rmult_le_pos; lra).
  set (cB := c * B) in *. set (vb := v * beta) in *.
  assert (Hs : Rabs (x + t) <= B + cB + beta + vb) by (apply Rabs_le; lra).
  pose proof (Rabs_pos (x + t)) as Ps.
  set (E := Rabs (x + t)) in *.
  assert (HvE : v * E <= v * (B + cB + beta + vb)) by (apply Rmult_le_compat_l; lra).
  apply Rabs_le_inv in Hx'.
  assert (H1 : v * cB <= v * B).
  { unfold cB. replace (v * (c * B)) with (c * (v * B)) by ring.
    replace (v * B) with (1 * (v * B)) at 2 by ring.
    apply Rmult_le_compat_r; [ apply Rmult_le_pos; lra | lra ]. }
  assert (H2 : v * vb <= c * beta).
  { unfold vb. replace (v * (v * beta)) with (v * v * beta) by ring.
    apply Rmult_le_compat_r; [ lra | ]. nra. }
  split; [ | apply Rabs_le; lra ].
  apply Rabs_le.
  replace ((c + 2 * v) * (B + beta))
    with (cB + 2 * (v * B) + c * beta + 2 * vb) by (unfold cB, vb; ring).
  replace (v * (B + cB + beta + vb))
    with (v * B + v * cB + vb + v * vb) in HvE by (unfold vb; ring).
  assert (0 <= v * B) by (apply Rmult_le_pos; lra).
  lra.
Qed.

(** The quotient of two sums that are known within [c], rounded with a
    relative error [u], against a weighted average [A / W] that lies in
    [lo, hi]. *)
Lemma quotient_bound (u c kappa M W S T A Q lo hi : R) :
  0 < u < 1 -> 0 <= c < 1 -> 0 < W -> 0 <= M ->
  2 * c * (1 - u) + u * (1 + c) <= kappa * ((1 - c) * (1 - u)) ->
  Rabs (S - A) <= c * (M * W) -> Rabs (T - W) <= c * W ->
  lo * W <= A <= hi * W -> - M <= lo -> hi <= M ->
  Rabs (Q - S / T) <= u * Rabs Q ->
  lo - kappa * M <= Q <= hi + kappa * M.
Proof.
  intros Hu Hc HW HM Hk HS HT HA Hlo Hhi HQ.
  apply Rabs_le_inv in HS, HT.
  assert (HTpos : 0 < T) by nra.
  set (R := A / W).
  assert (HR : A = R * W) by (unfold R; field; lra).
  assert (HRlo : lo <= R).
  { apply (Rmult_le_reg_r W); lra. }
  assert (HRhi : R <= hi).
  { apply (Rmult_le_reg_r W); lra. }
  set (X := S / T) in *.
  assert (HX : S = X * T) by (unfold X; field; lra).
  (* the quotient of the sums against the average *)
  assert (H1 : Rabs (X - R) * ((1 - c) * W) <= 2 * c * (M * W)).
  { assert (E : (X - R) * T = (S - A) + R * (W - T)) by (rewrite HX, HR; ring).
    assert (HRM : Rabs (R * (W - T)) <= M * (c * W)).
    { rewrite Rabs_mult. apply Rmult_le_compat; try apply Rabs_pos.
      - apply Rabs_le; lra.
      - apply Rabs_le; lra. }
    assert (H0 : Rabs ((X - R) * T) <= c * (M * W) + M * (c * W)).
    { rewrite E. eapply Rle_trans; [ apply Rabs_triang | ].
      apply Rplus_le_compat; [ apply Rabs_le; lra | exact HRM ]. }
    rewrite Rabs_mult, (Rabs_pos_eq T) in H0 by lra.
    pose proof (Rabs_pos (X - R)) as P.
    assert (Rabs (X - R) * ((1 - c) * W) <= Rabs (X - R) * T).
    { apply Rmult_le_compat_l; [ exact P | lra ]. }
    lra. }
  assert (H1' : Rabs (X - R) * (1 - c) <= 2 * c * M).
  { apply (Rmult_le_reg_r W); [ lra | ].
    replace (Rabs (X - R) * (1 - c) * W) with (Rabs (X - R) * ((1 - c) * W)) by ring.
    replace (2 * c * M * W) with (2 * c * (M * W)) by ring. exact H1. }
  (* the rounded quotient against the quotient *)
  assert (HRM : Rabs R <= M) by (apply Rabs_le; lra).
  assert (H2 : Rabs (Q - X) * (1 - u) <= u * (M + Rabs (X - R))).
  { assert (Rabs Q <= Rabs X + Rabs (Q - X)).
    { replace Q with (X + (Q - X)) at 1 by ring. apply Rabs_triang. }
    assert (Rabs X <= Rabs R + Rabs (X - R)).
    { replace X with (R + (X - R)) at 1 by ring. apply Rabs_triang. }
    pose proof (Rabs_pos (Q - X)). pose proof (Rabs_pos Q).
    set (d2 := Rabs (Q - X)) in *. set (q := Rabs Q) in *.
    assert (u * q <= u * (M + Rabs (X - R) + d2)) by (apply Rmult_le_compat_l; lra).
    lra. }
  pose proof (Rabs_pos (X - R)) as P1. pose proof (Rabs_pos (Q - X)) as P2.
  set (d1 := Rabs (X - R)) in *. set (d2 := Rabs (Q - X)) in *.
  assert (H3 : (d1 + d2) * ((1 - c) * (1 - u)) <= kappa * M * ((1 - c) * (1 - u))).
  { assert (A1 : d1 * (1 - c) * (1 - u) <= 2 * c * M * (1 - u))
      by (apply Rmult_le_compat_r; lra).
    assert (A2 : d2 * (1 - u) * (1 - c) <= u * (M + d1) * (1 - c))
      by (apply Rmult_le_compat_r; lra).
    assert (A3 : u * (d1 * (1 - c)) <= u * (2 * c * M))
      by (apply Rmult_le_compat_l; lra).
    assert (A4 : (2 * c * (1 - u) + u * (1 + c)) * M <= kappa * ((1 - c) * (1 - u)) * M)
      by (apply Rmult_le_compat_r; lra).
    lra. }
  assert (H4 : d1 + d2 <= kappa * M).
  { apply (Rmult_le_reg_r ((1 - c) * (1 - u))); [ | exact H3 ].
    apply Rmult_lt_0_compat; lra. }
  assert (H5 : Rabs (Q - R) <= d1 + d2).
  { replace (Q - R) with ((Q - X) + (X - R)) by ring.
    eapply Rle_trans; [ apply Rabs_triang | ]. unfold d1, d2. lra. }
  apply Rabs_le_inv in H5. lra.
Qed.

End ErrorAnalysis.

End RoundingFacts.

(* ================================================================= *)
(** * Facts about [sort.Slice] *)

Module GoSortFacts.

Import GoSort.

Section Facts.
Context {A : Type}.
Variable lt : A -> A -> bool.

Lemma nth_error_update_eq (data : list A) i x y :
  nth_error data i = Some y -> nth_error (update data i x) i = Some x.
Proof.
  revert i. induction data as [ | z l IH]; intros [ | i]; simpl; intros H;
    try discriminate; auto.
Qed.

Lemma nth_error_update_neq (data : list A) i j x :
  i <> j -> nth_error (update data i x) j = nth_error data j.
Proof.
  revert i j. induction data as [ | z l IH]; intros [ | i] [ | j] H; simpl; auto.
  congruence.
Qed.

(** Overwriting the element [y] at index [i] by [x] trades [y] for [x]. *)
Lemma update_Permutation (data : list A) i x y :
  nth_error data i = Some y -> Permutation (y :: update data i x) (x :: data).
Proof.
  revert i. induction data as [ | z l IH]; intros [ | i]; simpl; intros H;
    try discriminate.
  - injection H as ->. apply perm_swap.
  - rewrite perm_swap. rewrite (perm_swap z x). apply perm_skip. now apply IH.
Qed.

Lemma Swap_Permutation (data : list A) i j : Permutation (Swap data i j) data.
Proof.
  unfold Swap.
  destruct (nth_error data i) as [x | ] eqn:Hi; [ | reflexivity ].
  destruct (nth_error data j) as [y | ] eqn:Hj; [ | reflexivity ].
  assert (Hj' : nth_error (update data i y) j = Some y).
  { destruct (Nat.eq_dec i j) as [-> | Hn].
    - eapply nth_error_update_eq; eauto.
    - now rewrite nth_error_update_neq. }
  apply (Permutation_cons_inv (a := y)).
  rewrite (update_Permutation _ _ x _ Hj').
  apply (update_Permutation _ _ y _ Hi).
Qed.

(** An exchange of two neighbouring indices, as a rewriting of the list. *)
Lemma Swap_adjacent (data : list A) j x y :
  nth_error data j = Some y -> nth_error data (S j) = Some x ->
  exists l1 l2, data = l1 ++ y :: x :: l2 /\ Swap data (S j) j = l1 ++ x :: y :: l2.
Proof.
  revert data. induction j as [ | j IH]; intros [ | z data] Hy Hx; try discriminate.
  - destruct data as [ | z' data]; try discriminate.
    simpl in Hy, Hx. injection Hy as ->. injection Hx as ->.
    exists [], data. split; reflexivity.
  - change (nth_error data j = Some y) in Hy.
    change (nth_error data (S j) = Some x) in Hx.
    destruct (IH data Hy Hx) as (l1 & l2 & E1 & E2).
    exists (z :: l1), l2. split; [ simpl; now f_equal | ].
    unfold Swap in E2 |- *. rewrite Hx, Hy in E2.
    change (nth_error (z :: data) (S (S j))) with (nth_error data (S j)).
    change (nth_error (z :: data) (S j)) with (nth_error data j).
    rewrite Hx, Hy. simpl. now f_equal.
Qed.

Lemma insertionSort_shift_Permutation (data : list A) a j :
  Permutation (insertionSort_shift lt data a j) data.
Proof.
  revert data. induction j as [ | j IH]; intros data; simpl; [ reflexivity | ].
  destruct (_ && _); [ | reflexivity ].
  rewrite IH. apply Swap_Permutation.
Qed.

Lemma fold_left_Permutation (B : Type) (f : list A -> B -> list A) (l : list B) :
  (forall d i, Permutation (f d i) d) ->
  forall data, Permutation (fold_left f l data) data.
Proof.
  intros Hf. induction l as [ | i l IH]; intros data; simpl; [ reflexivity | ].
  rewrite IH. apply Hf.
Qed.

Lemma insertionSort_func_Permutation (data : list A) a b :
  Permutation (insertionSort_func lt data a b) data.
Proof.
  unfold insertionSort_func. apply fold_left_Permutation.
  intros d i. apply insertionSort_shift_Permutation.
Qed.

(** ** Insertion sort is stable *)

Section Stable.
(** [P] picks a class of elements no two of which are ordered by [lt]. *)
Variable P : A -> bool.
Hypothesis P_unordered : forall x y, P x = true -> P y = true -> lt x y = false.

Lemma insertionSort_shift_filter (data : list A) a j :
  filter P (insertionSort_shift lt data a j) = filter P data.
Proof.
  revert data. induction j as [ | j IH]; intros data; simpl; [ reflexivity | ].
  destruct (a <? S j); simpl; [ | reflexivity ].
  unfold Less.
  destruct (nth_error data (S j)) as [x | ] eqn:Hx; [ | reflexivity ].
  destruct (nth_error data j) as [y | ] eqn:Hy; [ | reflexivity ].
  destruct (lt x y) eqn:Hlt; [ | reflexivity ].
  rewrite IH.
  destruct (Swap_adjacent _ _ _ _ Hy Hx) as (l1 & l2 & -> & ->).
  rewrite !filter_app. f_equal. simpl.
  destruct (P x) eqn:Px, (P y) eqn:Py; auto.
  rewrite (P_unordered _ _ Px Py) in Hlt. discriminate.
Qed.

Lemma insertionSort_func_filter (data : list A) a b :
  filter P (insertionSort_func lt data a b) = filter P data.
Proof.
  unfold insertionSort_func. generalize (seq (a + 1) (b - (a + 1))). intros l.
  revert data. induction l as [ | i l IH]; intros data; simpl; [ reflexivity | ].
  rewrite IH. apply insertionSort_shift_filter.
Qed.

End Stable.

(** A step that ends, and leaves a rearrangement of [data]. *)
Definition rearranges (r : option (list A)) (data : list A) : Prop :=
  exists d, r = Some d /\ Permutation d data.

Lemma rearranges_Some d data : Permutation d data -> rearranges (Some d) data.
Proof. intros H. now exists d. Qed.

Lemma rearranges_trans r d data :
  rearranges r d -> Permutation d data -> rearranges r data.
Proof.
  intros (d' & -> & H) H'. exists d'. split; auto. now rewrite H.
Qed.

Lemma siftDown_loop_rearranges fuel : forall data root hi first,
  hi <= root + fuel -> rearranges (siftDown_loop lt (S fuel) data root hi first) data.
Proof.
  induction fuel as [ | fuel IH]; intros data root hi first Hf;
    cbn [siftDown_loop].
  - destruct (Nat.leb_spec hi (2 * root + 1)) as [ | Hc];
      [ now apply rearranges_Some | exfalso; lia ].
  - destruct (Nat.leb_spec hi (2 * root + 1)) as [ | Hc];
      [ now apply rearranges_Some | ].
    set (child := if _ && _ then _ else _).
    assert (Hchild : root < child) by (subst child; destruct (_ && _); lia).
    destruct (negb _); [ now apply rearranges_Some | ].
    eapply rearranges_trans; [ apply IH; lia | apply Swap_Permutation ].
Qed.

Lemma siftDown_func_rearranges data lo hi first :
  rearranges (siftDown_func lt data lo hi first) data.
Proof. apply siftDown_loop_rearranges. lia. Qed.

Lemma for_down_rearranges n (body : list A -> nat -> option (list A)) :
  (forall d i, rearranges (body d i) d) ->
  forall data, rearranges (for_down n body data) data.
Proof.
  intros Hb. induction n as [ | n IH]; intros data; simpl.
  - now apply rearranges_Some.
  - destruct (Hb data n) as (d & -> & Hd).
    eapply rearranges_trans; [ apply IH | exact Hd ].
Qed.

Lemma heapSort_func_rearranges data a b :
  rearranges (heapSort_func lt data a b) data.
Proof.
  unfold heapSort_func.
  destruct (for_down_rearranges (S ((b - a - 1) / 2))
              (fun d i => siftDown_func lt d i (b - a) a)
              (fun d i => siftDown_func_rearranges d i (b - a) a) data)
    as (d & -> & Hd).
  eapply rearranges_trans; [ | exact Hd ].
  apply for_down_rearranges. intros d' i.
  eapply rearranges_trans; [ apply siftDown_func_rearranges | apply Swap_Permutation ].
Qed.

Lemma scan_up_bounds p n : forall i, i <= scan_up p i n <= i + n.
Proof.
  induction n as [ | n IH]; intros i; simpl; [ lia | ].
  destruct (p i); [ | lia ]. specialize (IH (S i)). lia.
Qed.

Lemma scan_down_bounds p n : forall j, j - n <= scan_down p j n <= j.
Proof.
  induction n as [ | n IH]; intros j; simpl; [ lia | ].
  destruct (p j); [ | lia ]. specialize (IH (j - 1)). lia.
Qed.

Lemma partition_loop_spec fuel : forall data a i j,
  a + 2 <= i -> i <= j + 2 -> j + 2 - i < fuel ->
  exists d mid, partition_loop lt fuel data a i j = Some (d, mid)
                /\ Permutation d data /\ a <= mid <= j.
Proof.
  induction fuel as [ | fuel IH]; intros data a i j Ha Hij Hf; [ exfalso; lia | ].
  simpl.
  set (i' := scan_up _ i _).
  set (j' := scan_down _ j _).
  pose proof (scan_up_bounds (fun i0 => Less lt data i0 a) (j + 1 - i) i) as Hi'.
  pose proof (scan_down_bounds (fun j0 => negb (Less lt data j0 a)) (j + 1 - i') j) as Hj'.
  fold i' in Hi'. fold i' j' in Hj'.
  destruct (Nat.ltb_spec j' i') as [Hlt | Hge].
  - exists data, j'. repeat split; auto; lia.
  - destruct (IH (Swap data i' j') a (i' + 1) (j' - 1)) as (d & mid & E & Hp & Hm);
      try lia.
    exists d, mid. repeat split; auto; try lia.
    rewrite Hp. apply Swap_Permutation.
Qed.

Lemma partition_func_spec data a b pivot :
  a < b ->
  exists d mid ap, partition_func lt data a b pivot = Some (d, mid, ap)
                   /\ Permutation d data /\ a <= mid < b.
Proof.
  intros Hab. unfold partition_func.
  set (data0 := Swap data a pivot).
  set (i := scan_up _ (a + 1) _).
  set (j := scan_down _ (b - 1) _).
  pose proof (scan_up_bounds (fun i0 => Less lt data0 i0 a) (b - 1 + 1 - (a + 1)) (a + 1)) as Hi.
  pose proof (scan_down_bounds (fun j0 => negb (Less lt data0 j0 a)) (b - 1 + 1 - i) (b - 1)) as Hj.
  fold i in Hi. fold i j in Hj.
  destruct (Nat.ltb_spec j i) as [Hlt | Hge].
  - exists (Swap data0 j a), j, true. repeat split; try lia.
    subst data0. now rewrite !Swap_Permutation.
  - destruct (partition_loop_spec (S (b - a)) (Swap data0 i j) a (i + 1) (j - 1))
      as (d & mid & E & Hp & Hm); try lia.
    rewrite E. exists (Swap d mid a), mid, false. repeat split; try lia.
    subst data0. now rewrite Swap_Permutation, Hp, !Swap_Permutation.
Qed.

Lemma partitionEqual_loop_spec fuel : forall data a i j,
  j + 2 - i < fuel ->
  exists d mid, partitionEqual_loop lt fuel data a i j = Some (d, mid)
                /\ Permutation d data /\ i <= mid.
Proof.
  induction fuel as [ | fuel IH]; intros data a i j Hf; [ exfalso; lia | ].
  simpl.
  set (i' := scan_up _ i _).
  set (j' := scan_down _ j _).
  pose proof (scan_up_bounds (fun i0 => negb (Less lt data a i0)) (j + 1 - i) i) as Hi'.
  pose proof (scan_down_bounds (fun j0 => Less lt data a j0) (j + 1 - i') j) as Hj'.
  fold i' in Hi'. fold i' j' in Hj'.
  destruct (Nat.ltb_spec j' i') as [Hlt | Hge].
  - exists data, i'. repeat split; auto; lia.
  - destruct (IH (Swap data i' j') a (i' + 1) (j' - 1)) as (d & mid & E & Hp & Hm);
      try lia.
    exists d, mid. repeat split; auto; try lia.
    rewrite Hp. apply Swap_Permutation.
Qed.

Lemma partitionEqual_func_spec data a b pivot :
  a < b ->
  exists d mid, partitionEqual_func lt data a b pivot = Some (d, mid)
                /\ Permutation d data /\ a < mid.
Proof.
  intros Hab. unfold partitionEqual_func.
  destruct (partitionEqual_loop_spec (S (b - a)) (Swap data a pivot) a (a + 1) (b - 1))
    as (d & mid & E & Hp & Hm); try lia.
  exists d, mid. repeat split; auto; try lia.
  rewrite Hp. apply Swap_Permutation.
Qed.

Lemma reverseRange_loop_Permutation n : forall (data : list A) i j,
  Permutation (reverseRange_loop n data i j) data.
Proof.
  induction n as [ | n IH]; intros data i j; simpl; [ reflexivity | ].
  destruct (i <? j); [ | reflexivity ].
  rewrite IH. apply Swap_Permutation.
Qed.

Lemma reverseRange_func_Permutation (data : list A) a b :
  Permutation (reverseRange_func data a b) data.
Proof. apply reverseRange_loop_Permutation. Qed.

Lemma breakPatterns_func_Permutation (data : list A) a b :
  Permutation (breakPatterns_func data a b) data.
Proof.
  unfold breakPatterns_func. destruct (8 <=? b - a); [ | reflexivity ].
  generalize (Z.of_nat (b - a)). generalize [0; 1; 2]. intros l.
  revert data. induction l as [ | i l IH]; intros data r; simpl; [ reflexivity | ].
  rewrite IH. apply Swap_Permutation.
Qed.

Lemma shift_left_Permutation j : forall data, Permutation (shift_left lt data j) data.
Proof.
  induction j as [ | j IH]; intros data; simpl; [ reflexivity | ].
  destruct (negb _); [ reflexivity | ]. rewrite IH. apply Swap_Permutation.
Qed.

Lemma shift_right_Permutation n : forall data j, Permutation (shift_right lt n data j) data.
Proof.
  induction n as [ | n IH]; intros data j; simpl; [ reflexivity | ].
  destruct (negb _); [ reflexivity | ]. rewrite IH. apply Swap_Permutation.
Qed.

Lemma partialInsertionSort_loop_Permutation steps : forall data a b i,
  Permutation (fst (partialInsertionSort_loop lt steps data a b i)) data.
Proof.
  induction steps as [ | steps IH]; intros data a b i;
    cbn [partialInsertionSort_loop]; [ reflexivity | ].
  set (i' := scan_up _ i _).
  destruct (i' =? b); [ reflexivity | ].
  destruct (b - a <? 50); [ reflexivity | ].
  eapply Permutation_trans; [ apply IH | ].
  destruct (2 <=? b - i');
    [ eapply Permutation_trans; [ apply shift_right_Permutation | ] | ];
    (destruct (2 <=? i' - a);
     [ eapply Permutation_trans; [ apply shift_left_Permutation | ] | ];
     apply Swap_Permutation).
Qed.

Lemma partialInsertionSort_func_Permutation data a b :
  Permutation (fst (partialInsertionSort_func lt data a b)) data.
Proof. apply partialInsertionSort_loop_Permutation. Qed.

Lemma pdqsort_loop_rearranges fuel : forall data a b limit wasBalanced wasPartitioned,
  b - a < fuel ->
  rearranges (pdqsort_loop lt fuel data a b limit wasBalanced wasPartitioned) data.
Proof.
  induction fuel as [ | fuel IH]; intros data a b limit wb wp Hf; [ exfalso; lia | ].
  cbn [pdqsort_loop].
  destruct (Nat.leb_spec (b - a) maxInsertion) as [ | Hlen].
  { apply rearranges_Some, insertionSort_func_Permutation. }
  unfold maxInsertion in Hlen.
  destruct (limit =? 0); [ apply heapSort_func_rearranges | ].
  set (st1 := if negb wb then _ else _).
  assert (H1 : Permutation (fst st1) data).
  { subst st1. destruct (negb wb); simpl;
      [ apply breakPatterns_func_Permutation | reflexivity ]. }
  destruct st1 as [data1 limit1]. simpl in H1.
  destruct (choosePivot_func lt data1 a b) as [pivot hint].
  set (st2 := if sortedHint_eqb hint decreasingHint then _ else _).
  assert (H2 : Permutation (fst (fst st2)) data).
  { subst st2. destruct (sortedHint_eqb hint decreasingHint); simpl; auto.
    now rewrite reverseRange_func_Permutation. }
  destruct st2 as [[data2 pivot2] hint2]. simpl in H2.
  set (st3 := if _ && _ && _ then _ else _).
  assert (H3 : Permutation (fst st3) data).
  { subst st3. destruct (_ && _ && _); simpl; auto.
    now rewrite partialInsertionSort_func_Permutation. }
  destruct st3 as [data3 sorted]. simpl in H3.
  destruct sorted; [ now apply rearranges_Some | ].
  destruct (_ && _).
  - destruct (partitionEqual_func_spec data3 a b pivot2) as (d & mid & -> & Hp & Hm);
      [ lia | ].
    eapply rearranges_trans; [ apply IH; lia | now rewrite Hp ].
  - destruct (partition_func_spec data3 a b pivot2) as (d & mid & ap & -> & Hp & Hm);
      [ lia | ].
    destruct (mid - a <? b - mid).
    + destruct (IH d a mid limit1 true true ltac:(lia)) as (d' & -> & Hd').
      eapply rearranges_trans; [ apply IH; lia | now rewrite Hd', Hp ].
    + destruct (IH d (mid + 1) b limit1 true true ltac:(lia)) as (d' & -> & Hd').
      eapply rearranges_trans; [ apply IH; lia | now rewrite Hd', Hp ].
Qed.

Theorem Slice_rearranges (data : list A) : rearranges (Slice lt data) data.
Proof.
  unfold Slice, pdqsort_func. apply pdqsort_loop_rearranges. lia.
Qed.

Lemma Slice_small (data : list A) :
  length data <= maxInsertion ->
  Slice lt data = Some (insertionSort_func lt data 0 (length data)).
Proof.
  intros H. unfold Slice, pdqsort_func. cbn [pdqsort_loop].
  rewrite Nat.sub_0_r. apply Nat.leb_le in H. now rewrite H.
Qed.

End Facts.

End GoSortFacts.

(* ================================================================= *)
(** * The distance function *)

Section Distance.

Import Float64 SFFacts GoIntFacts Float64Facts.
Open Scope float_scope.

(** C3.  For every pair of input triples whose days differ by a value of
    [int] (all triples of the data model, whose days are non-negative),
    [calculateDistance] returns
    [sqrt(((d1-d2)/20.0)^2 + ((m1-m2)/2000.0)^2 + ((r1-r2)/3000.0)^2)],
    the operations being those of binary64. *)
Theorem calculateDistance_formula (d1 : Z) (m1 r1 : float) (d2 : Z) (m2 r2 : float) :
  GoInt.in_range (d1 - d2) ->
  calculateDistance d1 m1 r1 d2 m2 r2 = scaledEuclidean d1 m1 r1 d2 m2 r2.
Proof.
  intros Hr. unfold calculateDistance, scaledEuclidean, GoInt.sub.
  rewrite wrap_id by assumption. now rewrite of_int_round_Z.
Qed.

Lemma calculateDistance_formula_witness :
  calculateDistance 3 100 50 7 120.5 80 = scaledEuclidean 3 100 50 7 120.5 80.
Proof.
  apply (calculateDistance_formula 3 100 50 7 120.5 80).
  unfold GoInt.in_range, GoInt.minInt, GoInt.maxInt. lia.
Defined.

(** Days as the data model has them (non-negative) never overflow. *)
Lemma nonneg_days_in_range d1 d2 :
  (0 <= d1 <= GoInt.maxInt)%Z -> (0 <= d2 <= GoInt.maxInt)%Z -> GoInt.in_range (d1 - d2).
Proof. unfold GoInt.in_range, GoInt.minInt, GoInt.maxInt. lia. Qed.

(** Outside that range the subtraction wraps, and the formula fails. *)
Lemma calculateDistance_wraps :
  (calculateDistance GoInt.maxInt 0 0 GoInt.minInt 0 0 <? 1) = true
  /\ (1 <? scaledEuclidean GoInt.maxInt 0 0 GoInt.minInt 0 0) = true.
Proof. split; vm_compute; reflexivity. Qed.

(** C8.  [calculateDistance] is symmetric: for all input triples [a] and
    [b], the distance from [a] to [b] is the same binary64 value as the
    distance from [b] to [a]. *)
Theorem calculateDistance_symmetric (d1 : Z) (m1 r1 : float) (d2 : Z) (m2 r2 : float) :
  calculateDistance d1 m1 r1 d2 m2 r2 = calculateDistance d2 m2 r2 d1 m1 r1.
Proof.
  unfold calculateDistance.
  rewrite (scaled_int_sub_sq_swap d1 d2).
  rewrite (scaled_sub_sq_swap m1 m2), (scaled_sub_sq_swap r1 r2).
  reflexivity.
Qed.

Lemma calculateDistance_is_nonneg d1 m1 r1 d2 m2 r2 :
  is_finite m1 = true -> is_finite r1 = true ->
  is_finite m2 = true -> is_finite r2 = true ->
  nonneg (calculateDistance d1 m1 r1 d2 m2 r2) = true.
Proof.
  intros Hm1 Hr1 Hm2 Hr2. unfold calculateDistance.
  apply Sqrt_nonneg. repeat apply float_add_nonneg; apply mul_self_nonneg.
  - eapply div_not_nan; [ vm_compute; reflexivity | apply of_int_not_nan ].
  - eapply div_not_nan; [ vm_compute; reflexivity | now apply sub_finite_not_nan ].
  - eapply div_not_nan; [ vm_compute; reflexivity | now apply sub_finite_not_nan ].
Qed.

Lemma calculateDistance_diag d m r :
  is_finite m = true -> is_finite r = true ->
  calculateDistance d m r d m r = 0.
Proof.
  intros Hm Hr. unfold calculateDistance.
  rewrite !float_sub_diag by assumption.
  unfold GoInt.sub. rewrite Z.sub_diag. reflexivity.
Qed.

(** Go's [==] on the two distances is [true] whenever the coordinates are
    finite (a NaN is not [==] to itself). *)
Lemma calculateDistance_eqb_swap d1 m1 r1 d2 m2 r2 :
  is_finite m1 = true -> is_finite r1 = true ->
  is_finite m2 = true -> is_finite r2 = true ->
  (calculateDistance d1 m1 r1 d2 m2 r2 =? calculateDistance d2 m2 r2 d1 m1 r1) = true.
Proof.
  intros Hm1 Hr1 Hm2 Hr2.
  assert (E : calculateDistance d2 m2 r2 d1 m1 r1 = calculateDistance d1 m1 r1 d2 m2 r2).
  { unfold calculateDistance.
    rewrite (scaled_int_sub_sq_swap d2 d1).
    now rewrite (scaled_sub_sq_swap m2 m1), (scaled_sub_sq_swap r2 r1). }
  rewrite E.
  apply float_eqb_refl, nonneg_is_nan. now apply calculateDistance_is_nonneg.
Qed.

(** C9.  For all input triples [a] and [b] of finite coordinates,
    [distance(a, b) >= 0], and [distance(a, a) == 0]. *)
Theorem calculateDistance_nonneg_and_zero_on_diagonal
  (d1 : Z) (m1 r1 : float) (d2 : Z) (m2 r2 : float) :
  is_finite m1 = true -> is_finite r1 = true ->
  is_finite m2 = true -> is_finite r2 = true ->
  (0 <=? calculateDistance d1 m1 r1 d2 m2 r2) = true
  /\ (calculateDistance d1 m1 r1 d1 m1 r1 =? 0) = true.
Proof.
  intros Hm1 Hr1 Hm2 Hr2. split.
  - now apply nonneg_leb, calculateDistance_is_nonneg.
  - now rewrite calculateDistance_diag.
Qed.

Lemma calculateDistance_nonneg_and_zero_on_diagonal_witness :
  (0 <=? calculateDistance 3 100 50 7 120.5 80) = true
  /\ (calculateDistance 3 100 50 3 100 50 =? 0) = true.
Proof.
  apply (calculateDistance_nonneg_and_zero_on_diagonal 3 100 50 7 120.5 80);
    vm_compute; reflexivity.
Defined.

(** A NaN coordinate is outside the theorem: the distance is NaN. *)
Lemma calculateDistance_nan : (0 <=? calculateDistance 3 nan 50 3 100 50) = false.
Proof. vm_compute. reflexivity. Qed.

End Distance.

(* ================================================================= *)
(** * The predictor *)

Section Predictor.

Import Float64 SFFacts GoIntFacts Float64Facts GoSortFacts.
Open Scope float_scope.

(** Two scenarios of the specification (section 8): a single record
    queried with its own triple, and two records at distance 1 each. *)
Example scenario_exact_match :
  predictWeightedKNN 3 100 50 [mkCase 3 100 50 120] 5 = Returns 120.
Proof. vm_compute. reflexivity. Qed.

Example scenario_equidistant :
  neighborsOf 30 100 50 [mkCase 50 100 50 100; mkCase 10 100 50 200]
  = [ {| Distance := 1; Output := 100 |}; {| Distance := 1; Output := 200 |} ]
  /\ predictWeightedKNN 30 100 50 [mkCase 50 100 50 100; mkCase 10 100 50 200] 5
     = Returns 150.
Proof. split; vm_compute; reflexivity. Qed.

Lemma clamp_le k n : (clamp k n <= n)%nat.
Proof.
  unfold clamp. destruct (Z.ltb_spec (Z.of_nat n) k); lia.
Qed.

Lemma clamp_small k n : (Z.of_nat n <= k)%Z -> clamp k n = n.
Proof.
  unfold clamp. intros H. destruct (Z.ltb_spec (Z.of_nat n) k); lia.
Qed.

Lemma aggregate_accumulate n : forall neighbors i ws tw,
  (i + n <= length neighbors)%nat ->
  aggregate n neighbors i ws tw
  = Returns (accumulate (firstn n (skipn i neighbors)) ws tw).
Proof.
  induction n as [ | n IH]; intros neighbors i ws tw Hn; simpl.
  - reflexivity.
  - destruct (nth_error neighbors i) as [nb | ] eqn:E.
    + rewrite IH by lia.
      assert (Hs : skipn i neighbors = nb :: skipn (S i) neighbors).
      { clear - E. revert i E. induction neighbors as [ | x l IHl]; intros [ | i] E;
          simpl in *; try discriminate.
        - now injection E as ->.
        - now apply IHl. }
      rewrite Hs. reflexivity.
    + apply nth_error_None in E. exfalso. lia.
Qed.

Lemma predictWeightedKNN_ranked tripDays miles receipts training k :
  find (isExactMatch tripDays miles receipts) training = None ->
  exists sorted,
    GoSort.Slice lessDistance (neighborsOf tripDays miles receipts training) = Some sorted
    /\ Permutation sorted (neighborsOf tripDays miles receipts training)
    /\ predictWeightedKNN tripDays miles receipts training k
       = finish (accumulate (firstn (clamp k (length sorted)) sorted) 0 0) sorted.
Proof.
  intros Hfind. unfold predictWeightedKNN. rewrite Hfind.
  destruct (Slice_rearranges lessDistance (neighborsOf tripDays miles receipts training))
    as (sorted & E & Hp).
  exists sorted. unfold neighborsOf in *. rewrite E. repeat split; auto.
  fold (clamp k (length sorted)).
  rewrite aggregate_accumulate by (pose proof (clamp_le k (length sorted)); simpl; lia).
  simpl skipn.
  destruct (accumulate _ 0 0) as [ws tw] eqn:Ea.
  unfold finish. simpl fst. simpl snd.
  destruct (tw =? 0); [ | reflexivity ].
  destruct sorted; reflexivity.
Qed.

(** Two binary64 values with different images under [Prim2SF] differ. *)
Ltac float_neq :=
  let H := fresh in
  intros H; apply (f_equal Prim2SF) in H; vm_compute in H; discriminate.

Ltac returns_neq :=
  let H := fresh in
  intros H; apply (f_equal returned) in H; vm_compute in H; discriminate.

Lemma find_first_match (f : TestCase -> bool) pre c post :
  Forall (fun c' => f c' = false) pre -> f c = true ->
  find f (pre ++ c :: post) = Some c.
Proof.
  induction 1 as [ | c' pre Hc' _ IH]; intros Hc; simpl.
  - now rewrite Hc.
  - rewrite Hc'. now apply IH.
Qed.

Lemma find_some_match (f : TestCase -> bool) c l :
  In c l -> f c = true -> exists c', find f l = Some c'.
Proof.
  induction l as [ | x l IH]; simpl; intros Hin Hc; [ contradiction | ].
  destruct (f x) eqn:Hx; [ now exists x | ].
  destruct Hin as [-> | Hin]; [ congruence | auto ].
Qed.

Lemma predictWeightedKNN_match tripDays miles receipts training k c :
  find (isExactMatch tripDays miles receipts) training = Some c ->
  predictWeightedKNN tripDays miles receipts training k = Returns (ExpectedOutput c).
Proof. intros H. unfold predictWeightedKNN. now rewrite H. Qed.

Lemma abs_sub_diag_lt_tolerance x :
  is_finite x = true -> (Abs (x - x) <? tolerance) = true.
Proof. intros H. rewrite float_sub_diag by assumption. reflexivity. Qed.

Lemma isExactMatch_self R :
  is_finite (MilesTraveled (Input R)) = true ->
  is_finite (TotalReceiptsAmount (Input R)) = true ->
  isExactMatch (TripDurationDays (Input R)) (MilesTraveled (Input R))
    (TotalReceiptsAmount (Input R)) R = true.
Proof.
  intros Hm Hr. unfold isExactMatch.
  now rewrite Z.eqb_refl, !abs_sub_diag_lt_tolerance.
Qed.

(** C1, as amended.  For every TrainingSet and every record [R] in it whose
    miles and receipts are finite, the query with exactly [R]'s input
    triple returns the expected output of the first record of the
    TrainingSet that matches the triple within the tolerance; that record
    is [R] itself when no record before [R] matches. *)
Theorem exact_query_returns_first_match (pre post : TrainingData) (R : TestCase) (k : Z) :
  is_finite (MilesTraveled (Input R)) = true ->
  is_finite (TotalReceiptsAmount (Input R)) = true ->
  let tripDays := TripDurationDays (Input R) in
  let miles := MilesTraveled (Input R) in
  let receipts := TotalReceiptsAmount (Input R) in
  exists c,
    find (isExactMatch tripDays miles receipts) (pre ++ R :: post) = Some c
    /\ predictWeightedKNN tripDays miles receipts (pre ++ R :: post) k
       = Returns (ExpectedOutput c)
    /\ (Forall (fun c' => isExactMatch tripDays miles receipts c' = false) pre -> c = R).
Proof.
  intros Hm Hr tripDays miles receipts.
  pose proof (isExactMatch_self R Hm Hr) as Hself.
  destruct (find_some_match (isExactMatch tripDays miles receipts) R (pre ++ R :: post))
    as [c Hc]; [ apply in_elt | exact Hself | ].
  exists c. split; [ exact Hc | split ].
  - now apply predictWeightedKNN_match.
  - intros Hpre. rewrite (find_first_match _ pre R post Hpre Hself) in Hc. congruence.
Qed.

Lemma exact_query_returns_first_match_witness :
  exists c,
    find (isExactMatch 3 100 50) ([mkCase 4 80 20 95] ++ mkCase 3 100 50 120 :: []) = Some c
    /\ predictWeightedKNN 3 100 50 ([mkCase 4 80 20 95] ++ mkCase 3 100 50 120 :: []) 5
       = Returns (ExpectedOutput c)
    /\ (Forall (fun c' => isExactMatch 3 100 50 c' = false) [mkCase 4 80 20 95]
        -> c = mkCase 3 100 50 120).
Proof.
  apply (exact_query_returns_first_match [mkCase 4 80 20 95] [] (mkCase 3 100 50 120) 5);
    vm_compute; reflexivity.
Defined.

(** C1 fails as stated: a record before [R] that lies within the tolerance
    of [R]'s triple answers in its place. *)
Lemma exact_match_shadowed_by_earlier_record :
  let R := mkCase 3 100.00048828125 50 2 in
  let training := [mkCase 3 100 50 1; R] in
  In R training
  /\ predictWeightedKNN (TripDurationDays (Input R)) (MilesTraveled (Input R))
       (TotalReceiptsAmount (Input R)) training 5 = Returns 1
  /\ predictWeightedKNN (TripDurationDays (Input R)) (MilesTraveled (Input R))
       (TotalReceiptsAmount (Input R)) training 5 <> Returns (ExpectedOutput R).
Proof.
  cbv zeta. split; [ right; left; reflexivity | split ].
  - vm_compute. reflexivity.
  - replace (predictWeightedKNN _ _ _ _ _) with (@Returns float 1)
      by (vm_compute; reflexivity).
    returns_neq.
Qed.

(** C2, as amended.  For every query whose days equal those of a record
    [c] and whose miles and receipts differ from those of [c] by strictly
    less than 0.001 ([math.Abs(x - y) < 0.001] in binary64), [c] being the
    first such record of the TrainingSet, [predictWeightedKNN] returns the
    expected output of [c]. *)
Theorem tolerance_match_returns_first (pre post : TrainingData) (c : TestCase)
  (tripDays : Z) (miles receipts : float) (k : Z) :
  Forall (fun c' => isExactMatch tripDays miles receipts c' = false) pre ->
  TripDurationDays (Input c) = tripDays ->
  (Abs (MilesTraveled (Input c) - miles) <? tolerance) = true ->
  (Abs (TotalReceiptsAmount (Input c) - receipts) <? tolerance) = true ->
  predictWeightedKNN tripDays miles receipts (pre ++ c :: post) k
  = Returns (ExpectedOutput c).
Proof.
  intros Hpre Hd Hm Hr. apply predictWeightedKNN_match.
  apply find_first_match; [ exact Hpre | ].
  unfold isExactMatch. rewrite Hd, Z.eqb_refl, Hm, Hr. reflexivity.
Qed.

Lemma tolerance_match_returns_first_witness :
  predictWeightedKNN 3 100.00048828125 50.000244140625
    ([mkCase 4 100 50 95] ++ mkCase 3 100 50 120 :: [mkCase 3 100 50 77]) 5
  = Returns (ExpectedOutput (mkCase 3 100 50 120)).
Proof.
  apply (tolerance_match_returns_first [mkCase 4 100 50 95] [mkCase 3 100 50 77]
           (mkCase 3 100 50 120) 3 100.00048828125 50.000244140625 5).
  - repeat constructor.
  - reflexivity.
  - vm_compute. reflexivity.
  - vm_compute. reflexivity.
Defined.

(** C2 fails as stated: at a difference of exactly 0.001 the record is not
    matched, and the result is the weighted blend. *)
Lemma tolerance_boundary_is_not_a_match :
  let c := mkCase 3 0 50 10 in
  let training := [c; mkCase 4 0 50 20] in
  TripDurationDays (Input c) = 3%Z
  /\ (Abs (MilesTraveled (Input c) - tolerance) <=? tolerance) = true
  /\ (Abs (TotalReceiptsAmount (Input c) - 50) <=? tolerance) = true
  /\ exists v, predictWeightedKNN 3 tolerance 50 training 5 = Returns v
               /\ (ExpectedOutput c <? v) = true
               /\ v <> ExpectedOutput c.
Proof.
  cbv zeta. repeat split; try (vm_compute; reflexivity).
  eexists. split; [ vm_compute; reflexivity | split ].
  - vm_compute. reflexivity.
  - float_neq.
Qed.

(** The same at a difference below 0.001 that the subtraction rounds up to
    the tolerance: the record's miles are [2^-65], the query's are the
    binary64 value of [0.001], which exceeds 0.001 by less than [2^-65]. *)
Lemma tolerance_boundary_after_rounding :
  let c := mkCase 3 0x1p-65 50 10 in
  let training := [c; mkCase 4 0 50 20] in
  (Abs (MilesTraveled (Input c) - tolerance) <? tolerance) = false
  /\ exists v, predictWeightedKNN 3 tolerance 50 training 5 = Returns v
               /\ (ExpectedOutput c <? v) = true.
Proof.
  cbv zeta. split; [ vm_compute; reflexivity | ].
  eexists. split; vm_compute; reflexivity.
Qed.

Lemma finish_returns sums nb l : exists v, finish sums (nb :: l) = Returns v.
Proof. unfold finish. destruct (snd sums =? 0); eauto. Qed.

Lemma find_nil_or_cons (f : TestCase -> bool) l c : find f l = Some c -> l <> [].
Proof. destruct l; simpl; congruence. Qed.

Lemma neighborsOf_length tripDays miles receipts training :
  length (neighborsOf tripDays miles receipts training) = length training.
Proof. apply length_map. Qed.

(** C10.  [predictWeightedKNN] stops on the out-of-range access
    [neighbors[0]] exactly when the TrainingSet is empty; on every
    non-empty TrainingSet it returns a value.  (The sort never runs out of
    fuel.) *)
Theorem predictWeightedKNN_panics_iff_empty
  (tripDays : Z) (miles receipts : float) (training : TrainingData) (k : Z) :
  (predictWeightedKNN tripDays miles receipts training k = PanicIndexOutOfRange
   <-> training = [])
  /\ predictWeightedKNN tripDays miles receipts training k <> OutOfFuel.
Proof.
  destruct (find (isExactMatch tripDays miles receipts) training) as [c | ] eqn:Hfind.
  - rewrite (predictWeightedKNN_match _ _ _ _ k _ Hfind).
    apply find_nil_or_cons in Hfind.
    repeat split; try discriminate. intros ->. contradiction.
  - destruct (predictWeightedKNN_ranked tripDays miles receipts training k Hfind)
      as (sorted & _ & Hp & ->).
    apply Permutation_length in Hp. rewrite neighborsOf_length in Hp.
    destruct sorted as [ | nb sorted].
    + destruct training; [ | discriminate ].
      rewrite firstn_nil.
      change (finish (accumulate [] 0 0) []) with (@PanicIndexOutOfRange float).
      repeat split; auto; discriminate.
    + destruct (finish_returns (accumulate (firstn (clamp k (length (nb :: sorted)))
                                             (nb :: sorted)) 0 0) nb sorted) as [v ->].
      repeat split; try discriminate. intros ->. discriminate.
Qed.

(** C6.  For every non-empty TrainingSet of fewer than 5 records and every
    query without exact match, the aggregation runs over the whole ranked
    list, a rearrangement of the neighbours of all records, and the call
    returns a value: no access is out of range. *)
Theorem small_training_uses_every_record
  (tripDays : Z) (miles receipts : float) (training : TrainingData) :
  training <> [] -> (length training < 5)%nat ->
  find (isExactMatch tripDays miles receipts) training = None ->
  exists sorted,
    GoSort.Slice lessDistance (neighborsOf tripDays miles receipts training) = Some sorted
    /\ Permutation sorted (neighborsOf tripDays miles receipts training)
    /\ predictWeightedKNN tripDays miles receipts training 5
       = finish (accumulate sorted 0 0) sorted
    /\ exists v, predictWeightedKNN tripDays miles receipts training 5 = Returns v.
Proof.
  intros Hne Hlen Hfind.
  destruct (predictWeightedKNN_ranked tripDays miles receipts training 5 Hfind)
    as (sorted & Hs & Hp & E).
  exists sorted.
  pose proof (Permutation_length Hp) as Hl. rewrite neighborsOf_length in Hl.
  rewrite clamp_small, firstn_all in E by lia.
  repeat split; auto.
  rewrite E. destruct sorted as [ | nb sorted].
  - destruct training; [ contradiction | discriminate ].
  - apply finish_returns.
Qed.

Lemma small_training_uses_every_record_witness :
  exists sorted,
    GoSort.Slice lessDistance
      (neighborsOf 3 100 50 [mkCase 5 100 50 200; mkCase 4 100 50 100]) = Some sorted
    /\ Permutation sorted (neighborsOf 3 100 50 [mkCase 5 100 50 200; mkCase 4 100 50 100])
    /\ predictWeightedKNN 3 100 50 [mkCase 5 100 50 200; mkCase 4 100 50 100] 5
       = finish (accumulate sorted 0 0) sorted
    /\ exists v,
         predictWeightedKNN 3 100 50 [mkCase 5 100 50 200; mkCase 4 100 50 100] 5
         = Returns v.
Proof.
  apply (small_training_uses_every_record 3 100 50
           [mkCase 5 100 50 200; mkCase 4 100 50 100]).
  - discriminate.
  - simpl. lia.
  - vm_compute. reflexivity.
Defined.

Lemma accumulate_sums sel : forall ws tw,
  accumulate sel ws tw
  = (fold_left (fun s nb => s + 1 / (Distance nb + epsilon) * Output nb) sel ws,
     fold_left (fun s nb => s + 1 / (Distance nb + epsilon)) sel tw).
Proof.
  unfold accumulate.
  induction sel as [ | nb sel IH]; intros ws tw; simpl; [ reflexivity | ].
  apply IH.
Qed.

(** The fallback is taken when every selected distance has overflowed. *)
Lemma aggregation_fallback_example :
  predictWeightedKNN 3 0x1p1023 50 [mkCase 3 0 50 120.5; mkCase 4 0 50 7] 5
  = Returns 120.5.
Proof. vm_compute. reflexivity. Qed.

Lemma firstn_length_app (A : Type) (l1 l2 : list A) : firstn (length l1) (l1 ++ l2) = l1.
Proof. induction l1 as [ | x l1 IH]; simpl; [ reflexivity | now rewrite IH ]. Qed.

(** Of a list and a rearrangement that keeps the order within a class, the
    members of the class among the first [k] are the first of the class. *)
Lemma filter_firstn_prefix (p : Neighbor -> bool) (sorted neighbors : list Neighbor) k :
  filter p sorted = filter p neighbors ->
  filter p (firstn k sorted)
  = firstn (length (filter p (firstn k sorted))) (filter p neighbors).
Proof.
  intros H. rewrite <- H. rewrite <- (firstn_skipn k sorted) at 3.
  rewrite filter_app. symmetry. apply firstn_length_app.
Qed.

(** C5, as amended.  On a TrainingSet of at most 12 records, which
    [sort.Slice] ranks by insertion sort, the neighbours at any one
    distance keep the order of their records in the TrainingSet; hence
    those of them among the first [k] ranked are the earliest ones. *)
Theorem ranking_stable_up_to_12_records
  (tripDays : Z) (miles receipts : float) (training : TrainingData) :
  (length training <= 12)%nat ->
  exists sorted,
    GoSort.Slice lessDistance (neighborsOf tripDays miles receipts training) = Some sorted
    /\ (forall d : float,
          filter (fun nb => Distance nb =? d) sorted
          = filter (fun nb => Distance nb =? d)
              (neighborsOf tripDays miles receipts training))
    /\ (forall (d : float) (k : nat),
          exists n,
            filter (fun nb => Distance nb =? d) (firstn k sorted)
            = firstn n (filter (fun nb => Distance nb =? d)
                          (neighborsOf tripDays miles receipts training))).
Proof.
  intros Hlen.
  set (neighbors := neighborsOf tripDays miles receipts training).
  assert (Hstable : forall d : float,
             filter (fun nb => Distance nb =? d)
               (GoSort.insertionSort_func lessDistance neighbors 0 (length neighbors))
             = filter (fun nb => Distance nb =? d) neighbors).
  { intros d. apply insertionSort_func_filter.
    intros x y Hx Hy. unfold lessDistance. now apply (eqb_not_ltb _ _ d). }
  exists (GoSort.insertionSort_func lessDistance neighbors 0 (length neighbors)).
  split; [ | split ].
  - apply Slice_small. subst neighbors. now rewrite neighborsOf_length.
  - exact Hstable.
  - intros d k. eexists. apply filter_firstn_prefix, Hstable.
Qed.

Lemma ranking_stable_up_to_12_records_witness :
  exists sorted,
    GoSort.Slice lessDistance
      (neighborsOf 3 100 50 [mkCase 5 100 50 1; mkCase 4 100 50 2; mkCase 1 100 50 3])
    = Some sorted
    /\ (forall d : float,
          filter (fun nb => Distance nb =? d) sorted
          = filter (fun nb => Distance nb =? d)
              (neighborsOf 3 100 50
                 [mkCase 5 100 50 1; mkCase 4 100 50 2; mkCase 1 100 50 3]))
    /\ (forall (d : float) (k : nat),
          exists n,
            filter (fun nb => Distance nb =? d) (firstn k sorted)
            = firstn n (filter (fun nb => Distance nb =? d)
                          (neighborsOf 3 100 50
                             [mkCase 5 100 50 1; mkCase 4 100 50 2; mkCase 1 100 50 3]))).
Proof.
  apply (ranking_stable_up_to_12_records 3 100 50
           [mkCase 5 100 50 1; mkCase 4 100 50 2; mkCase 1 100 50 3]).
  simpl. lia.
Defined.

(** C5 fails as stated: on thirteen records [sort.Slice] partitions, and
    of two records at the same distance the later one is ranked first and
    is the one among the 5 selected. *)
Lemma ranking_not_stable_13_records :
  let earlier := neighborOf 10 100 50 (mkCase 12 100 50 1000) in
  let later := neighborOf 10 100 50 (mkCase 12 100 50 2000) in
  find (isExactMatch 10 100 50) thirteen_records = None
  /\ Distance earlier = Distance later
  /\ filter (fun nb => Distance nb =? Distance earlier) (neighborsOf 10 100 50 thirteen_records)
     = [earlier; later]
  /\ exists sorted,
       GoSort.Slice lessDistance (neighborsOf 10 100 50 thirteen_records) = Some sorted
       /\ filter (fun nb => Distance nb =? Distance earlier) sorted = [later; earlier]
       /\ In later (firstn 5 sorted)
       /\ ~ In earlier (firstn 5 sorted).
Proof.
  cbv zeta. repeat split; try (vm_compute; reflexivity).
  eexists. split; [ vm_compute; reflexivity | ].
  repeat split; try (vm_compute; reflexivity).
  - simpl. do 4 right. left. vm_compute. reflexivity.
  - simpl. intros [H | [H | [H | [H | [H | []]]]]];
      apply (f_equal (fun nb => Prim2SF (Output nb))) in H;
      vm_compute in H; discriminate.
Qed.

Open Scope R_scope.

Lemma outputs_within_MinMax (sel : list Neighbor) nb :
  In nb sel -> MinRlist (outputsR sel) <= to_R (Output nb) <= MaxRlist (outputsR sel).
Proof.
  intros H.
  assert (Hin : In (to_R (Output nb)) (outputsR sel)).
  { unfold outputsR. apply (in_map (fun nb => to_R (Output nb))). exact H. }
  split; [ now apply MinRlist_P1 | now apply MaxRlist_P1 ].
Qed.

Close Scope R_scope.
Open Scope float_scope.

Lemma In_firstn (A : Type) (x : A) n l : In x (firstn n l) -> In x l.
Proof.
  intros H. rewrite <- (firstn_skipn n l). apply in_or_app. now left.
Qed.

(** C4 fails as stated: with one record, one day away from the query, the
    value returned is below the only selected output, by rounding. *)
Lemma rounded_average_below_selected_outputs :
  let training := [mkCase 4 100 50 120.5] in
  find (isExactMatch 3 100 50) training = None
  /\ GoSort.Slice lessDistance (neighborsOf 3 100 50 training)
     = Some [neighborOf 3 100 50 (mkCase 4 100 50 120.5)]
  /\ exists v, predictWeightedKNN 3 100 50 training 5 = Returns v
               /\ (v <? Output (neighborOf 3 100 50 (mkCase 4 100 50 120.5))) = true.
Proof.
  cbv zeta. split; [ vm_compute; reflexivity | split; [ vm_compute; reflexivity | ] ].
  eexists. split; vm_compute; reflexivity.
Qed.

End Predictor.

(* ================================================================= *)
(** * The prediction and the outputs of the selected neighbours *)

Section Boundedness.

Import Float64 SFFacts Float64Facts Rounding RoundingFacts.
Open Scope R_scope.

Section Weights.

Lemma SFsqrt_number_nonneg a :
  SF_is_nan (SFsqrt prec emax a) = false -> SF_nonneg (SFsqrt prec emax a) = true.
Proof.
  destruct a as [ s | [ | ] | | [ | ] m e]; simpl; try discriminate; auto.
  intros _. apply (SFsqrt_nonneg _ _ (S754_finite false m e)). reflexivity.
Qed.

Lemma SFadd_positive_sign d m e :
  SF_nonneg d = true ->
  SF_has_sign false (SFadd prec emax d (S754_finite false m e)) = true.
Proof.
  destruct d as [ sd | [ | ] | | [ | ] md ed]; simpl; try discriminate; intros _; auto.
  apply binary_round_sign.
Qed.

Lemma SFdiv_positive_sign m e s :
  SF_has_sign false s = true ->
  SF_nonneg (SFdiv prec emax (S754_finite false m e) s) = true.
Proof.
  destruct s as [ [ | ] | [ | ] | | [ | ] ms es]; simpl; try discriminate; intros _; auto.
  pose proof (SFdiv_core_binary_nonneg prec emax m e ms es) as H.
  destruct (SFdiv_core_binary _ _ _ _ _ _) as [[mz ez] lz]. simpl in H.
  apply has_sign_false_nonneg, binary_round_aux_sign, H.
Qed.

(** The weight of a neighbour is NaN or not negative. *)
Lemma weightOf_nonneg nb a :
  Distance nb = Sqrt a -> is_nan (weightOf nb) = false -> nonneg (weightOf nb) = true.
Proof.
  intros Hd. unfold is_nan, nonneg, weightOf.
  rewrite FloatAxioms.div_spec, FloatAxioms.add_spec, Hd.
  unfold Sqrt. rewrite FloatAxioms.sqrt_spec.
  replace (Prim2SF 1) with (S754_finite false 4503599627370496 (-52))
    by (vm_compute; reflexivity).
  replace (Prim2SF epsilon) with (S754_finite false 6044629098073146 (-79))
    by (vm_compute; reflexivity).
  unfold SF64div, SF64add, SF64sqrt.
  destruct (SF_is_nan (SFsqrt prec emax (Prim2SF a))) eqn:En.
  { destruct (SFsqrt prec emax (Prim2SF a)); discriminate. }
  intros _. apply SFdiv_positive_sign, SFadd_positive_sign.
  now apply SFsqrt_number_nonneg.
Qed.

Lemma finite_not_nan x : is_finite x = true -> is_nan x = false.
Proof. unfold is_finite, is_nan. destruct (Prim2SF x); simpl; congruence. Qed.

Lemma nonneg_to_R x : nonneg x = true -> 0 <= to_R x.
Proof. apply SF_nonneg_to_R. Qed.

Lemma eqb_zero (x : float) : (x =? 0)%float = is_zero x.
Proof.
  unfold is_zero. rewrite FloatAxioms.eqb_spec.
  replace (Prim2SF 0) with (S754_zero false) by (vm_compute; reflexivity).
  destruct (Prim2SF x) as [ s | s | | s m e]; try reflexivity; destruct s; reflexivity.
Qed.

Lemma to_R_not_zero x : is_finite x = true -> is_zero x = false -> to_R x <> 0.
Proof.
  unfold is_finite, is_zero, to_R.
  destruct (Prim2SF x) as [ s | s | | s m e]; simpl SF_is_finite; simpl SF_is_zero;
    try discriminate.
  intros _ _. rewrite SF2R_finite.
  pose proof (IZR_pos_pos m). pose proof (bpow_pos e).
  assert (0 < IZR (Z.pos m) * bpow e) by (apply Rmult_lt_0_compat; lra).
  destruct s; unfold sgn; lra.
Qed.

Lemma to_R_zero x : is_zero x = true -> to_R x = 0.
Proof. unfold is_zero, to_R. destruct (Prim2SF x); try discriminate. reflexivity. Qed.

Lemma normal_finite x : normal x = true -> is_finite x = true.
Proof. unfold normal, is_finite. destruct (Prim2SF x); simpl; congruence. Qed.

Lemma div_zero_finite (x y : float) :
  is_zero x = true -> is_finite y = true -> is_zero y = false ->
  is_finite (x / y) = true.
Proof.
  unfold is_zero, is_finite. rewrite FloatAxioms.div_spec.
  destruct (Prim2SF x) as [ sx | sx | | sx mx ex], (Prim2SF y) as [ sy | sy | | sy my ey];
    simpl; congruence.
Qed.

End Weights.

Section Constants.

Lemma u_value : u = / IZR (2 ^ 53).
Proof.
  unfold u. change (- prec)%Z with (- (53))%Z.
  rewrite bpow_opp, (bpow_IZR 53) by lia. reflexivity.
Qed.

Lemma u_bounds : 0 < u < 1.
Proof.
  rewrite u_value. split.
  - apply Rinv_0_lt_compat. apply IZR_lt. reflexivity.
  - rewrite <- Rinv_1. apply Rinv_lt_contravar; [ | apply IZR_lt; reflexivity ].
    rewrite Rmult_1_l. apply IZR_lt. reflexivity.
Qed.

Lemma v_spec : v * (1 - u) = u.
Proof. pose proof u_bounds. unfold v. field. lra. Qed.

Lemma v_bounds : 0 < v <= 2 * u.
Proof.
  pose proof u_bounds as Hu. pose proof v_spec as Hv.
  assert (Hu2 : u <= / 2).
  { rewrite u_value. apply Rinv_le_contravar; [ lra | ].
    apply IZR_le. vm_compute. discriminate. }
  split.
  - unfold v. apply Rdiv_lt_0_compat; lra.
  - apply (Rmult_le_reg_r (1 - u)); [ lra | ]. rewrite Hv. nra.
Qed.

End Constants.

Section Sums.

Lemma accumulate_step nb sel ws tw :
  accumulate (nb :: sel) ws tw
  = accumulate sel (ws + weightOf nb * Output nb)%float (tw + weightOf nb)%float.
Proof. reflexivity. Qed.

(** The running sums against the exact sums: after [n] turns both are
    known within the factor [2 * (n + 1) * v]. *)
Lemma accumulate_error : forall sel ws tw (n : nat) A B W,
  sums_regular sel ws tw = true ->
  Forall (fun nb => 0 <= weightR nb) sel ->
  2 * (INR (n + length sel) + 1) * v <= 1 ->
  is_finite ws = true -> is_finite tw = true ->
  Rabs (to_R ws - A) <= 2 * (INR n + 1) * v * B -> Rabs A <= B ->
  Rabs (to_R tw - W) <= 2 * (INR n + 1) * v * W -> 0 <= W ->
  is_finite (fst (accumulate sel ws tw)) = true
  /\ is_finite (snd (accumulate sel ws tw)) = true
  /\ Rabs (to_R (fst (accumulate sel ws tw)) - (A + weightedSumR sel))
     <= 2 * (INR (n + length sel) + 1) * v * (B + absWeightedSumR sel)
  /\ Rabs (to_R (snd (accumulate sel ws tw)) - (W + totalWeightR sel))
     <= 2 * (INR (n + length sel) + 1) * v * (W + totalWeightR sel).
Proof.
  pose proof u_bounds as Hu. pose proof v_spec as Hvs. pose proof v_bounds as Hv.
  assert (Hu2 : u <= / 2).
  { rewrite u_value. apply Rinv_le_contravar; [ lra | ].
    apply IZR_le. vm_compute. discriminate. }
  induction sel as [ | nb sel IH]; intros ws tw n A B W Hreg Hw Hn Hfs Hft HS HA HT HW.
  - cbn [accumulate fold_left fst snd weightedSumR absWeightedSumR totalWeightR
         fold_right length].
    unfold accumulate. cbn [fold_left fst snd].
    rewrite Nat.add_0_r, !Rplus_0_r. auto.
  - rewrite accumulate_step.
    cbn [sums_regular] in Hreg.
    apply andb_prop in Hreg. destruct Hreg as [Hreg Hrest].
    apply andb_prop in Hreg. destruct Hreg as [Hreg Hft'].
    apply andb_prop in Hreg. destruct Hreg as [Hreg Hfs'].
    apply andb_prop in Hreg. destruct Hreg as [Hfo Hprod].
    inversion Hw as [ | ? ? Hw0 Hwsel ]; subst.
    set (w := weightOf nb) in *. set (o := Output nb) in *.
    assert (Hlen : INR (n + length (nb :: sel)) = INR (S n + length sel)).
    { f_equal. simpl. lia. }
    rewrite Hlen in *.
    assert (HnR : 0 <= INR n) by apply pos_INR.
    assert (HnS : INR (S n) = INR n + 1) by apply S_INR.
    assert (Hnl : INR (S n) <= INR (S n + length sel)) by (apply le_INR; lia).
    set (c := 2 * (INR n + 1) * v) in *.
    assert (Hc : v <= c <= 1).
    { unfold c. split; [ nra | ].
      eapply Rle_trans; [ | exact Hn ].
      apply Rmult_le_compat_r; [ lra | ]. lra. }
    assert (Hc' : c + 2 * v = 2 * (INR (S n) + 1) * v) by (unfold c; rewrite HnS; ring).
    destruct (add_finite _ _ Hfs') as [_ Hfp].
    (* the product *)
    assert (Hp : Rabs (to_R (w * o)%float - weightR nb * to_R o)
                 <= v * (weightR nb * Rabs (to_R o))).
    { replace (weightR nb * Rabs (to_R o)) with (Rabs (weightR nb * to_R o)).
      2:{ rewrite Rabs_mult, (Rabs_pos_eq (weightR nb)) by exact Hw0. reflexivity. }
      apply (relative_error u); auto.
      apply mul_model; auto. }
    assert (Hpa : Rabs (weightR nb * to_R o) <= weightR nb * Rabs (to_R o)).
    { rewrite Rabs_mult, (Rabs_pos_eq (weightR nb)) by exact Hw0. lra. }
    (* the two sums *)
    assert (Hs' : Rabs (to_R (ws + w * o)%float - (to_R ws + to_R (w * o)%float))
                  <= v * Rabs (to_R ws + to_R (w * o)%float)).
    { apply (relative_error u); auto. now apply add_model. }
    assert (Ht' : Rabs (to_R (tw + w)%float - (to_R tw + to_R w))
                  <= v * Rabs (to_R tw + to_R w)).
    { apply (relative_error u); auto. now apply add_model. }
    destruct (sum_step v c (to_R ws) A B (to_R (w * o)%float) (weightR nb * to_R o)
                (weightR nb * Rabs (to_R o)) (to_R (ws + w * o)%float))
      as [S1 S2]; auto; try lra.
    assert (Hw0' : Rabs (weightR nb) <= weightR nb) by (rewrite Rabs_pos_eq; lra).
    destruct (sum_step v c (to_R tw) W W (to_R w) (weightR nb) (weightR nb)
                (to_R (tw + w)%float))
      as [T1 T2]; auto; try lra.
    { rewrite Rabs_pos_eq; lra. }
    { replace (to_R w) with (weightR nb) by reflexivity.
      replace (weightR nb - weightR nb) with 0 by ring.
      rewrite Rabs_R0. apply Rmult_le_pos; lra. }
    rewrite Hc' in S1, T1.
    destruct (IH (ws + w * o)%float (tw + w)%float (S n)
                (A + weightR nb * to_R o) (B + weightR nb * Rabs (to_R o))
                (W + weightR nb) Hrest Hwsel Hn Hfs' Hft' S1 S2 T1 ltac:(lra))
      as (I1 & I2 & I3 & I4).
    split; [ exact I1 | split; [ exact I2 | ] ].
    cbn [weightedSumR absWeightedSumR totalWeightR fold_right].
    fold (weightedSumR sel) (absWeightedSumR sel) (totalWeightR sel). fold o.
    split.
    + replace (A + (weightR nb * to_R o + weightedSumR sel))
        with (A + weightR nb * to_R o + weightedSumR sel) by ring.
      replace (B + (weightR nb * Rabs (to_R o) + absWeightedSumR sel))
        with (B + weightR nb * Rabs (to_R o) + absWeightedSumR sel) by ring.
      exact I3.
    + replace (W + (weightR nb + totalWeightR sel))
        with (W + weightR nb + totalWeightR sel) by ring.
      exact I4.
Qed.

(** The exact sums: a weighted sum of outputs between [lo] and [hi], of
    magnitude at most [M], with weights that are not negative. *)
Lemma exact_sums_bounds (sel : list Neighbor) (lo hi M : R) :
  Forall (fun nb => 0 <= weightR nb) sel ->
  Forall (fun nb => lo <= to_R (Output nb) <= hi /\ Rabs (to_R (Output nb)) <= M) sel ->
  0 <= totalWeightR sel
  /\ lo * totalWeightR sel <= weightedSumR sel <= hi * totalWeightR sel
  /\ absWeightedSumR sel <= M * totalWeightR sel.
Proof.
  induction sel as [ | nb sel IH]; intros Hw Ho;
    cbn [weightedSumR absWeightedSumR totalWeightR fold_right].
  - lra.
  - fold (weightedSumR sel) (absWeightedSumR sel) (totalWeightR sel).
    inversion Hw as [ | ? ? Hw0 Hwsel ]; subst.
    inversion Ho as [ | ? ? [Ho0 Ha0] Hosel ]; subst.
    destruct (IH Hwsel Hosel) as (I1 & I2 & I3).
    set (w := weightR nb) in *.
    assert (lo * w <= w * to_R (Output nb)) by nra.
    assert (w * to_R (Output nb) <= hi * w) by nra.
    assert (w * Rabs (to_R (Output nb)) <= M * w) by nra.
    lra.
Qed.

Lemma sums_regular_outputs : forall sel ws tw,
  sums_regular sel ws tw = true ->
  Forall (fun nb => is_finite (Output nb) = true /\ is_finite (weightOf nb) = true) sel.
Proof.
  induction sel as [ | nb sel IH]; intros ws tw Hreg; [ constructor | ].
  cbn [sums_regular] in Hreg.
  apply andb_prop in Hreg. destruct Hreg as [Hreg Hrest].
  apply andb_prop in Hreg. destruct Hreg as [Hreg Hft'].
  apply andb_prop in Hreg. destruct Hreg as [Hreg Hfs'].
  apply andb_prop in Hreg. destruct Hreg as [Hfo Hprod].
  constructor; [ | exact (IH _ _ Hrest) ].
  split; [ exact Hfo | ]. now destruct (add_finite _ _ Hft').
Qed.

End Sums.

Section Bound.

Lemma u_pow : u = / 2 ^ 53.
Proof.
  rewrite u_value. f_equal.
  change (2 ^ 53)%Z with (2 ^ Z.of_nat 53)%Z. symmetry. apply (pow_IZR 2 53).
Qed.

(** The factors of the final bound, for at most [2^20] neighbours. *)
Lemma kappa_bound (m : R) :
  0 <= m <= 2 ^ 20 ->
  0 <= 2 * (m + 1) * v < 1
  /\ 2 * (2 * (m + 1) * v) * (1 - u) + u * (1 + 2 * (m + 1) * v)
     <= (4 * m + 6) * u * ((1 - 2 * (m + 1) * v) * (1 - u)).
Proof.
  intros Hm.
  pose proof u_bounds as Hu. pose proof v_spec as Hvs. pose proof v_bounds as Hv.
  assert (HU : u * 2 ^ 53 = 1).
  { rewrite u_pow. apply Rinv_l. apply pow_nonzero. lra. }
  assert (P20 : (2 : R) ^ 20 = 1048576) by (simpl; lra).
  assert (P53 : (2 : R) ^ 53 = 9007199254740992) by (simpl; lra).
  rewrite P20 in Hm. rewrite P53 in HU.
  set (N := m + 1) in *.
  assert (HN : 1 <= N <= 1048577) by (unfold N; lra).
  set (c := 2 * N * v).
  assert (Hcu : c * (1 - u) = 2 * N * u).
  { unfold c. replace (2 * N * v * (1 - u)) with (2 * N * (v * (1 - u))) by ring.
    now rewrite Hvs. }
  assert (HNu : N * u <= 1048577 * u) by (apply Rmult_le_compat_r; lra).
  assert (HNv : N * v <= N * (2 * u)) by (apply Rmult_le_compat_l; lra).
  assert (Hc0 : 0 <= c) by (unfold c; apply Rmult_le_pos; nra).
  assert (Hc : c <= / 2) by (unfold c; lra).
  split; [ lra | ].
  assert (Hq : (2 * N + 1) * (2 * N + 1) <= 2097155 * 2097155)
    by (apply Rmult_le_compat; lra).
  assert (Hq' : (2 * N + 1) * (2 * N + 1) * u <= 2097155 * 2097155 * u)
    by (apply Rmult_le_compat_r; lra).
  assert (Hq'' : u * ((2 * N + 1) * (2 * N + 1) * u) <= u * / 8)
    by (apply Rmult_le_compat_l; lra).
  assert (Huc : u * c <= u * / 2) by (apply Rmult_le_compat_l; lra).
  replace (4 * m + 6) with (4 * N + 2) by (unfold N; ring).
  replace ((1 - c) * (1 - u)) with (1 - u - c * (1 - u)) by ring.
  replace (2 * c * (1 - u)) with (2 * (c * (1 - u))) by ring.
  rewrite Hcu.
  replace ((4 * N + 2) * u * (1 - u - 2 * N * u))
    with ((4 * N + 2) * u - 2 * (u * ((2 * N + 1) * (2 * N + 1) * u))) by ring.
  lra.
Qed.

Lemma to_R_zero_float : to_R 0%float = 0.
Proof. reflexivity. Qed.

Lemma clamp_bounds k n : (1 <= k)%Z -> (1 <= n)%nat -> (1 <= clamp k n)%nat /\ (Z.of_nat (clamp k n) <= k)%Z.
Proof.
  intros Hk Hn. unfold clamp. destruct (Z.ltb_spec (Z.of_nat n) k); lia.
Qed.

Lemma neighborsOf_Sqrt tripDays miles receipts training nb :
  In nb (neighborsOf tripDays miles receipts training) -> exists a, Distance nb = Sqrt a.
Proof.
  unfold neighborsOf. intros H. apply in_map_iff in H. destruct H as (c & <- & _).
  unfold neighborOf, calculateDistance. cbn [Distance]. eexists. reflexivity.
Qed.

Lemma largestOutput_bound sel nb :
  In nb sel -> Rabs (to_R (Output nb)) <= largestOutput sel.
Proof.
  intros H. unfold largestOutput. apply MaxRlist_P1.
  apply (in_map (fun nb => Rabs (to_R (Output nb)))). exact H.
Qed.

Lemma MinRlist_In (l : list R) : l <> [] -> In (MinRlist l) l.
Proof.
  induction l as [ | a l IH]; intros H; [ contradiction | ].
  destruct l as [ | b l]; [ now left | ].
  change (MinRlist (a :: b :: l)) with (Rmin a (MinRlist (b :: l))).
  unfold Rmin. destruct (Rle_dec a (MinRlist (b :: l))); [ now left | right ].
  apply IH. discriminate.
Qed.

Lemma MaxRlist_In (l : list R) : l <> [] -> In (MaxRlist l) l.
Proof.
  intros H. apply MaxRlist_P2. destruct l as [ | a l]; [ contradiction | ].
  exists a. now left.
Qed.

End Bound.

(** C4, as amended.  For every non-empty TrainingSet and every query
    without exact match, with [1 <= k <= 2^20], when nothing overflows or
    underflows in the aggregation (finite outputs, every product
    [weight * output] normal or with a zero factor, finite sums, a quotient
    that is normal or has a zero numerator): [predictWeightedKNN] returns a
    finite value that lies within [min - e, max + e] of the outputs of the
    selected neighbours, where [e = (4 * m + 6) * 2^-53 * M] for the [m]
    selected neighbours and the largest magnitude [M] of their outputs. *)
Theorem prediction_near_selected_outputs
  (tripDays : Z) (miles receipts : float) (training : TrainingData) (k : Z) :
  training <> [] ->
  find (isExactMatch tripDays miles receipts) training = None ->
  (1 <= k <= 2 ^ 20)%Z ->
  aggregation_regular (selectedNeighbors tripDays miles receipts training k) = true ->
  exists prediction,
    predictWeightedKNN tripDays miles receipts training k = Returns prediction
    /\ is_finite prediction = true
    /\ let selected := selectedNeighbors tripDays miles receipts training k in
       let e := (4 * INR (length selected) + 6) * / 2 ^ 53 * largestOutput selected in
       MinRlist (outputsR selected) - e <= to_R prediction
       <= MaxRlist (outputsR selected) + e.
Proof.
  intros Hne Hfind Hk Hreg.
  destruct (predictWeightedKNN_ranked tripDays miles receipts training k Hfind)
    as (sorted & Hs & Hp & E).
  assert (Hsel : selectedNeighbors tripDays miles receipts training k
                 = firstn (clamp k (length sorted)) sorted).
  { unfold selectedNeighbors, rankedNeighbors. now rewrite Hs. }
  rewrite Hsel in *. clear Hsel. cbv zeta.
  assert (Hlen : length sorted = length training).
  { apply Permutation_length in Hp. now rewrite neighborsOf_length in Hp. }
  assert (Hn1 : (1 <= length sorted)%nat).
  { rewrite Hlen. destruct training; [ contradiction | simpl; lia ]. }
  destruct (clamp_bounds k (length sorted) ltac:(lia) Hn1) as [Hc1 Hc2].
  set (selected := firstn (clamp k (length sorted)) sorted) in *.
  assert (Hm : length selected = clamp k (length sorted)).
  { unfold selected. rewrite length_firstn. pose proof (clamp_le k (length sorted)). lia. }
  destruct sorted as [ | nearest rest]; [ simpl in Hn1; lia | ].
  assert (Hin0 : In nearest selected).
  { unfold selected. destruct (clamp k (length (nearest :: rest))); [ lia | now left ]. }
  apply andb_prop in Hreg. destruct Hreg as [Hsums Hquot].
  pose proof (sums_regular_outputs _ _ _ Hsums) as Hfin.
  rewrite Forall_forall in Hfin.
  (* the weights are not negative *)
  assert (Hw : Forall (fun nb => 0 <= weightR nb) selected).
  { apply Forall_forall. intros nb Hin.
    destruct (Hfin nb Hin) as [_ Hfw].
    assert (Hnb : In nb (neighborsOf tripDays miles receipts training)).
    { apply (Permutation_in _ Hp). unfold selected in Hin.
      apply (In_firstn _ _ _ _ Hin). }
    destruct (neighborsOf_Sqrt _ _ _ _ _ Hnb) as [a Ha].
    apply nonneg_to_R, (weightOf_nonneg nb a Ha). now apply finite_not_nan. }
  (* the outputs *)
  set (lo := MinRlist (outputsR selected)). set (hi := MaxRlist (outputsR selected)).
  set (M := largestOutput selected).
  assert (Ho : Forall (fun nb => lo <= to_R (Output nb) <= hi
                                 /\ Rabs (to_R (Output nb)) <= M) selected).
  { apply Forall_forall. intros nb Hin. split.
    - now apply outputs_within_MinMax.
    - now apply largestOutput_bound. }
  assert (HM : 0 <= M).
  { eapply Rle_trans; [ apply Rabs_pos | apply (largestOutput_bound _ _ Hin0) ]. }
  assert (Hlohi : - M <= lo /\ hi <= M).
  { assert (Hne' : outputsR selected <> []).
    { unfold outputsR. destruct selected; [ contradiction | discriminate ]. }
    pose proof (MinRlist_In _ Hne') as H1. pose proof (MaxRlist_In _ Hne') as H2.
    fold lo in H1. fold hi in H2. unfold outputsR in H1, H2.
    apply in_map_iff in H1, H2.
    destruct H1 as (nb1 & E1 & I1). destruct H2 as (nb2 & E2 & I2).
    pose proof (largestOutput_bound _ _ I1) as B1.
    pose proof (largestOutput_bound _ _ I2) as B2.
    fold M in B1, B2. rewrite E1 in B1. rewrite E2 in B2.
    apply Rabs_le_inv in B1, B2. lra. }
  destruct Hlohi as [Hlo Hhi].
  (* the size of the bound *)
  set (m := INR (length selected)).
  assert (Hmr : 0 <= m <= 2 ^ 20).
  { unfold m. split; [ apply pos_INR | ].
    rewrite INR_IZR_INZ, (pow_IZR 2 20). apply IZR_le.
    change (2 ^ Z.of_nat 20)%Z with (2 ^ 20)%Z. lia. }
  destruct (kappa_bound m Hmr) as [Hc Hkappa].
  pose proof u_bounds as Hu. pose proof v_bounds as Hv.
  set (c := 2 * (m + 1) * v) in *.
  replace (/ 2 ^ 53) with u by apply u_pow.
  set (kappa := (4 * m + 6) * u) in *.
  assert (Hkm : 0 <= kappa * M).
  { apply Rmult_le_pos; [ | exact HM ]. unfold kappa. apply Rmult_le_pos; lra. }
  (* the sums *)
  destruct (accumulate_error selected 0%float 0%float 0 0 0 0 Hsums Hw) as (F1 & F2 & A1 & A2).
  { cbn [Nat.add]. fold m. fold c. lra. }
  { reflexivity. }
  { reflexivity. }
  { rewrite to_R_zero_float, Rminus_0_r, Rabs_R0. lra. }
  { rewrite Rabs_R0. lra. }
  { rewrite to_R_zero_float, Rminus_0_r, Rabs_R0. lra. }
  { lra. }
  cbn [Nat.add] in A1, A2. fold m in A1, A2. fold c in A1, A2.
  rewrite !Rplus_0_l in A1, A2.
  destruct (exact_sums_bounds selected lo hi M Hw Ho) as (W0 & Wlohi & Wabs).
  rewrite E. unfold finish. rewrite eqb_zero.
  set (ws := fst (accumulate selected 0 0)) in *.
  set (tw := snd (accumulate selected 0 0)) in *.
  destruct (is_zero tw) eqn:Ez.
  - (* the fallback *)
    exists (Output nearest). split; [ reflexivity | ].
    split; [ apply (Hfin nearest Hin0) | ].
    pose proof (outputs_within_MinMax selected nearest Hin0) as Hb.
    fold lo hi in Hb. lra.
  - (* the quotient *)
    exists (ws / tw)%float. split; [ reflexivity | ].
    rewrite eqb_zero, Ez in Hquot. cbn [orb] in Hquot.
    split.
    { apply orb_prop in Hquot. destruct Hquot as [Hz | Hn].
      - now apply div_zero_finite.
      - now apply normal_finite. }
    pose proof (div_model ws tw F1 F2 Ez Hquot) as HQ.
    pose proof (to_R_not_zero tw F2 Ez) as HT0.
    assert (HW : 0 < totalWeightR selected).
    { destruct W0 as [W0 | W0]; [ exact W0 | exfalso ].
      rewrite <- W0 in A2. rewrite Rmult_0_r, Rminus_0_r in A2.
      pose proof (Rabs_pos (to_R tw)).
      apply HT0. apply Rabs_le_inv in A2. lra. }
    assert (A1' : Rabs (to_R ws - weightedSumR selected)
                  <= c * (M * totalWeightR selected)).
    { eapply Rle_trans; [ exact A1 | ]. apply Rmult_le_compat_l; lra. }
    apply (quotient_bound u c kappa M (totalWeightR selected) (to_R ws) (to_R tw)
             (weightedSumR selected) (to_R (ws / tw)%float) lo hi); auto; lra.
Qed.

Lemma prediction_near_selected_outputs_witness :
  exists prediction,
    predictWeightedKNN 3 100 50 [mkCase 4 100 50 120.5; mkCase 9 120 80 310.25] 5
    = Returns prediction
    /\ is_finite prediction = true
    /\ let selected :=
         selectedNeighbors 3 100 50 [mkCase 4 100 50 120.5; mkCase 9 120 80 310.25] 5 in
       let e := (4 * INR (length selected) + 6) * / 2 ^ 53 * largestOutput selected in
       MinRlist (outputsR selected) - e <= to_R prediction
       <= MaxRlist (outputsR selected) + e.
Proof.
  apply (prediction_near_selected_outputs 3 100 50
           [mkCase 4 100 50 120.5; mkCase 9 120 80 310.25] 5).
  - discriminate.
  - vm_compute. reflexivity.
  - lia.
  - vm_compute. reflexivity.
Defined.

(** The condition cannot be dropped: with outputs of magnitude [2^1023]
    the products overflow, the sum of [+Inf] and [-Inf] is NaN, and NaN is
    what is returned. *)
Lemma overflow_returns_nan :
  let training :=
    [mkCase 4 100 50 0x1p1023; mkCase 4 100 50 0x1p1023; mkCase 4 100 50 (-0x1p1023)]%float in
  find (isExactMatch 3 100 50) training = None
  /\ aggregation_regular (selectedNeighbors 3 100 50 training 5) = false
  /\ exists prediction,
       predictWeightedKNN 3 100 50 training 5 = Returns prediction
       /\ is_nan prediction = true.
Proof.
  cbv zeta. split; [ vm_compute; reflexivity | split; [ vm_compute; reflexivity | ] ].
  eexists. split; vm_compute; reflexivity.
Qed.

End Boundedness.

(* ================================================================= *)
(** * [sort.Slice] on a slice that is in order already *)

Section AscendingInput.

Import GoSort GoSortFacts.

Context {A : Type}.
Variable lt : A -> A -> bool.

(** [ascending] from the pairs of the list, which a concrete list decides. *)
Lemma ForallOrdPairs_ascending (data : list A) :
  ForallOrdPairs (fun x y => lt y x = false) data -> ascending lt data.
Proof.
  induction 1 as [ | x l Hx _ IH]; intros i j Hij; unfold Less.
  - now destruct j.
  - destruct j as [ | j]; [ lia | ]. cbn [nth_error].
    destruct (nth_error l j) as [y | ] eqn:Ej; [ | reflexivity ].
    destruct i as [ | i]; cbn [nth_error].
    + rewrite Forall_forall in Hx. apply Hx. exact (nth_error_In _ _ Ej).
    + specialize (IH i j ltac:(lia)). unfold Less in IH. now rewrite Ej in IH.
Qed.

Variable data : list A.
Hypothesis Hasc : ascending lt data.

Lemma insertionSort_shift_ascending a j : insertionSort_shift lt data a j = data.
Proof.
  destruct j as [ | j]; simpl; [ reflexivity | ].
  rewrite (Hasc j (S j)) by lia. now rewrite andb_false_r.
Qed.

Lemma insertionSort_func_ascending a b : insertionSort_func lt data a b = data.
Proof.
  unfold insertionSort_func. generalize (seq (a + 1) (b - (a + 1))). intros l.
  induction l as [ | i l IH]; simpl; [ reflexivity | ].
  now rewrite insertionSort_shift_ascending.
Qed.

Lemma order2_func_ascending i j swaps :
  i < j -> order2_func lt data i j swaps = (i, j, swaps).
Proof. intros H. unfold order2_func. now rewrite (Hasc i j H). Qed.

Lemma median_func_ascending i j k swaps :
  i < j -> j < k -> median_func lt data i j k swaps = (j, swaps).
Proof.
  intros Hij Hjk. unfold median_func.
  now rewrite (order2_func_ascending i j), (order2_func_ascending j k),
    (order2_func_ascending i j).
Qed.

Lemma medianAdjacent_func_ascending i swaps :
  0 < i -> medianAdjacent_func lt data i swaps = (i, swaps).
Proof. intros H. unfold medianAdjacent_func. apply median_func_ascending; lia. Qed.

Lemma choosePivot_func_ascending a b :
  12 < b - a -> snd (choosePivot_func lt data a b) = increasingHint.
Proof.
  intros Hl. unfold choosePivot_func.
  assert (H4 : 3 <= (b - a) / 4) by (apply Nat.div_le_lower_bound; lia).
  assert (H8 : (8 <=? b - a) = true) by (apply Nat.leb_le; lia).
  rewrite H8.
  destruct (50 <=? b - a).
  - rewrite !medianAdjacent_func_ascending by lia.
    rewrite median_func_ascending by lia. reflexivity.
  - rewrite median_func_ascending by lia. reflexivity.
Qed.

Lemma scan_up_ascending n : forall i,
  0 < i -> scan_up (fun i => negb (Less lt data i (i - 1))) i n = i + n.
Proof.
  induction n as [ | n IH]; intros i Hi; simpl; [ lia | ].
  rewrite (Hasc (i - 1) i) by lia. simpl. rewrite IH by lia. lia.
Qed.

Lemma partialInsertionSort_loop_ascending steps a b i :
  0 < i -> i <= b ->
  partialInsertionSort_loop lt (S steps) data a b i = (data, true).
Proof.
  intros Hi Hb. cbn [partialInsertionSort_loop].
  rewrite scan_up_ascending by exact Hi.
  replace (i + (b - i)) with b by lia.
  now rewrite Nat.eqb_refl.
Qed.

Lemma partialInsertionSort_func_ascending a b :
  a < b -> partialInsertionSort_func lt data a b = (data, true).
Proof.
  intros Hab. unfold partialInsertionSort_func.
  apply partialInsertionSort_loop_ascending; lia.
Qed.

Lemma bits_Len_pos n : 0 < n -> bits_Len n <> 0.
Proof. unfold bits_Len. destruct n; [ lia | discriminate ]. Qed.

(** Neither the insertion sort of a short slice nor the first turn of
    [pdqsort_func] on a long one moves an element. *)
Lemma Slice_ascending : Slice lt data = Some data.
Proof.
  unfold Slice, pdqsort_func. cbn [pdqsort_loop]. rewrite Nat.sub_0_r.
  destruct (Nat.leb_spec (length data) maxInsertion) as [ | Hlen].
  { now rewrite insertionSort_func_ascending. }
  unfold maxInsertion in Hlen.
  destruct (Nat.eqb_spec (bits_Len (length data)) 0) as [E | _].
  { apply bits_Len_pos in E; [ contradiction | lia ]. }
  cbn [negb].
  pose proof (choosePivot_func_ascending 0 (length data) ltac:(lia)) as Hh.
  destruct (choosePivot_func lt data 0 (length data)) as [pivot hint].
  simpl in Hh. subst hint. cbn [sortedHint_eqb andb].
  rewrite partialInsertionSort_func_ascending by lia. reflexivity.
Qed.

(** X8.  [sort.Slice] returns a slice that is in order already as it is,
    whatever its length and whatever the comparison: no element moves, so
    elements that compare equal keep their places. *)
Theorem Slice_leaves_ascending_input_unchanged : Slice lt data = Some data.
Proof. exact Slice_ascending. Qed.

End AscendingInput.

Lemma Slice_leaves_ascending_input_unchanged_witness :
  GoSort.Slice Nat.ltb [1; 2; 2; 3; 3; 3; 5; 8; 8; 9; 10; 11; 12; 12; 13]
  = Some [1; 2; 2; 3; 3; 3; 5; 8; 8; 9; 10; 11; 12; 12; 13].
Proof.
  apply (Slice_leaves_ascending_input_unchanged Nat.ltb
           [1; 2; 2; 3; 3; 3; 5; 8; 8; 9; 10; 11; 12; 12; 13]).
  apply ForallOrdPairs_ascending. repeat constructor.
Defined.

(* ================================================================= *)
(** * More on [predictWeightedKNN] *)

Section PredictorBounds.

Import Float64 SFFacts GoIntFacts Float64Facts GoSortFacts.
Open Scope float_scope.

(** X1.  A [k] at or above the number of records is as good as that number:
    the result is the one for [k = len(training)] (lines 113-115). *)
Theorem predictWeightedKNN_k_saturates
  (tripDays : Z) (miles receipts : float) (training : TrainingData) (k : Z) :
  (Z.of_nat (length training) <= k)%Z ->
  predictWeightedKNN tripDays miles receipts training k
  = predictWeightedKNN tripDays miles receipts training (Z.of_nat (length training)).
Proof.
  intros Hk.
  destruct (find (isExactMatch tripDays miles receipts) training) as [c | ] eqn:Hfind.
  - now rewrite !(predictWeightedKNN_match _ _ _ _ _ _ Hfind).
  - destruct (predictWeightedKNN_ranked tripDays miles receipts training k Hfind)
      as (sorted & Hs & Hp & ->).
    destruct (predictWeightedKNN_ranked tripDays miles receipts training
                (Z.of_nat (length training)) Hfind) as (sorted' & Hs' & _ & ->).
    rewrite Hs in Hs'. injection Hs' as <-.
    apply Permutation_length in Hp. rewrite neighborsOf_length in Hp.
    rewrite !clamp_small by lia. reflexivity.
Qed.

Lemma predictWeightedKNN_k_saturates_witness :
  predictWeightedKNN 3 100 50 [mkCase 5 100 50 200; mkCase 4 100 50 100] 5
  = predictWeightedKNN 3 100 50 [mkCase 5 100 50 200; mkCase 4 100 50 100]
      (Z.of_nat (length [mkCase 5 100 50 200; mkCase 4 100 50 100])).
Proof.
  apply (predictWeightedKNN_k_saturates 3 100 50
           [mkCase 5 100 50 200; mkCase 4 100 50 100] 5).
  simpl. lia.
Defined.

(** X2.  With [k <= 0] the aggregation loop does not run, the total weight
    stays [0], and a query without exact match on a non-empty TrainingSet
    gets the output of the first neighbour of the ranked list
    (lines 117-132). *)
Theorem predictWeightedKNN_k_nonpositive
  (tripDays : Z) (miles receipts : float) (training : TrainingData) (k : Z) :
  (k <= 0)%Z -> training <> [] ->
  find (isExactMatch tripDays miles receipts) training = None ->
  exists first rest,
    GoSort.Slice lessDistance (neighborsOf tripDays miles receipts training)
    = Some (first :: rest)
    /\ predictWeightedKNN tripDays miles receipts training k = Returns (Output first).
Proof.
  intros Hk Hne Hfind.
  destruct (predictWeightedKNN_ranked tripDays miles receipts training k Hfind)
    as (sorted & Hs & Hp & E).
  apply Permutation_length in Hp. rewrite neighborsOf_length in Hp.
  destruct sorted as [ | first rest].
  { destruct training; [ contradiction | discriminate ]. }
  exists first, rest. split; [ exact Hs | ].
  rewrite E.
  assert (Hc : clamp k (length (first :: rest)) = 0%nat).
  { unfold clamp. destruct (Z.ltb_spec (Z.of_nat (length (first :: rest))) k); lia. }
  rewrite Hc. reflexivity.
Qed.

Lemma predictWeightedKNN_k_nonpositive_witness :
  exists first rest,
    GoSort.Slice lessDistance
      (neighborsOf 3 100 50 [mkCase 5 100 50 200; mkCase 4 100 50 100])
    = Some (first :: rest)
    /\ predictWeightedKNN 3 100 50 [mkCase 5 100 50 200; mkCase 4 100 50 100] 0
       = Returns (Output first).
Proof.
  apply (predictWeightedKNN_k_nonpositive 3 100 50
           [mkCase 5 100 50 200; mkCase 4 100 50 100] 0).
  - lia.
  - discriminate.
  - vm_compute. reflexivity.
Defined.

Lemma aggregate_panics_from n : forall neighbors i ws tw,
  (i <= length neighbors)%nat ->
  (aggregate n neighbors i ws tw = PanicIndexOutOfRange
   <-> (length neighbors < i + n)%nat).
Proof.
  induction n as [ | n IH]; intros neighbors i ws tw Hi; simpl.
  - split; [ discriminate | intros; exfalso; lia ].
  - destruct (nth_error neighbors i) as [nb | ] eqn:E.
    + assert (i < length neighbors)%nat by (apply nth_error_Some; congruence).
      rewrite IH by lia. lia.
    + apply nth_error_None in E. split; [ intros _; lia | reflexivity ].
Qed.

(** X3.  The aggregation loop [for i := 0; i < k; i++] reads out of range
    exactly when [k] exceeds the number of neighbours: the cap of lines
    113-115 is what keeps lines 123 and 125 from the panic, and no smaller
    cap is needed. *)
Theorem aggregate_panics_iff_too_many_turns
  (n : nat) (neighbors : list Neighbor) (weightedSum totalWeight : float) :
  aggregate n neighbors 0 weightedSum totalWeight = PanicIndexOutOfRange
  <-> (length neighbors < n)%nat.
Proof. rewrite aggregate_panics_from by lia. reflexivity. Qed.

Lemma Abs_sub_swap x y : Abs (x - y) = Abs (y - x).
Proof.
  apply Prim2SF_inj. unfold Abs. rewrite !abs_spec. apply sub_swap_abs.
Qed.

(** X4.  The test for an exact match is symmetric in the query and the
    record: a query matches a record exactly when the record's triple, used
    as a query, matches a record made of the query's triple (lines 85-87),
    for all values, NaN and infinities included. *)
Theorem isExactMatch_symmetric
  (d1 : Z) (m1 r1 o1 : float) (d2 : Z) (m2 r2 o2 : float) :
  isExactMatch d1 m1 r1 (mkCase d2 m2 r2 o2) = isExactMatch d2 m2 r2 (mkCase d1 m1 r1 o1).
Proof.
  unfold isExactMatch. simpl.
  now rewrite Z.eqb_sym, (Abs_sub_swap m2 m1), (Abs_sub_swap r2 r1).
Qed.

End PredictorBounds.

(* ================================================================= *)
(** * Queries with a NaN or an infinite coordinate *)

Section SpecialQueries.

Import Float64 SFFacts GoIntFacts Float64Facts GoSortFacts.
Open Scope float_scope.

Lemma is_nan_eq x : is_nan x = true -> x = nan.
Proof.
  unfold is_nan. intros H. rewrite <- (SF2Prim_Prim2SF x).
  destruct (Prim2SF x); try discriminate. reflexivity.
Qed.

Lemma sub_nan_l y : nan - y = nan.
Proof. apply Prim2SF_inj. now rewrite FloatAxioms.sub_spec. Qed.

Lemma sub_nan_r x : x - nan = nan.
Proof.
  apply Prim2SF_inj. rewrite FloatAxioms.sub_spec.
  change (Prim2SF nan) with S754_nan. now destruct (Prim2SF x).
Qed.

Lemma div_nan_l y : nan / y = nan.
Proof. apply Prim2SF_inj. now rewrite FloatAxioms.div_spec. Qed.

Lemma mul_nan_l y : nan * y = nan.
Proof. apply Prim2SF_inj. now rewrite FloatAxioms.mul_spec. Qed.

Lemma add_nan_l y : nan + y = nan.
Proof. apply Prim2SF_inj. now rewrite FloatAxioms.add_spec. Qed.

Lemma add_nan_r x : x + nan = nan.
Proof.
  apply Prim2SF_inj. rewrite FloatAxioms.add_spec.
  change (Prim2SF nan) with S754_nan. now destruct (Prim2SF x).
Qed.

Lemma ltb_nan_l y : (nan <? y) = false.
Proof. now rewrite FloatAxioms.ltb_spec. Qed.

Lemma calculateDistance_nan_query d1 m1 r1 d2 m2 r2 :
  is_nan m1 = true \/ is_nan r1 = true ->
  calculateDistance d1 m1 r1 d2 m2 r2 = nan.
Proof.
  unfold calculateDistance. intros [H | H]; apply is_nan_eq in H; subst.
  - now rewrite sub_nan_l, div_nan_l, mul_nan_l, add_nan_r, add_nan_l.
  - now rewrite sub_nan_l, div_nan_l, mul_nan_l, add_nan_r.
Qed.

Lemma isExactMatch_nan_query d m r c :
  is_nan m = true \/ is_nan r = true -> isExactMatch d m r c = false.
Proof.
  unfold isExactMatch. intros [H | H]; apply is_nan_eq in H; subst;
    rewrite sub_nan_r; change (Abs nan) with nan; rewrite ltb_nan_l.
  - now rewrite andb_false_r.
  - now rewrite andb_false_r.
Qed.

Lemma find_none (f : TestCase -> bool) l :
  (forall c, f c = false) -> find f l = None.
Proof.
  intros H. induction l as [ | c l IH]; simpl; [ reflexivity | now rewrite H ].
Qed.

Lemma accumulate_nan sel :
  Forall (fun nb => Distance nb = nan) sel -> accumulate sel nan nan = (nan, nan).
Proof.
  unfold accumulate. induction 1 as [ | nb sel Hd _ IH]; simpl; [ reflexivity | ].
  now rewrite !add_nan_l.
Qed.

Lemma accumulate_nan_cons nb sel ws tw :
  Forall (fun nb => Distance nb = nan) (nb :: sel) ->
  accumulate (nb :: sel) ws tw = (nan, nan).
Proof.
  intros H. inversion H as [ | ? ? Hd Hsel]; subst.
  rewrite <- (accumulate_nan sel Hsel). unfold accumulate. simpl.
  unfold weightOf. rewrite Hd.
  change (1 / (nan + epsilon)) with nan.
  now rewrite mul_nan_l, !add_nan_r.
Qed.

(** X5.  A query whose miles or receipts are NaN matches no record, every
    distance is NaN, and on a non-empty TrainingSet with [k >= 1] the call
    returns NaN, whatever the records are. *)
Theorem nan_query_returns_nan
  (tripDays : Z) (miles receipts : float) (training : TrainingData) (k : Z) :
  is_nan miles = true \/ is_nan receipts = true ->
  training <> [] -> (1 <= k)%Z ->
  predictWeightedKNN tripDays miles receipts training k = Returns nan.
Proof.
  intros Hnan Hne Hk.
  assert (Hfind : find (isExactMatch tripDays miles receipts) training = None).
  { apply find_none. intros c. now apply isExactMatch_nan_query. }
  destruct (predictWeightedKNN_ranked tripDays miles receipts training k Hfind)
    as (sorted & _ & Hp & ->).
  assert (Hall : Forall (fun nb => Distance nb = nan) sorted).
  { apply Forall_forall. intros nb Hin.
    apply (Permutation_in _ Hp) in Hin. unfold neighborsOf in Hin.
    apply in_map_iff in Hin. destruct Hin as (c & <- & _).
    now apply calculateDistance_nan_query. }
  apply Permutation_length in Hp. rewrite neighborsOf_length in Hp.
  destruct sorted as [ | nb sorted].
  { destruct training; [ contradiction | discriminate ]. }
  assert (Hc : exists n, clamp k (length (nb :: sorted)) = S n).
  { unfold clamp. destruct (Z.ltb_spec (Z.of_nat (length (nb :: sorted))) k).
    - rewrite Nat2Z.id. simpl. eauto.
    - exists (Z.to_nat (k - 1)). lia. }
  destruct Hc as [n ->]. rewrite firstn_cons.
  rewrite accumulate_nan_cons.
  - reflexivity.
  - inversion Hall as [ | ? ? Hd Hs]; subst. constructor; [ exact Hd | ].
    apply Forall_forall. intros x Hx. rewrite Forall_forall in Hs. apply Hs.
    rewrite <- (firstn_skipn n sorted). apply in_or_app. now left.
Qed.

Lemma nan_query_returns_nan_witness :
  predictWeightedKNN 3 nan 50 [mkCase 5 100 50 200; mkCase 4 100 50 100] 5 = Returns nan.
Proof.
  apply (nan_query_returns_nan 3 nan 50 [mkCase 5 100 50 200; mkCase 4 100 50 100] 5).
  - left. reflexivity.
  - discriminate.
  - lia.
Defined.

Lemma SFsub_inf_finite prec emax x y :
  SF_is_inf x = true -> SF_is_finite y = true -> SF_is_inf (SFsub prec emax x y) = true.
Proof. destruct x, y; simpl; try discriminate; reflexivity. Qed.

Lemma SFsub_finite_inf prec emax x y :
  SF_is_finite x = true -> SF_is_inf y = true -> SF_is_inf (SFsub prec emax x y) = true.
Proof. destruct x, y; simpl; try discriminate; reflexivity. Qed.

Lemma SFsub_number_finite_not_nan prec emax x y :
  SF_is_nan x = false -> SF_is_finite y = true ->
  SF_is_nan (SFsub prec emax x y) = false.
Proof.
  intros Hx Hy. destruct x as [ s | s | | s m e ]; try discriminate.
  - now apply SFsub_finite_not_nan.
  - destruct y; try discriminate; reflexivity.
  - now apply SFsub_finite_not_nan.
Qed.

Lemma SFdiv_inf_finite prec emax x s m e :
  SF_is_inf x = true -> SF_is_inf (SFdiv prec emax x (S754_finite s m e)) = true.
Proof. destruct x; simpl; try discriminate; reflexivity. Qed.

Lemma SFmul_inf_self prec emax x :
  SF_is_inf x = true -> SFmul prec emax x x = S754_infinity false.
Proof. destruct x as [ | [ | ] | | ]; simpl; try discriminate; reflexivity. Qed.

Lemma SFadd_nonneg_inf prec emax x :
  SF_nonneg x = true -> SFadd prec emax x (S754_infinity false) = S754_infinity false.
Proof. destruct x as [ | [ | ] | | [ | ] ]; simpl; try discriminate; reflexivity. Qed.

Lemma SFadd_inf_nonneg prec emax y :
  SF_nonneg y = true -> SFadd prec emax (S754_infinity false) y = S754_infinity false.
Proof. destruct y as [ | [ | ] | | [ | ] ]; simpl; try discriminate; reflexivity. Qed.

Lemma SFltb_abs_inf x y :
  SF_is_inf x = true -> SFltb (SFabs x) y = false.
Proof.
  destruct x; simpl; try discriminate. intros _.
  destruct y as [ | [ | ] | | ]; reflexivity.
Qed.

Lemma Prim2SF_infinity_eq x : Prim2SF x = S754_infinity false -> x = infinity.
Proof. intros H. rewrite <- (SF2Prim_Prim2SF x), H. reflexivity. Qed.

Lemma scaled_inf_sq x y c s m e :
  Prim2SF c = S754_finite s m e ->
  is_inf x = true -> is_finite y = true ->
  (x - y) / c * ((x - y) / c) = infinity.
Proof.
  intros Hc Hx Hy. apply Prim2SF_infinity_eq.
  rewrite FloatAxioms.mul_spec. apply SFmul_inf_self.
  rewrite FloatAxioms.div_spec, Hc. apply SFdiv_inf_finite.
  rewrite FloatAxioms.sub_spec. now apply SFsub_inf_finite.
Qed.

Lemma scaled_number_sq_nonneg x y c s m e :
  Prim2SF c = S754_finite s m e ->
  is_nan x = false -> is_finite y = true ->
  nonneg ((x - y) / c * ((x - y) / c)) = true.
Proof.
  intros Hc Hx Hy. apply mul_self_nonneg. eapply div_not_nan; [ exact Hc | ].
  unfold is_nan. rewrite FloatAxioms.sub_spec. now apply SFsub_number_finite_not_nan.
Qed.

Lemma days_sq_nonneg d1 d2 c s m e :
  Prim2SF c = S754_finite s m e ->
  nonneg (of_int (GoInt.sub d1 d2) / c * (of_int (GoInt.sub d1 d2) / c)) = true.
Proof.
  intros Hc. apply mul_self_nonneg. eapply div_not_nan; [ exact Hc | ].
  apply of_int_not_nan.
Qed.

Lemma add_nonneg_infinity x : nonneg x = true -> x + infinity = infinity.
Proof.
  intros H. apply Prim2SF_infinity_eq. rewrite FloatAxioms.add_spec.
  now apply SFadd_nonneg_inf.
Qed.

Lemma add_infinity_nonneg y : nonneg y = true -> infinity + y = infinity.
Proof.
  intros H. apply Prim2SF_infinity_eq. rewrite FloatAxioms.add_spec.
  now apply SFadd_inf_nonneg.
Qed.

Lemma calculateDistance_infinite_query d1 m1 r1 d2 m2 r2 :
  is_nan m1 = false -> is_nan r1 = false ->
  is_inf m1 = true \/ is_inf r1 = true ->
  is_finite m2 = true -> is_finite r2 = true ->
  calculateDistance d1 m1 r1 d2 m2 r2 = infinity.
Proof.
  intros Hm1 Hr1 Hinf Hm2 Hr2. unfold calculateDistance.
  pose proof (days_sq_nonneg d1 d2 20 _ _ _ eq_refl) as Hd.
  destruct Hinf as [Hi | Hi].
  - rewrite (scaled_inf_sq m1 m2 2000 _ _ _ eq_refl Hi Hm2).
    rewrite (add_nonneg_infinity _ Hd).
    rewrite add_infinity_nonneg; [ reflexivity | ].
    now apply (scaled_number_sq_nonneg r1 r2 3000 _ _ _ eq_refl).
  - rewrite (scaled_inf_sq r1 r2 3000 _ _ _ eq_refl Hi Hr2).
    rewrite add_nonneg_infinity; [ reflexivity | ].
    apply float_add_nonneg; [ exact Hd | ].
    now apply (scaled_number_sq_nonneg m1 m2 2000 _ _ _ eq_refl).
Qed.

Lemma Abs_sub_inf_not_lt x y t :
  is_finite x = true -> is_inf y = true -> (Abs (x - y) <? t) = false.
Proof.
  intros Hx Hy. unfold Abs. rewrite FloatAxioms.ltb_spec, abs_spec.
  apply SFltb_abs_inf. rewrite FloatAxioms.sub_spec. now apply SFsub_finite_inf.
Qed.

Lemma isExactMatch_infinite_query d m r c :
  is_inf m = true \/ is_inf r = true ->
  is_finite (MilesTraveled (Input c)) = true ->
  is_finite (TotalReceiptsAmount (Input c)) = true ->
  isExactMatch d m r c = false.
Proof.
  unfold isExactMatch. intros [H | H] Hm Hr.
  - rewrite (Abs_sub_inf_not_lt _ _ _ Hm H). now rewrite andb_false_r.
  - rewrite (Abs_sub_inf_not_lt _ _ _ Hr H). now rewrite andb_false_r.
Qed.

Lemma weightOf_infinite nb : Distance nb = infinity -> weightOf nb = 0.
Proof. unfold weightOf. intros ->. reflexivity. Qed.

Lemma accumulate_cons nb sel ws tw :
  accumulate (nb :: sel) ws tw
  = accumulate sel (ws + weightOf nb * Output nb) (tw + weightOf nb).
Proof. reflexivity. Qed.

Lemma accumulate_infinite sel : forall ws,
  Forall (fun nb => Distance nb = infinity) sel -> snd (accumulate sel ws 0) = 0.
Proof.
  induction sel as [ | nb sel IH]; intros ws H; [ reflexivity | ].
  inversion H as [ | ? ? Hd Hs]; subst.
  rewrite accumulate_cons, (weightOf_infinite nb Hd).
  change (0 + 0) with 0. now apply IH.
Qed.

Lemma ascending_same_distance (l : list Neighbor) (d : float) :
  (d <? d) = false ->
  Forall (fun nb => Distance nb = d) l -> GoSort.ascending lessDistance l.
Proof.
  intros Hd H i j _. unfold GoSort.Less.
  destruct (nth_error l j) as [x | ] eqn:Ex; [ | reflexivity ].
  destruct (nth_error l i) as [y | ] eqn:Ey; [ | reflexivity ].
  rewrite Forall_forall in H.
  unfold lessDistance.
  rewrite (H x (nth_error_In _ _ Ex)), (H y (nth_error_In _ _ Ey)). exact Hd.
Qed.

(** X6.  A query with an infinite coordinate (and no NaN) against finite
    records matches none of them and is infinitely far from each; all
    weights are [0], the ranking moves nothing, and the call falls back to
    the output of the first record of the TrainingSet (lines 129-132), for
    every [k]. *)
Theorem infinite_query_returns_first_record
  (tripDays : Z) (miles receipts : float) (c : TestCase) (training : TrainingData) (k : Z) :
  is_nan miles = false -> is_nan receipts = false ->
  is_inf miles = true \/ is_inf receipts = true ->
  Forall (fun c => is_finite (MilesTraveled (Input c)) = true
                   /\ is_finite (TotalReceiptsAmount (Input c)) = true) (c :: training) ->
  predictWeightedKNN tripDays miles receipts (c :: training) k
  = Returns (ExpectedOutput c).
Proof.
  intros Hm Hr Hinf Hfin. rewrite Forall_forall in Hfin.
  assert (Hfind : find (isExactMatch tripDays miles receipts) (c :: training) = None).
  { assert (H : forall l, (forall x, In x l -> In x (c :: training)) ->
                     find (isExactMatch tripDays miles receipts) l = None).
    { induction l as [ | x l IH]; intros Hl; simpl; [ reflexivity | ].
      destruct (Hfin x (Hl x (or_introl eq_refl))) as [Hxm Hxr].
      rewrite (isExactMatch_infinite_query _ _ _ _ Hinf Hxm Hxr).
      apply IH. intros y Hy. apply Hl. now right. }
    apply H. auto. }
  assert (Hall : Forall (fun nb => Distance nb = infinity)
                   (neighborsOf tripDays miles receipts (c :: training))).
  { apply Forall_forall. intros nb Hin. unfold neighborsOf in Hin.
    apply in_map_iff in Hin. destruct Hin as (x & <- & Hx).
    destruct (Hfin x Hx) as [Hxm Hxr].
    now apply calculateDistance_infinite_query. }
  destruct (predictWeightedKNN_ranked tripDays miles receipts (c :: training) k Hfind)
    as (sorted & Hs & _ & ->).
  rewrite (Slice_ascending lessDistance _
             (ascending_same_distance _ infinity eq_refl Hall)) in Hs.
  injection Hs as <-.
  unfold finish. rewrite accumulate_infinite.
  - reflexivity.
  - apply Forall_forall. intros nb Hin. rewrite Forall_forall in Hall. apply Hall.
    rewrite <- (firstn_skipn (clamp k (length (neighborsOf tripDays miles receipts
                                                  (c :: training)))) _).
    apply in_or_app. now left.
Qed.

Lemma infinite_query_returns_first_record_witness :
  predictWeightedKNN 3 infinity 50 (mkCase 5 100 50 200 :: [mkCase 4 100 50 100]) 5
  = Returns (ExpectedOutput (mkCase 5 100 50 200)).
Proof.
  apply (infinite_query_returns_first_record 3 infinity 50
           (mkCase 5 100 50 200) [mkCase 4 100 50 100] 5).
  - reflexivity.
  - reflexivity.
  - left. reflexivity.
  - repeat constructor.
Defined.

(** X7.  When the records are in ascending order of distance to the query
    already (and none matches), the ranking keeps the TrainingSet order, so
    the neighbours aggregated are those of the first [min(k, n)] records, in
    the order of the file. *)
Theorem ascending_training_keeps_order
  (tripDays : Z) (miles receipts : float) (training : TrainingData) (k : Z) :
  find (isExactMatch tripDays miles receipts) training = None ->
  GoSort.ascending lessDistance (neighborsOf tripDays miles receipts training) ->
  GoSort.Slice lessDistance (neighborsOf tripDays miles receipts training)
  = Some (neighborsOf tripDays miles receipts training)
  /\ predictWeightedKNN tripDays miles receipts training k
     = finish (accumulate (firstn (clamp k (length training))
                             (neighborsOf tripDays miles receipts training)) 0 0)
         (neighborsOf tripDays miles receipts training).
Proof.
  intros Hfind Hasc.
  pose proof (Slice_ascending lessDistance _ Hasc) as Hs. split; [ exact Hs | ].
  destruct (predictWeightedKNN_ranked tripDays miles receipts training k Hfind)
    as (sorted & Hs' & _ & ->).
  rewrite Hs in Hs'. injection Hs' as <-. now rewrite neighborsOf_length.
Qed.

Lemma ascending_training_keeps_order_witness :
  GoSort.Slice lessDistance
    (neighborsOf 3 100 50 [mkCase 4 100 50 100; mkCase 5 100 50 200; mkCase 5 100 50 300])
  = Some (neighborsOf 3 100 50
            [mkCase 4 100 50 100; mkCase 5 100 50 200; mkCase 5 100 50 300])
  /\ predictWeightedKNN 3 100 50
       [mkCase 4 100 50 100; mkCase 5 100 50 200; mkCase 5 100 50 300] 2
     = finish (accumulate
                 (firstn (clamp 2 (length [mkCase 4 100 50 100; mkCase 5 100 50 200;
                                           mkCase 5 100 50 300]))
                    (neighborsOf 3 100 50
                       [mkCase 4 100 50 100; mkCase 5 100 50 200; mkCase 5 100 50 300]))
                 0 0)
         (neighborsOf 3 100 50
            [mkCase 4 100 50 100; mkCase 5 100 50 200; mkCase 5 100 50 300]).
Proof.
  apply (ascending_training_keeps_order 3 100 50
           [mkCase 4 100 50 100; mkCase 5 100 50 200; mkCase 5 100 50 300] 2).
  - vm_compute. reflexivity.
  - apply ForallOrdPairs_ascending. repeat constructor.
Defined.

End SpecialQueries.

(* ================================================================= *)
(** * [sort.Slice] sorts *)

(** For a comparison [lt] that is a strict weak order on the elements of
    the slice, every step of [pdqsort_func] is followed through: what is
    proved of a step is what it leaves of its range in order
    ([sorted_range]) and that it has touched nothing else ([within]).
    That the steps end is [GoSortFacts.Slice_rearranges]. *)
Section Sorting.

Import GoSort GoSortFacts GoSortSpec.

Context {A : Type}.
Variable lt : A -> A -> bool.
Variable ok : A -> Prop.

Hypothesis less_irrefl : forall x, ok x -> lt x x = false.
Hypothesis less_trans : forall x y z, ok x -> ok y -> ok z ->
  lt x y = true -> lt y z = true -> lt x z = true.
Hypothesis less_negtrans : forall x y z, ok x -> ok y -> ok z ->
  lt x y = false -> lt y z = false -> lt x z = false.

Implicit Types data : list A.

Local Abbreviation valid := (GoSortSpec.valid ok).
Local Abbreviation sorted_range := (GoSortSpec.sorted_range lt).
Local Abbreviation sorted_but := (GoSortSpec.sorted_but lt).
Local Abbreviation heap_node := (GoSortSpec.heap_node lt).
Local Abbreviation heap_but := (GoSortSpec.heap_but lt).
Local Abbreviation partitioning := (GoSortSpec.partitioning lt).
Local Abbreviation partitioned := (GoSortSpec.partitioned lt).
Local Abbreviation partitioningEqual := (GoSortSpec.partitioningEqual lt).
Local Abbreviation bounded_below := (GoSortSpec.bounded_below lt).

Lemma less_asym x y : ok x -> ok y -> lt x y = true -> lt y x = false.
Proof.
  intros Hx Hy H. destruct (lt y x) eqn:E; [ | reflexivity ].
  rewrite <- (less_irrefl x Hx). symmetry. exact (less_trans x y x Hx Hy Hx H E).
Qed.

Lemma less_le_trans x y z : ok x -> ok y -> ok z ->
  lt x y = true -> lt z y = false -> lt x z = true.
Proof.
  intros Hx Hy Hz H1 H2. destruct (lt x z) eqn:E; [ reflexivity | ].
  rewrite <- H1. symmetry. exact (less_negtrans x z y Hx Hz Hy E H2).
Qed.

Lemma le_less_trans x y z : ok x -> ok y -> ok z ->
  lt y x = false -> lt y z = true -> lt x z = true.
Proof.
  intros Hx Hy Hz H1 H2. destruct (lt x z) eqn:E; [ reflexivity | ].
  rewrite <- H2. symmetry. exact (less_negtrans y x z Hy Hx Hz H1 E).
Qed.

Lemma within_refl data a b : within data data a b.
Proof. split; auto. intros i Ha Hb. exists i. auto. Qed.

Lemma within_trans (d1 d2 d3 : list A) a b :
  within d1 d2 a b -> within d2 d3 a b -> within d1 d3 a b.
Proof.
  intros [L1 O1 I1] [L2 O2 I2]. split.
  - congruence.
  - intros i H. rewrite O2, O1; auto.
  - intros i Ha Hb. destruct (I2 i Ha Hb) as (j & Hja & Hjb & E).
    destruct (I1 j Hja Hjb) as (k & Hka & Hkb & E').
    exists k. repeat split; auto. congruence.
Qed.

Lemma within_weaken (d1 d2 : list A) a b a' b' :
  a' <= a -> b <= b' -> within d1 d2 a b -> within d1 d2 a' b'.
Proof.
  intros Ha Hb [L O I]. split; auto.
  - intros i H. apply O. lia.
  - intros i Hia Hib.
    destruct (Nat.lt_ge_cases i a) as [H | H].
    { exists i. rewrite O by lia. auto. }
    destruct (Nat.lt_ge_cases i b) as [H' | H'].
    + destruct (I i H H') as (j & ? & ? & E). exists j. repeat split; auto; lia.
    + exists i. rewrite O by lia. auto.
Qed.

Lemma within_valid (d1 d2 : list A) a b : within d1 d2 a b -> valid d1 -> valid d2.
Proof.
  intros [L O I] Hv i x E.
  destruct (Nat.lt_ge_cases i a) as [H | H].
  { rewrite O in E by lia. eauto. }
  destruct (Nat.lt_ge_cases i b) as [H' | H'].
  - destruct (I i H H') as (j & _ & _ & E'). rewrite E' in E. eauto.
  - rewrite O in E by lia. eauto.
Qed.

(** A property of a range survives a change within that range, within a
    part of it, or away from it. *)
Lemma within_range_all (Q : A -> Prop) (d1 d2 : list A) a b c d :
  within d1 d2 a b -> (c <= a /\ b <= d) \/ d <= a \/ b <= c ->
  range_all Q d1 c d -> range_all Q d2 c d.
Proof.
  intros [L O I] Hr H i x Hc Hd E.
  destruct (Nat.lt_ge_cases i a) as [Ha | Ha].
  { rewrite O in E by lia. eauto. }
  destruct (Nat.lt_ge_cases i b) as [Hb | Hb].
  - destruct (I i Ha Hb) as (j & ? & ? & E'). rewrite E' in E.
    apply (H j x); auto; lia.
  - rewrite O in E by lia. eauto.
Qed.

Lemma within_sorted_range (d1 d2 : list A) a b c d :
  within d1 d2 a b -> d <= a \/ b <= c ->
  sorted_range d1 c d -> sorted_range d2 c d.
Proof.
  intros [L O I] Hr H i j x y Hc Hij Hd Ei Ej.
  rewrite O in Ei by lia. rewrite O in Ej by lia. eauto.
Qed.

Lemma length_update (data : list A) i x : length (update data i x) = length data.
Proof.
  revert i. induction data as [ | y l IH]; intros [ | i]; simpl; auto.
Qed.

Lemma length_Swap (data : list A) i j : length (Swap data i j) = length data.
Proof.
  unfold Swap. destruct (nth_error data i), (nth_error data j); auto.
  now rewrite !length_update.
Qed.

Lemma nth_error_Swap (data : list A) i j k :
  i < length data -> j < length data ->
  nth_error (Swap data i j) k
  = if k =? j then nth_error data i
    else if k =? i then nth_error data j
    else nth_error data k.
Proof.
  intros Hi Hj. unfold Swap.
  destruct (nth_error data i) as [x | ] eqn:Ei;
    [ | apply nth_error_None in Ei; lia ].
  destruct (nth_error data j) as [y | ] eqn:Ej;
    [ | apply nth_error_None in Ej; lia ].
  destruct (Nat.eqb_spec k j) as [-> | Hkj].
  - apply (nth_error_update_eq _ _ _ (if Nat.eq_dec i j then y else y)).
    destruct (Nat.eq_dec i j) as [-> | Hn].
    + eapply nth_error_update_eq; eauto.
    + now rewrite nth_error_update_neq.
  - rewrite nth_error_update_neq by auto.
    destruct (Nat.eqb_spec k i) as [-> | Hki].
    + eapply nth_error_update_eq; eauto.
    + now rewrite nth_error_update_neq by auto.
Qed.

Lemma Swap_out_of_range (data : list A) i j :
  length data <= i \/ length data <= j -> Swap data i j = data.
Proof.
  intros H. unfold Swap.
  destruct (nth_error data i) as [x | ] eqn:Ei; [ | reflexivity ].
  destruct (nth_error data j) as [y | ] eqn:Ej; [ | reflexivity ].
  assert (i < length data) by (apply nth_error_Some; congruence).
  assert (j < length data) by (apply nth_error_Some; congruence).
  lia.
Qed.

Lemma within_Swap data i j a b :
  a <= i -> i < b -> a <= j -> j < b -> within data (Swap data i j) a b.
Proof.
  intros Hai Hib Haj Hjb.
  destruct (Nat.lt_ge_cases i (length data)) as [Hi | Hi];
    [ | rewrite Swap_out_of_range by lia; apply within_refl ].
  destruct (Nat.lt_ge_cases j (length data)) as [Hj | Hj];
    [ | rewrite Swap_out_of_range by lia; apply within_refl ].
  split.
  - apply length_Swap.
  - intros k Hk. rewrite nth_error_Swap by auto.
    destruct (Nat.eqb_spec k j); [ lia | ].
    destruct (Nat.eqb_spec k i); [ lia | ]. reflexivity.
  - intros k Hka Hkb. rewrite nth_error_Swap by auto.
    destruct (Nat.eqb_spec k j); [ exists i; auto | ].
    destruct (Nat.eqb_spec k i); [ exists j; auto | ].
    exists k; auto.
Qed.

Lemma Less_true data i j :
  Less lt data i j = true ->
  exists x y, nth_error data i = Some x /\ nth_error data j = Some y /\ lt x y = true.
Proof.
  unfold Less. destruct (nth_error data i) as [x | ]; [ | discriminate ].
  destruct (nth_error data j) as [y | ]; [ | discriminate ]. eauto.
Qed.

Lemma Less_at data i j x y :
  nth_error data i = Some x -> nth_error data j = Some y ->
  Less lt data i j = lt x y.
Proof. unfold Less. now intros -> ->. Qed.

Lemma nth_error_in_range (data : list A) i :
  i < length data -> exists x, nth_error data i = Some x.
Proof.
  intros H. destruct (nth_error data i) as [x | ] eqn:E; eauto.
  apply nth_error_None in E. lia.
Qed.

Lemma nth_error_range (data : list A) i x : nth_error data i = Some x -> i < length data.
Proof. intros H. apply nth_error_Some. congruence. Qed.

(** ** The insertion sort *)

Lemma sorted_but_stop data a j hi :
  valid data -> a <= j ->
  (j = a \/ exists x y, nth_error data j = Some x /\ nth_error data (j - 1) = Some y
                        /\ lt x y = false) ->
  sorted_but data a j hi -> sorted_range data a hi.
Proof.
  intros Hv Haj Hstop [H1 H2] i1 i2 x y Ha Hlt Hhi E1 E2.
  destruct (Nat.eq_dec i1 j) as [-> | Hn1]; [ eauto | ].
  destruct (Nat.eq_dec i2 j) as [-> | Hn2]; [ | eauto ].
  destruct Hstop as [-> | (xj & yp & Ej & Ep & Hle)]; [ lia | ].
  rewrite E2 in Ej. injection Ej as <-.
  destruct (Nat.eq_dec i1 (j - 1)) as [-> | Hn].
  - rewrite E1 in Ep. injection Ep as <-. exact Hle.
  - apply (less_negtrans y yp x); eauto.
    apply (H1 i1 (j - 1)); auto; lia.
Qed.

Lemma insertionSort_shift_sorted a hi : forall j data,
  valid data -> a <= j -> j < hi -> hi <= length data ->
  sorted_but data a j hi ->
  sorted_range (insertionSort_shift lt data a j) a hi
  /\ within data (insertionSort_shift lt data a j) a hi.
Proof.
  induction j as [ | j IH]; intros data Hv Haj Hhi Hlen Hs.
  - simpl. split; [ | apply within_refl ].
    apply (sorted_but_stop data a 0 hi); auto. left. lia.
  - cbn [insertionSort_shift].
    destruct (nth_error_in_range data (S j)) as [x Ex]; [ lia | ].
    destruct (nth_error_in_range data j) as [y Ey]; [ lia | ].
    rewrite (Less_at _ _ _ _ _ Ex Ey).
    destruct (Nat.ltb_spec a (S j)) as [Ha | Ha]; cbn [andb].
    2:{ split; [ | apply within_refl ].
        apply (sorted_but_stop data a (S j) hi); auto. left. lia. }
    destruct (lt x y) eqn:Hxy.
    2:{ split; [ | apply within_refl ].
        apply (sorted_but_stop data a (S j) hi); auto. right.
        exists x, y. rewrite Nat.sub_1_r. simpl. auto. }
    assert (Hw : within data (Swap data (S j) j) a hi) by (apply within_Swap; lia).
    destruct (IH (Swap data (S j) j)) as [IH1 IH2]; try lia.
    + exact (within_valid _ _ _ _ Hw Hv).
    + rewrite length_Swap. exact Hlen.
    + destruct Hs as [H1 H2]. split.
      * intros i1 i2 x1 y1 Hai Hlt Hi2 Hn1 Hn2.
        rewrite !nth_error_Swap by lia.
        destruct (Nat.eqb_spec i1 j); [ lia | ].
        destruct (Nat.eqb_spec i2 j); [ lia | ].
        destruct (Nat.eqb_spec i1 (S j)) as [-> | ];
          destruct (Nat.eqb_spec i2 (S j)) as [-> | ]; intros E1 E2; try lia.
        -- apply (H1 j i2); auto; lia.
        -- apply (H1 i1 j); auto; lia.
        -- apply (H1 i1 i2); auto.
      * intros i2 x1 y1 Hlt Hi2.
        rewrite !nth_error_Swap by lia.
        rewrite Nat.eqb_refl.
        destruct (Nat.eqb_spec i2 j); [ lia | ].
        intros E1 E2. rewrite Ex in E1. injection E1 as <-.
        destruct (Nat.eqb_spec i2 (S j)) as [-> | ].
        -- rewrite Ey in E2. injection E2 as <-. apply less_asym; eauto.
        -- apply (H2 i2); auto; lia.
    + split; [ exact IH1 | ]. eapply within_trans; eauto.
Qed.

Lemma sorted_range_but data a j :
  sorted_range data a j -> sorted_but data a j (j + 1).
Proof.
  intros H. split.
  - intros i1 i2 x y Ha Hlt Hhi Hn1 Hn2. apply H; auto; lia.
  - intros i2 x y Hlt Hhi. lia.
Qed.

Lemma sorted_range_short data a b : b <= a + 1 -> sorted_range data a b.
Proof. intros H i j x y Ha Hlt Hb. lia. Qed.

Lemma insertionSort_loop_sorted a : forall n i data,
  valid data -> a < i -> i + n <= length data -> sorted_range data a i ->
  let d := fold_left (fun d i => insertionSort_shift lt d a i) (seq i n) data in
  sorted_range d a (i + n) /\ within data d a (i + n).
Proof.
  induction n as [ | n IH]; intros i data Hv Ha Hlen Hs; cbn [seq fold_left].
  - rewrite Nat.add_0_r. split; [ exact Hs | apply within_refl ].
  - destruct (insertionSort_shift_sorted a (i + 1) i data) as [H1 H2]; auto; try lia.
    { now apply sorted_range_but. }
    destruct (IH (S i) (insertionSort_shift lt data a i)) as [H3 H4]; try lia.
    + exact (within_valid _ _ _ _ H2 Hv).
    + rewrite (within_length _ _ _ _ H2). lia.
    + now rewrite Nat.add_1_r in H1.
    + replace (i + S n) with (S i + n) by lia. split; [ exact H3 | ].
      eapply within_trans; [ | exact H4 ].
      eapply within_weaken; [ | | exact H2 ]; lia.
Qed.

Lemma insertionSort_func_sorted data a b :
  valid data -> b <= length data ->
  sorted_range (insertionSort_func lt data a b) a b
  /\ within data (insertionSort_func lt data a b) a b.
Proof.
  intros Hv Hlen. unfold insertionSort_func.
  destruct (Nat.le_gt_cases b (a + 1)) as [H | H].
  - replace (b - (a + 1)) with 0 by lia. simpl.
    split; [ now apply sorted_range_short | apply within_refl ].
  - destruct (insertionSort_loop_sorted a (b - (a + 1)) (a + 1) data) as [H1 H2];
      auto; try lia.
    { apply sorted_range_short. lia. }
    replace (a + 1 + (b - (a + 1))) with b in * by lia. auto.
Qed.

(** ** The heap sort *)

Ltac swap_cases :=
  rewrite ?nth_error_Swap by lia;
  repeat match goal with
  | |- context [?a =? ?b] => destruct (Nat.eqb_spec a b)
  end.

Lemma siftDown_loop_heap first lo hi : forall fuel data root d',
  valid data -> first + hi <= length data -> lo <= root ->
  heap_but data first lo hi root ->
  siftDown_loop lt fuel data root hi first = Some d' ->
  (forall r, lo <= r -> heap_node d' first hi r) /\ within data d' first (first + hi).
Proof.
  induction fuel as [ | fuel IH]; intros data root d' Hv Hlen Hlo [Hb1 Hb2] E;
    [ discriminate | ].
  cbn [siftDown_loop] in E.
  destruct (Nat.leb_spec hi (2 * root + 1)) as [Hc | Hc].
  { injection E as <-. split; [ | apply within_refl ].
    intros r Hr. destruct (Nat.eq_dec r root) as [-> | Hn]; [ | auto ].
    intros c x y Hcc Hchi. lia. }
  set (child := if _ && _ then _ else _) in E.
  destruct (nth_error_in_range data (first + root)) as [xr Er]; [ lia | ].
  destruct (nth_error_in_range data (first + (2 * root + 1))) as [x1 E1]; [ lia | ].
  assert (Hmax : exists xc, nth_error data (first + child) = Some xc
                   /\ (child = 2 * root + 1 \/ child = 2 * root + 2) /\ child < hi
                   /\ forall c y, c = 2 * root + 1 \/ c = 2 * root + 2 -> c < hi ->
                        nth_error data (first + c) = Some y -> lt xc y = false).
  { subst child. destruct (Nat.ltb_spec (2 * root + 1 + 1) hi) as [H2 | H2]; cbn [andb].
    - destruct (nth_error_in_range data (first + (2 * root + 2))) as [x2 E2]; [ lia | ].
      replace (first + (2 * root + 1) + 1) with (first + (2 * root + 2)) by lia.
      rewrite (Less_at _ _ _ _ _ E1 E2).
      destruct (lt x1 x2) eqn:H12.
      + exists x2. replace (2 * root + 1 + 1) with (2 * root + 2) by lia.
        repeat split; auto; try lia.
        intros c y [-> | ->] _ Ec.
        * rewrite E1 in Ec. injection Ec as <-. apply less_asym; eauto.
        * rewrite E2 in Ec. injection Ec as <-. eauto.
      + exists x1. repeat split; auto; try lia.
        intros c y [-> | ->] _ Ec.
        * rewrite E1 in Ec. injection Ec as <-. eauto.
        * rewrite E2 in Ec. injection Ec as <-. exact H12.
    - exists x1. repeat split; auto; try lia.
      intros c y [-> | ->] Hchi Ec; [ | lia ].
      rewrite E1 in Ec. injection Ec as <-. eauto. }
  clearbody child. destruct Hmax as (xc & Ec & Hchild & Hchi & Hmax).
  rewrite (Less_at _ _ _ _ _ Er Ec) in E.
  destruct (lt xr xc) eqn:Hrc; cbn [negb] in E.
  2:{ injection E as <-. split; [ | apply within_refl ].
      intros r Hr. destruct (Nat.eq_dec r root) as [-> | Hn]; [ | auto ].
      intros c x y Hcc Hc' Ex Ey. rewrite Er in Ex. injection Ex as <-.
      apply (less_negtrans xr xc y); eauto. }
  assert (Hw : within data (Swap data (first + root) (first + child)) first (first + hi))
    by (apply within_Swap; lia).
  destruct (IH (Swap data (first + root) (first + child)) child d') as [IH1 IH2]; auto.
  - exact (within_valid _ _ _ _ Hw Hv).
  - now rewrite length_Swap.
  - lia.
  - split.
    + intros r Hr Hn c x y Hcc Hc'. swap_cases; try lia; intros Ex Ey.
      * (* r = root, c = child *)
        rewrite Er in Ey. rewrite Ec in Ex. injection Ex as <-. injection Ey as <-.
        apply less_asym; eauto.
      * (* r = root, other child *)
        rewrite Ec in Ex. injection Ex as <-.
        apply (Hmax c); auto. replace r with root in Hcc by lia. exact Hcc.
      * (* c = root *)
        rewrite Ec in Ey. injection Ey as <-.
        apply (Hb2 r child); auto; lia.
      * apply (Hb1 r Hr ltac:(lia) c); auto.
    + intros p c x y Hp Hpc Hcc Hc'. swap_cases; try lia; intros Ex Ey.
      rewrite Ec in Ex. injection Ex as <-.
      apply (Hb1 child ltac:(lia) ltac:(lia) c); auto.
  - split; [ exact IH1 | ]. eapply within_trans; eauto.
Qed.

Lemma heap_node_fewer data first hi hi' r :
  hi' <= hi -> heap_node data first hi r -> heap_node data first hi' r.
Proof. intros H Hn c x y Hc Hhi. apply Hn; auto. lia. Qed.

(** The root of a heap is not less than any element of the heap. *)
Lemma heap_root_max data first hi :
  valid data -> first + hi <= length data ->
  (forall r, heap_node data first hi r) ->
  forall i x y, i < hi -> nth_error data (first + i) = Some x ->
    nth_error data (first + 0) = Some y -> lt y x = false.
Proof.
  intros Hv Hlen Hh i. induction i as [i IH] using lt_wf_ind.
  intros x y Hi Ex Ey.
  destruct i as [ | i].
  { rewrite Ex in Ey. injection Ey as <-. eauto. }
  pose proof (Nat.div_mod_eq i 2) as Hdiv.
  pose proof (Nat.mod_upper_bound i 2 ltac:(lia)) as Hmod.
  set (p := i / 2) in *.
  destruct (nth_error_in_range data (first + p)) as [xp Ep]; [ lia | ].
  apply (less_negtrans y xp x); eauto.
  - apply (IH p); auto; lia.
  - apply (Hh p (S i)); auto; lia.
Qed.

Lemma for_down_inv (I : nat -> list A -> Prop) body : forall n data d',
  (forall i d d1, i < n -> I (S i) d -> body d i = Some d1 -> I i d1) ->
  I n data -> for_down n body data = Some d' -> I 0 d'.
Proof.
  induction n as [ | n IH]; intros data d' Hstep Hn E; simpl in E.
  - now injection E as <-.
  - destruct (body data n) as [d1 | ] eqn:Eb; [ | discriminate ].
    apply (IH d1 d');
      [ intros i d d2 Hi; apply Hstep; lia | apply (Hstep n data d1); auto | exact E ].
Qed.

Lemma heapSort_func_sorted data a b d' :
  valid data -> a <= b -> b <= length data ->
  heapSort_func lt data a b = Some d' ->
  sorted_range d' a b /\ within data d' a b.
Proof.
  intros Hv Hab Hlen E. unfold heapSort_func in E.
  set (hi := b - a) in *.
  assert (Hb : a + hi = b) by (subst hi; lia).
  destruct (for_down _ _ data) as [d1 | ] eqn:E1; [ | discriminate ].
  (* building the heap *)
  apply (for_down_inv
           (fun i d => valid d /\ within data d a b
                       /\ forall r, i <= r -> heap_node d a hi r)) in E1.
  - destruct E1 as (Hv1 & Hw1 & Hh1).
    (* taking the greatest element out, again and again *)
    apply (for_down_inv
             (fun i d => valid d /\ within data d a b
                         /\ (forall r, heap_node d a i r)
                         /\ sorted_range d (a + i) b
                         /\ forall p q x y, p < i -> i <= q -> q < hi ->
                              nth_error d (a + p) = Some x ->
                              nth_error d (a + q) = Some y -> lt y x = false)) in E.
    + destruct E as (_ & Hw & _ & Hs & _). rewrite Nat.add_0_r in Hs. auto.
    + intros i d d2 Hi (Hvd & Hwd & Hhd & Hsd & Hcd) Ed.
      unfold siftDown_func in Ed.
      assert (Hld : length d = length data) by (apply (within_length _ _ _ _ Hwd)).
      assert (Hws : within d (Swap d a (a + i)) a b) by (apply within_Swap; lia).
      assert (Hvs : valid (Swap d a (a + i))) by (exact (within_valid _ _ _ _ Hws Hvd)).
      destruct (nth_error_in_range d (a + 0)) as [x0 E0]; [ lia | ].
      destruct (nth_error_in_range d (a + i)) as [xi Ei]; [ lia | ].
      assert (Hmax : forall p x, p < S i -> nth_error d (a + p) = Some x -> lt x0 x = false).
      { intros p x Hp Ex.
        exact (heap_root_max d a (S i) Hvd ltac:(lia) Hhd p x x0 Hp Ex E0). }
      apply (siftDown_loop_heap a 0 i) in Ed; auto.
      * destruct Ed as [Hh2 Hw2].
        assert (Hw2' : within (Swap d a (a + i)) d2 a b)
          by (eapply within_weaken; [ | | exact Hw2 ]; lia).
        split; [ exact (within_valid _ _ _ _ Hw2 Hvs) | ].
        split; [ eapply within_trans; [ exact Hwd | ];
                 eapply within_trans; [ exact Hws | exact Hw2' ] | ].
        split; [ intros r; apply Hh2; lia | ].
        split.
        -- apply (within_sorted_range _ _ _ _ _ _ Hw2); [ lia | ].
           intros i1 i2 x y H1 H2 H3. swap_cases; try lia; intros Ex Ey.
           ++ (* i1 = a + i *)
              rewrite Nat.add_0_r in E0. rewrite E0 in Ex. injection Ex as <-.
              replace i2 with (a + (i2 - a)) in Ey by lia.
              apply (Hcd 0 (i2 - a)); auto; try lia. now rewrite Nat.add_0_r.
           ++ apply (Hsd i1 i2); auto. lia.
        -- intros p q x y Hp Hq Hqh Ex Ey.
           rewrite (within_outside _ _ _ _ Hw2) in Ey by lia.
           destruct (within_inside _ _ _ _ Hw2 (a + p)) as (j & Hj1 & Hj2 & Ej); try lia.
           rewrite Ej in Ex. clear Ej.
           revert Ex Ey. swap_cases; try lia; intros Ex Ey.
           ++ rewrite Nat.add_0_r in E0. rewrite E0 in Ey. injection Ey as <-.
              apply (Hmax i); auto.
           ++ apply (Hcd i q); auto; lia.
           ++ rewrite Nat.add_0_r in E0. rewrite E0 in Ey. injection Ey as <-.
              apply (Hmax (j - a)); try lia. now replace (a + (j - a)) with j by lia.
           ++ apply (Hcd (j - a) q); auto; try lia.
              now replace (a + (j - a)) with j by lia.
      * rewrite length_Swap. lia.
      * split.
        -- intros r _ Hr c x y Hc Hci. swap_cases; try lia.
           apply (Hhd r c); auto; lia.
        -- intros p c x y _ Hp. lia.
    + split; [ exact Hv1 | ]. split; [ exact Hw1 | ].
      split; [ intros r; apply Hh1; lia | ].
      split; [ intros i j x y; lia | intros p q x y; lia ].
  - intros i d d2 Hi (Hvd & Hwd & Hhd) Ed.
    unfold siftDown_func in Ed.
    assert (Hld : length d = length data) by (apply (within_length _ _ _ _ Hwd)).
    apply (siftDown_loop_heap a i hi) in Ed; auto; try lia.
    + destruct Ed as [Hh2 Hw2]. rewrite Hb in Hw2.
      split; [ exact (within_valid _ _ _ _ Hw2 Hvd) | ].
      split; [ eapply within_trans; eauto | exact Hh2 ].
    + split.
      * intros r Hr Hn. apply Hhd. lia.
      * intros p c x y Hp Hpc. lia.
  - split; [ exact Hv | ]. split; [ apply within_refl | ].
    intros r Hr c x y Hc Hchi.
    pose proof (Nat.div_mod_eq (hi - 1) 2) as Hdiv.
    pose proof (Nat.mod_upper_bound (hi - 1) 2 ltac:(lia)) as Hmod.
    lia.
Qed.

(** ** The partitions *)

Lemma scan_up_spec p n : forall i,
  i <= scan_up p i n /\ scan_up p i n <= i + n
  /\ (forall k, i <= k -> k < scan_up p i n -> p k = true)
  /\ (scan_up p i n < i + n -> p (scan_up p i n) = false).
Proof.
  induction n as [ | n IH]; intros i; simpl.
  - repeat split; try lia; intros; exfalso; lia.
  - destruct (p i) eqn:E.
    + destruct (IH (S i)) as (H1 & H2 & H3 & H4).
      repeat split; try lia.
      * intros k Hk Hk'. destruct (Nat.eq_dec k i) as [-> | ]; [ exact E | ].
        apply H3; lia.
      * intros H. apply H4. lia.
    + repeat split; try lia; auto; intros; exfalso; lia.
Qed.

Lemma scan_down_spec p n : forall j, n <= j ->
  j - n <= scan_down p j n /\ scan_down p j n <= j
  /\ (forall k, scan_down p j n < k -> k <= j -> p k = true)
  /\ (j - n < scan_down p j n -> p (scan_down p j n) = false).
Proof.
  induction n as [ | n IH]; intros j Hj; simpl.
  - repeat split; try lia; intros; exfalso; lia.
  - destruct (p j) eqn:E.
    + destruct (IH (j - 1) ltac:(lia)) as (H1 & H2 & H3 & H4).
      repeat split; try lia.
      * intros k Hk Hk'. destruct (Nat.eq_dec k j) as [-> | ]; [ exact E | ].
        apply H3; lia.
      * intros H. apply H4. lia.
    + repeat split; try lia; auto; intros; exfalso; lia.
Qed.

Lemma range_all_extend Q data a i i' :
  range_all Q data a i -> (forall k x, i <= k -> k < i' -> nth_error data k = Some x -> Q x) ->
  range_all Q data a i'.
Proof.
  intros H H' k x Ha Hk E.
  destruct (Nat.lt_ge_cases k i); [ apply (H k) | apply (H' k) ]; auto.
Qed.

Lemma range_all_extend_down Q data j j' b :
  range_all Q data (j + 1) b ->
  (forall k x, j' < k -> k <= j -> nth_error data k = Some x -> Q x) ->
  range_all Q data (j' + 1) b.
Proof.
  intros H H' k x Ha Hk E.
  destruct (Nat.lt_ge_cases j k); [ apply (H k) | apply (H' k) ]; auto; lia.
Qed.

(** One turn of the loop: the two scans, and the exchange if they have not
    met. *)
Lemma partition_scan p data a b i j :
  valid data -> b <= length data -> partitioning p data a b i j ->
  let i' := scan_up (fun i => Less lt data i a) i (j + 1 - i) in
  let j' := scan_down (fun j => negb (Less lt data j a)) j (j + 1 - i') in
  partitioning p data a b i' j'
  /\ (j' < i' -> j' + 1 = i')
  /\ (i' <= j' -> i' < j' /\ partitioning p (Swap data i' j') a b (i' + 1) (j' - 1)).
Proof.
  intros Hv Hlen (Hp & Hlo & Hhi & Hai & Hij & Hjb). intros i' j'.
  destruct (scan_up_spec (fun i => Less lt data i a) (j + 1 - i) i) as (U1 & U2 & U3 & U4).
  fold i' in U1, U2, U3, U4.
  destruct (scan_down_spec (fun j => negb (Less lt data j a)) (j + 1 - i') j ltac:(lia))
    as (D1 & D2 & D3 & D4).
  fold j' in D1, D2, D3, D4.
  assert (Hlo' : range_all (fun x => lt x p = true) data (a + 1) i').
  { apply (range_all_extend _ _ _ i); auto.
    intros k x Hk Hk' E. specialize (U3 k Hk Hk'). cbv beta in U3.
    now rewrite (Less_at _ _ _ _ _ E Hp) in U3. }
  assert (Hhi' : range_all (fun x => lt x p = false) data (j' + 1) b).
  { apply (range_all_extend_down _ _ j); auto.
    intros k x Hk Hk' E. specialize (D3 k Hk Hk'). cbv beta in D3.
    rewrite (Less_at _ _ _ _ _ E Hp) in D3. now destruct (lt x p). }
  split; [ repeat split; auto; lia | ].
  split; [ lia | ].
  intros Hle.
  destruct (nth_error_in_range data i') as [xi Ei]; [ lia | ].
  destruct (nth_error_in_range data j') as [xj Ej]; [ lia | ].
  assert (Hxi : lt xi p = false).
  { specialize (U4 ltac:(lia)). cbv beta in U4.
    now rewrite (Less_at _ _ _ _ _ Ei Hp) in U4. }
  assert (Hxj : lt xj p = true).
  { specialize (D4 ltac:(lia)). cbv beta in D4.
    rewrite (Less_at _ _ _ _ _ Ej Hp) in D4. now destruct (lt xj p). }
  assert (Hne : i' <> j') by (intros Heq; rewrite Heq in Ei; congruence).
  split; [ lia | ].
  repeat split; try lia.
  - rewrite nth_error_Swap by lia.
    destruct (Nat.eqb_spec a j'); [ lia | ]. destruct (Nat.eqb_spec a i'); [ lia | ].
    exact Hp.
  - intros k x Hk Hk'. swap_cases; try lia; intros E.
    + congruence.
    + apply (Hlo' k); auto. lia.
  - intros k x Hk Hk'. swap_cases; try lia; intros E.
    + congruence.
    + apply (Hhi' k); auto. lia.
Qed.

Lemma partition_loop_sorted p a b : forall fuel data i j d mid,
  valid data -> b <= length data -> partitioning p data a b i j ->
  partition_loop lt fuel data a i j = Some (d, mid) ->
  partitioning p d a b (mid + 1) mid /\ within data d (a + 1) b.
Proof.
  induction fuel as [ | fuel IH]; intros data i j d mid Hv Hlen HP E; [ discriminate | ].
  cbn [partition_loop] in E.
  destruct (partition_scan p data a b i j Hv Hlen HP) as (HP' & Hexit & Hgo).
  cbv zeta in HP', Hexit, Hgo.
  set (i' := scan_up _ i _) in *.
  set (j' := scan_down _ j _) in *.
  destruct (Nat.ltb_spec j' i') as [Hlt | Hge].
  - injection E as <- <-. split; [ | apply within_refl ].
    rewrite (Hexit Hlt). exact HP'.
  - destruct (Hgo Hge) as [Hlt HP2].
    destruct HP' as (_ & _ & _ & Q1 & Q2 & Q3).
    assert (Hw : within data (Swap data i' j') (a + 1) b) by (apply within_Swap; lia).
    destruct (IH (Swap data i' j') (i' + 1) (j' - 1) d mid) as [H1 H2]; auto.
    + exact (within_valid _ _ _ _ Hw Hv).
    + now rewrite length_Swap.
    + split; [ exact H1 | ]. eapply within_trans; eauto.
Qed.

Lemma partitioning_done p data a b mid :
  valid data -> b <= length data ->
  partitioning p data a b (mid + 1) mid ->
  partitioned p (Swap data mid a) a b mid /\ within data (Swap data mid a) a b.
Proof.
  intros Hv Hlen (Hp & Hlo & Hhi & Hai & Hij & Hjb).
  split; [ | apply within_Swap; lia ].
  split; [ lia | ]. split; [ lia | ].
  split; [ | split ].
  - rewrite nth_error_Swap by lia.
    destruct (Nat.eqb_spec mid a) as [-> | ]; [ exact Hp | ].
    now rewrite Nat.eqb_refl.
  - intros k x Hk Hk'. swap_cases; try lia; intros E.
    + apply (Hlo mid); auto; lia.
    + apply (Hlo k); auto; lia.
  - intros k x Hk Hk'. swap_cases; try lia; intros E.
    apply (Hhi k); auto.
Qed.

Lemma partition_func_sorted data a b pivot p d mid ap :
  valid data -> a < b -> b <= length data -> a <= pivot -> pivot < b ->
  nth_error data pivot = Some p ->
  partition_func lt data a b pivot = Some (d, mid, ap) ->
  partitioned p d a b mid /\ within data d a b.
Proof.
  intros Hv Hab Hlen Hpa Hpb Hp E. unfold partition_func in E.
  assert (Hw0 : within data (Swap data a pivot) a b) by (apply within_Swap; lia).
  assert (Hv0 : valid (Swap data a pivot)) by (exact (within_valid _ _ _ _ Hw0 Hv)).
  assert (Hl0 : b <= length (Swap data a pivot)) by now rewrite length_Swap.
  assert (HP0 : partitioning p (Swap data a pivot) a b (a + 1) (b - 1)).
  { split; [ | repeat split; try lia; intros k x; lia ].
    rewrite nth_error_Swap by lia.
    destruct (Nat.eqb_spec a pivot) as [<- | ]; [ exact Hp | ].
    now rewrite Nat.eqb_refl. }
  set (data0 := Swap data a pivot) in *.
  destruct (partition_scan p data0 a b (a + 1) (b - 1) Hv0 Hl0 HP0) as (HP' & Hexit & Hgo).
  cbv zeta in HP', Hexit, Hgo.
  set (i' := scan_up _ (a + 1) _) in *.
  set (j' := scan_down _ (b - 1) _) in *.
  destruct (Nat.ltb_spec j' i') as [Hlt | Hge].
  - injection E as <- <- <-.
    rewrite <- (Hexit Hlt) in HP'.
    destruct (partitioning_done p data0 a b j' Hv0 Hl0 HP') as [H1 H2].
    split; [ exact H1 | ]. eapply within_trans; eauto.
  - destruct (Hgo Hge) as [Hlt HP2].
    destruct HP' as (_ & _ & _ & Q1 & Q2 & Q3).
    assert (Hw1 : within data0 (Swap data0 i' j') a b) by (apply within_Swap; lia).
    destruct (partition_loop lt (S (b - a)) (Swap data0 i' j') a (i' + 1) (j' - 1))
      as [[d2 mid2] | ] eqn:El; [ | discriminate ].
    injection E as <- <- <-.
    apply (partition_loop_sorted p a b) in El; auto.
    + destruct El as [H1 H2].
      assert (Hw2 : within data0 d2 a b).
      { eapply within_trans; [ exact Hw1 | ].
        eapply within_weaken; [ | | exact H2 ]; lia. }
      destruct (partitioning_done p d2 a b mid2) as [H3 H4]; auto.
      * exact (within_valid _ _ _ _ Hw2 Hv0).
      * rewrite (within_length _ _ _ _ Hw2). exact Hl0.
      * split; [ exact H3 | ].
        eapply within_trans; [ exact Hw0 | ]. eapply within_trans; eauto.
    + exact (within_valid _ _ _ _ Hw1 Hv0).
    + now rewrite length_Swap.
Qed.

Lemma partitionEqual_loop_sorted p a b : forall fuel data i j d mid,
  valid data -> b <= length data -> partitioningEqual p data a b i j ->
  partitionEqual_loop lt fuel data a i j = Some (d, mid) ->
  partitioningEqual p d a b mid (mid - 1) /\ within data d (a + 1) b.
Proof.
  induction fuel as [ | fuel IH]; intros data i j d mid Hv Hlen HP E; [ discriminate | ].
  cbn [partitionEqual_loop] in E.
  destruct HP as (Hp & Hlo & Hhi & Hai & Hij & Hjb).
  destruct (scan_up_spec (fun i => negb (Less lt data a i)) (j + 1 - i) i)
    as (U1 & U2 & U3 & U4).
  set (i' := scan_up _ i _) in *.
  destruct (scan_down_spec (fun j => Less lt data a j) (j + 1 - i') j ltac:(lia))
    as (D1 & D2 & D3 & D4).
  set (j' := scan_down _ j _) in *.
  assert (Hlo' : range_all (fun x => lt p x = false) data (a + 1) i').
  { apply (range_all_extend _ _ _ i); auto.
    intros k x Hk Hk' Ek. specialize (U3 k Hk Hk'). cbv beta in U3.
    rewrite (Less_at _ _ _ _ _ Hp Ek) in U3. now destruct (lt p x). }
  assert (Hhi' : range_all (fun x => lt p x = true) data (j' + 1) b).
  { apply (range_all_extend_down _ _ j); auto.
    intros k x Hk Hk' Ek. specialize (D3 k Hk Hk'). cbv beta in D3.
    now rewrite (Less_at _ _ _ _ _ Hp Ek) in D3. }
  destruct (Nat.ltb_spec j' i') as [Hlt | Hge].
  - injection E as <- <-. split; [ | apply within_refl ].
    replace (i' - 1) with j' by lia. repeat split; auto; lia.
  - destruct (nth_error_in_range data i') as [xi Ei]; [ lia | ].
    destruct (nth_error_in_range data j') as [xj Ej]; [ lia | ].
    assert (Hxi : lt p xi = true).
    { specialize (U4 ltac:(lia)). cbv beta in U4.
      rewrite (Less_at _ _ _ _ _ Hp Ei) in U4. now destruct (lt p xi). }
    assert (Hxj : lt p xj = false).
    { specialize (D4 ltac:(lia)). cbv beta in D4.
      now rewrite (Less_at _ _ _ _ _ Hp Ej) in D4. }
    assert (Hne : i' <> j') by (intros Heq; rewrite Heq in Ei; congruence).
    assert (Hw : within data (Swap data i' j') (a + 1) b) by (apply within_Swap; lia).
    destruct (IH (Swap data i' j') (i' + 1) (j' - 1) d mid) as [H1 H2]; auto.
    + exact (within_valid _ _ _ _ Hw Hv).
    + now rewrite length_Swap.
    + repeat split; try lia.
      * rewrite nth_error_Swap by lia.
        destruct (Nat.eqb_spec a j'); [ lia | ]. destruct (Nat.eqb_spec a i'); [ lia | ].
        exact Hp.
      * intros k x Hk Hk'. swap_cases; try lia; intros E'.
        -- congruence.
        -- apply (Hlo' k); auto. lia.
      * intros k x Hk Hk'. swap_cases; try lia; intros E'.
        -- congruence.
        -- apply (Hhi' k); auto. lia.
    + split; [ exact H1 | ]. eapply within_trans; eauto.
Qed.

Lemma partitionEqual_func_sorted data a b pivot p d mid :
  valid data -> a < b -> b <= length data -> a <= pivot -> pivot < b ->
  nth_error data pivot = Some p ->
  partitionEqual_func lt data a b pivot = Some (d, mid) ->
  a < mid /\ mid <= b
  /\ range_all (fun x => lt p x = false) d a mid
  /\ range_all (fun x => lt p x = true) d mid b
  /\ within data d a b.
Proof.
  intros Hv Hab Hlen Hpa Hpb Hp E. unfold partitionEqual_func in E.
  assert (Hw0 : within data (Swap data a pivot) a b) by (apply within_Swap; lia).
  assert (Hv0 : valid (Swap data a pivot)) by (exact (within_valid _ _ _ _ Hw0 Hv)).
  apply (partitionEqual_loop_sorted p a b) in E; auto.
  - destruct E as [(Ha & Hlo & Hhi & H1 & H2 & H3) Hw].
    split; [ lia | ]. split; [ lia | ].
    split; [ | split ].
    + intros k x Hk Hk' Ek.
      destruct (Nat.eq_dec k a) as [-> | ].
      * rewrite Ha in Ek. injection Ek as <-.
        apply less_irrefl. apply (Hv pivot). exact Hp.
      * apply (Hlo k); auto; lia.
    + replace (mid - 1 + 1) with mid in Hhi by lia. exact Hhi.
    + eapply within_trans; [ exact Hw0 | ].
      eapply within_weaken; [ | | exact Hw ]; lia.
  - now rewrite length_Swap.
  - split; [ | repeat split; try lia; intros k x; lia ].
    rewrite nth_error_Swap by lia.
    destruct (Nat.eqb_spec a pivot) as [<- | ]; [ exact Hp | ].
    now rewrite Nat.eqb_refl.
Qed.

(** ** The pivot, and the steps that prepare a range *)

Lemma order2_func_in data i j swaps :
  (fst (fst (order2_func lt data i j swaps)) = i
   /\ snd (fst (order2_func lt data i j swaps)) = j)
  \/ (fst (fst (order2_func lt data i j swaps)) = j
      /\ snd (fst (order2_func lt data i j swaps)) = i).
Proof. unfold order2_func. destruct (Less lt data j i); simpl; auto. Qed.

Lemma median_func_in data i j k swaps :
  fst (median_func lt data i j k swaps) = i
  \/ fst (median_func lt data i j k swaps) = j
  \/ fst (median_func lt data i j k swaps) = k.
Proof.
  unfold median_func, order2_func.
  destruct (Less lt data j i); destruct (Less lt data k _); destruct (Less lt data _ _);
    simpl; auto.
Qed.

Lemma medianAdjacent_func_in data i swaps :
  i - 1 <= fst (medianAdjacent_func lt data i swaps)
  /\ fst (medianAdjacent_func lt data i swaps) <= i + 1.
Proof.
  unfold medianAdjacent_func.
  destruct (median_func_in data (i - 1) i (i + 1) swaps) as [-> | [-> | ->]]; lia.
Qed.

Lemma choosePivot_func_bounds data a b :
  a < b ->
  a <= fst (choosePivot_func lt data a b) /\ fst (choosePivot_func lt data a b) < b.
Proof.
  intros Hab. unfold choosePivot_func.
  set (l := b - a).
  pose proof (Nat.div_mod_eq l 4) as Hdiv.
  pose proof (Nat.mod_upper_bound l 4 ltac:(lia)) as Hmod.
  set (q := l / 4) in *.
  assert (Hl : a + l = b) by (subst l; lia).
  assert (Hfin : forall (j swaps : nat),
             a <= j -> j < b ->
             a <= fst (if swaps =? 0 then (j, increasingHint)
                       else if swaps =? 4 * 3 then (j, decreasingHint)
                       else (j, unknownHint))
             /\ fst (if swaps =? 0 then (j, increasingHint)
                     else if swaps =? 4 * 3 then (j, decreasingHint)
                     else (j, unknownHint)) < b).
  { intros j swaps H1 H2. destruct (swaps =? 0); [ simpl; lia | ].
    destruct (swaps =? 4 * 3); simpl; lia. }
  destruct (Nat.leb_spec 8 l) as [H8 | H8].
  - destruct (Nat.leb_spec 50 l) as [H50 | H50].
    + pose proof (medianAdjacent_func_in data (a + q * 1) 0) as M1.
      destruct (medianAdjacent_func lt data (a + q * 1) 0) as [i s1]. simpl in M1.
      pose proof (medianAdjacent_func_in data (a + q * 2) s1) as M2.
      destruct (medianAdjacent_func lt data (a + q * 2) s1) as [j s2]. simpl in M2.
      pose proof (medianAdjacent_func_in data (a + q * 3) s2) as M3.
      destruct (medianAdjacent_func lt data (a + q * 3) s2) as [k s3]. simpl in M3.
      pose proof (median_func_in data i j k s3) as M.
      destruct (median_func lt data i j k s3) as [m s]. simpl in M.
      apply Hfin; lia.
    + pose proof (median_func_in data (a + q * 1) (a + q * 2) (a + q * 3) 0) as M.
      destruct (median_func lt data (a + q * 1) (a + q * 2) (a + q * 3) 0) as [m s].
      simpl in M. apply Hfin; lia.
  - apply Hfin; lia.
Qed.

Lemma reverseRange_loop_within a b n : forall data i j,
  a <= i -> j < b -> within data (reverseRange_loop n data i j) a b.
Proof.
  induction n as [ | n IH]; intros data i j Hi Hj; simpl; [ apply within_refl | ].
  destruct (Nat.ltb_spec i j) as [Hlt | ]; [ | apply within_refl ].
  apply (within_trans _ (Swap data i j)); [ apply within_Swap; lia | apply IH; lia ].
Qed.

Lemma reverseRange_func_within data a b :
  a < b -> within data (reverseRange_func data a b) a b.
Proof. intros H. apply reverseRange_loop_within; lia. Qed.

Lemma breakPatterns_other_bound (length : nat) (random : Z) :
  0 < length ->
  let other := Z.to_nat (Z.land random (nextPowerOfTwo length - 1)) in
  (if length <=? other then other - length else other) < length.
Proof.
  intros Hl other.
  assert (Hb : other < 2 * length).
  { subst other. unfold nextPowerOfTwo, bits_Len.
    destruct (Nat.eqb_spec length 0) as [ | _]; [ lia | ].
    rewrite Z.shiftl_1_l.
    replace (2 ^ Z.of_nat (S (Nat.log2 length)) - 1)%Z
      with (Z.ones (Z.of_nat (S (Nat.log2 length))))
      by (rewrite Z.ones_equiv; lia).
    rewrite Z.land_ones by lia.
    pose proof (Z.mod_pos_bound random (2 ^ Z.of_nat (S (Nat.log2 length)))
                  ltac:(apply Z.pow_pos_nonneg; lia)) as Hm.
    destruct (Nat.log2_spec length Hl) as [Hlog _].
    assert (Hp : (2 ^ Z.of_nat (S (Nat.log2 length)) <= 2 * Z.of_nat length)%Z).
    { rewrite Nat2Z.inj_succ, Z.pow_succ_r by lia.
      change 2%Z with (Z.of_nat 2) at 2. rewrite <- Nat2Z.inj_pow. lia. }
    lia. }
  destruct (Nat.leb_spec length other); lia.
Qed.

Lemma breakPatterns_func_within data a b :
  within data (breakPatterns_func data a b) a b.
Proof.
  unfold breakPatterns_func.
  destruct (Nat.leb_spec 8 (b - a)) as [H8 | ]; [ | apply within_refl ].
  pose proof (Nat.div_mod_eq (b - a) 4) as Hdiv.
  pose proof (Nat.mod_upper_bound (b - a) 4 ltac:(lia)) as Hmod.
  set (q := (b - a) / 4) in *.
  set (step := fun (st : list A * Z) (i : nat) => _).
  assert (Hstep : forall d r i, i <= 2 -> within d (fst (step (d, r) i)) a b).
  { intros d r i Hi. subst step. cbv beta iota. cbn [fst].
    pose proof (breakPatterns_other_bound (b - a) (xorshift_Next r) ltac:(lia)) as Ho.
    cbv zeta in Ho. apply within_Swap; lia. }
  cbn [fold_left].
  destruct (step (data, Z.of_nat (b - a)) 0) as [d1 r1] eqn:E1.
  destruct (step (d1, r1) 1) as [d2 r2] eqn:E2.
  destruct (step (d2, r2) 2) as [d3 r3] eqn:E3.
  pose proof (Hstep data (Z.of_nat (b - a)) 0 ltac:(lia)) as W1. rewrite E1 in W1.
  pose proof (Hstep d1 r1 1 ltac:(lia)) as W2. rewrite E2 in W2.
  pose proof (Hstep d2 r2 2 ltac:(lia)) as W3. rewrite E3 in W3.
  cbn [fst] in *. eapply within_trans; [ exact W1 | ]. eapply within_trans; eauto.
Qed.

Lemma within_bounded_below d1 d2 a b c d :
  within d1 d2 c d -> a <= c -> d <= b \/ b <= c ->
  bounded_below d1 a b -> bounded_below d2 a b.
Proof.
  intros Hw Hc Hd Hb.
  destruct (Nat.eq_dec a 0) as [-> | Ha]; [ now left | ].
  destruct Hb as [-> | (q & Eq & Hq)]; [ contradiction | right ].
  exists q. split.
  - rewrite (within_outside _ _ _ _ Hw) by lia. exact Eq.
  - apply (within_range_all _ _ _ _ _ _ _ Hw); auto. lia.
Qed.

(** ** The partial insertion sort *)

Lemma shift_left_insertionSort_shift : forall j data,
  shift_left lt data j = insertionSort_shift lt data 0 j.
Proof.
  induction j as [ | j IH]; intros data; [ reflexivity | ].
  cbn [shift_left insertionSort_shift]. change (0 <? S j) with true. cbn [andb].
  destruct (Less lt data (S j) j); cbn [negb]; auto.
Qed.

(** In a range that is bounded below, the insertion loop that stops at
    index 1 stops at the start of the range. *)
Lemma insertionSort_shift_bounded_below a b : forall j data,
  bounded_below data a b -> a <= j -> j < b -> b <= length data ->
  insertionSort_shift lt data 0 j = insertionSort_shift lt data a j.
Proof.
  induction j as [ | j IH]; intros data Hb Haj Hjb Hlen; [ reflexivity | ].
  cbn [insertionSort_shift]. change (0 <? S j) with true. cbn [andb].
  destruct (Nat.ltb_spec a (S j)) as [Ha | Ha]; cbn [andb].
  - destruct (Less lt data (S j) j); [ | reflexivity ].
    apply IH; try lia.
    + apply (within_bounded_below data _ a b a b); auto. apply within_Swap; lia.
    + now rewrite length_Swap.
  - assert (a = S j) by lia. subst a.
    destruct Hb as [Hb | (q & Eq & Hq)]; [ discriminate | ].
    replace (S j - 1) with j in Eq by lia.
    destruct (nth_error_in_range data (S j)) as [x Ex]; [ lia | ].
    rewrite (Less_at _ _ _ _ _ Ex Eq).
    now rewrite (Hq (S j) x) by (auto; lia).
Qed.

Lemma shift_right_within n : forall data j,
  1 <= j -> within data (shift_right lt n data j) (j - 1) (j + n).
Proof.
  induction n as [ | n IH]; intros data j Hj; cbn [shift_right]; [ apply within_refl | ].
  destruct (negb _); [ apply within_refl | ].
  apply (within_trans _ (Swap data j (j - 1))); [ apply within_Swap; lia | ].
  eapply within_weaken; [ | | apply IH ]; lia.
Qed.

Lemma sorted_range_snoc data a k :
  valid data -> a < k -> k < length data ->
  sorted_range data a k -> Less lt data k (k - 1) = false ->
  sorted_range data a (k + 1).
Proof.
  intros Hv Ha Hk Hs Hl i1 i2 x y H1 H2 H3 E1 E2.
  destruct (Nat.eq_dec i2 k) as [-> | ]; [ | apply (Hs i1 i2); auto; lia ].
  destruct (nth_error_in_range data (k - 1)) as [z Ez]; [ lia | ].
  rewrite (Less_at _ _ _ _ _ E2 Ez) in Hl.
  destruct (Nat.eq_dec i1 (k - 1)) as [-> | ]; [ congruence | ].
  apply (less_negtrans y z x); eauto.
  apply (Hs i1 (k - 1)); auto; lia.
Qed.

Lemma sorted_range_extend data a : forall n i,
  valid data -> a < i -> i + n <= length data ->
  sorted_range data a i ->
  (forall k, i <= k -> k < i + n -> Less lt data k (k - 1) = false) ->
  sorted_range data a (i + n).
Proof.
  induction n as [ | n IH]; intros i Hv Ha Hlen Hs Hadj.
  - now rewrite Nat.add_0_r.
  - replace (i + S n) with (i + 1 + n) by lia. apply IH; auto; try lia.
    + apply sorted_range_snoc; auto; try lia. apply Hadj; lia.
    + intros k Hk Hk'. apply Hadj; lia.
Qed.

Lemma partialInsertionSort_loop_sorted a b : forall steps data i d' s,
  valid data -> a < i -> i <= b -> b <= length data ->
  bounded_below data a b -> sorted_range data a i ->
  partialInsertionSort_loop lt steps data a b i = (d', s) ->
  within data d' a b /\ (s = true -> sorted_range d' a b).
Proof.
  induction steps as [ | steps IH]; intros data i d' s Hv Hai Hib Hlen Hbb Hs E.
  { injection E as <- <-. split; [ apply within_refl | discriminate ]. }
  cbn [partialInsertionSort_loop] in E. cbv zeta in E.
  destruct (scan_up_spec (fun i => negb (Less lt data i (i - 1))) (b - i) i)
    as (U1 & U2 & U3 & U4).
  set (i' := scan_up _ i _) in *.
  assert (Hs' : sorted_range data a i').
  { replace i' with (i + (i' - i)) by lia.
    apply sorted_range_extend; auto; try lia.
    intros k Hk Hk'. specialize (U3 k Hk ltac:(lia)). cbv beta in U3.
    now destruct (Less lt data k (k - 1)). }
  destruct (Nat.eqb_spec i' b) as [Hb | Hb].
  { injection E as <- <-. split; [ apply within_refl | ]. intros _. now rewrite <- Hb. }
  destruct (b - a <? 50).
  { injection E as <- <-. split; [ apply within_refl | discriminate ]. }
  assert (Hstop : Less lt data i' (i' - 1) = true).
  { specialize (U4 ltac:(lia)). cbv beta in U4.
    now destruct (Less lt data i' (i' - 1)). }
  set (data1 := Swap data i' (i' - 1)) in *.
  assert (Hw1 : within data data1 a b) by (apply within_Swap; lia).
  assert (Hv1 : valid data1) by exact (within_valid _ _ _ _ Hw1 Hv).
  assert (Hl1 : length data1 = length data) by apply length_Swap.
  assert (Hb1 : bounded_below data1 a b)
    by (apply (within_bounded_below data _ a b a b); auto).
  set (data2 := if 2 <=? i' - a then shift_left lt data1 (i' - 1) else data1) in *.
  assert (H2 : sorted_range data2 a i' /\ within data1 data2 a i').
  { subst data2. destruct (Nat.leb_spec 2 (i' - a)) as [Hge | Hlt].
    - rewrite shift_left_insertionSort_shift.
      rewrite (insertionSort_shift_bounded_below a b) by (auto; lia).
      apply insertionSort_shift_sorted; auto; try lia.
      split.
      + intros i1 i2 x y Ha1 H12 Hi2 Hn1 Hn2. subst data1. swap_cases; try lia.
        intros E1 E2. apply (Hs' i1 i2); auto.
      + intros i2 x y Hlt Hi2. lia.
    - split; [ apply sorted_range_short; lia | apply within_refl ]. }
  destruct H2 as [Hs2 Hw2].
  assert (Hw2' : within data1 data2 a b) by (eapply within_weaken; [ | | exact Hw2 ]; lia).
  set (data3 := if 2 <=? b - i' then shift_right lt (b - (i' + 1)) data2 (i' + 1) else data2)
    in *.
  assert (Hw3 : within data2 data3 i' b).
  { subst data3. destruct (2 <=? b - i'); [ | apply within_refl ].
    eapply within_weaken; [ | | apply shift_right_within ]; lia. }
  assert (Hw3' : within data2 data3 a b) by (eapply within_weaken; [ | | exact Hw3 ]; lia).
  assert (Hw : within data data3 a b).
  { eapply within_trans; [ exact Hw1 | ]. eapply within_trans; eauto. }
  destruct (IH data3 i' d' s) as [R1 R2]; auto; try lia.
  - exact (within_valid _ _ _ _ Hw Hv).
  - rewrite (within_length _ _ _ _ Hw). exact Hlen.
  - apply (within_bounded_below data _ a b a b); auto.
  - apply (within_sorted_range _ _ _ _ _ _ Hw3); auto.
  - split; [ | exact R2 ]. eapply within_trans; eauto.
Qed.

Lemma partialInsertionSort_func_sorted data a b d' s :
  valid data -> a < b -> b <= length data -> bounded_below data a b ->
  partialInsertionSort_func lt data a b = (d', s) ->
  within data d' a b /\ (s = true -> sorted_range d' a b).
Proof.
  intros Hv Hab Hlen Hb E. unfold partialInsertionSort_func in E.
  apply (partialInsertionSort_loop_sorted a b) in E; auto; try lia.
  apply sorted_range_short. lia.
Qed.

(** ** [pdqsort_func] *)

Lemma range_all_narrow Q data a b c d :
  a <= c -> d <= b -> range_all Q data a b -> range_all Q data c d.
Proof. intros Hc Hd H i x Hi Hi'. apply H; lia. Qed.

Lemma partitioned_within p d d' a b mid c e :
  partitioned p d a b mid -> within d d' c e ->
  (a <= c /\ e <= mid) \/ (mid + 1 <= c /\ e <= b) ->
  partitioned p d' a b mid.
Proof.
  intros (H1 & H2 & Hp & Hlo & Hhi) Hw Hr.
  split; [ exact H1 | ]. split; [ exact H2 | ].
  split; [ | split ].
  - rewrite (within_outside _ _ _ _ Hw) by lia. exact Hp.
  - apply (within_range_all _ _ _ _ _ _ _ Hw); auto. lia.
  - apply (within_range_all _ _ _ _ _ _ _ Hw); auto. lia.
Qed.

Lemma sorted_join p data a b mid :
  valid data -> partitioned p data a b mid ->
  sorted_range data a mid -> sorted_range data (mid + 1) b ->
  sorted_range data a b.
Proof.
  intros Hv (H1 & H2 & Hp & Hlo & Hhi) Hl Hr i1 i2 x y Ha H12 Hb E1 E2.
  destruct (Nat.lt_trichotomy i2 mid) as [Hi2 | [-> | Hi2]].
  - apply (Hl i1 i2); auto.
  - rewrite Hp in E2. injection E2 as <-.
    assert (F : lt x p = true) by (apply (Hlo i1); auto).
    apply less_asym; eauto.
  - assert (Hy : lt y p = false) by (apply (Hhi i2); auto; lia).
    destruct (Nat.lt_trichotomy i1 mid) as [Hi1 | [-> | Hi1]].
    + assert (Hx : lt x p = true) by (apply (Hlo i1); auto).
      assert (F : lt x y = true) by (apply (less_le_trans x p y); eauto).
      apply less_asym; eauto.
    + rewrite Hp in E1. injection E1 as <-. exact Hy.
    + apply (Hr i1 i2); auto. lia.
Qed.

Lemma bounded_below_left data a b mid :
  mid <= b -> bounded_below data a b -> bounded_below data a mid.
Proof.
  intros Hm [-> | (q & Eq & Hq)]; [ now left | right ].
  exists q. split; [ exact Eq | ]. apply (range_all_narrow _ _ a b); auto.
Qed.

Lemma bounded_below_right p data a b mid :
  partitioned p data a b mid -> bounded_below data (mid + 1) b.
Proof.
  intros (H1 & H2 & Hp & Hlo & Hhi). right. exists p.
  replace (mid + 1 - 1) with mid by lia. auto.
Qed.

(** Both parts of a partitioned range sorted, in either order. *)
Lemma sorted_parts p d d1 d2 a b mid c1 e1 c2 e2 :
  valid d -> partitioned p d a b mid ->
  (c1 = a /\ e1 = mid /\ c2 = mid + 1 /\ e2 = b)
  \/ (c1 = mid + 1 /\ e1 = b /\ c2 = a /\ e2 = mid) ->
  sorted_range d1 c1 e1 -> within d d1 c1 e1 ->
  sorted_range d2 c2 e2 -> within d1 d2 c2 e2 ->
  sorted_range d2 a b /\ within d d2 a b.
Proof.
  intros Hv HP Hr Hs1 Hw1 Hs2 Hw2.
  assert (Hmid : a <= mid /\ mid < b) by (destruct HP as (? & ? & _); auto).
  assert (HP1 : partitioned p d1 a b mid)
    by (apply (partitioned_within p d d1 a b mid c1 e1); auto; lia).
  assert (HP2 : partitioned p d2 a b mid)
    by (apply (partitioned_within p d1 d2 a b mid c2 e2); auto; lia).
  assert (Hs1' : sorted_range d2 c1 e1)
    by (apply (within_sorted_range _ _ _ _ _ _ Hw2); auto; lia).
  assert (Hw : within d d2 a b).
  { apply (within_trans _ d1).
    - eapply within_weaken; [ | | exact Hw1 ]; lia.
    - eapply within_weaken; [ | | exact Hw2 ]; lia. }
  split; [ | exact Hw ].
  apply (sorted_join p _ a b mid); auto.
  - exact (within_valid _ _ _ _ Hw Hv).
  - destruct Hr as [(-> & -> & _) | (_ & _ & -> & ->)]; auto.
  - destruct Hr as [(_ & _ & -> & ->) | (-> & -> & _)]; auto.
Qed.

(** The range left of [mid] after [partitionEqual_func], in a range that
    is bounded below by an element not less than the pivot: all equal. *)
Lemma sorted_equal_part p q data a b mid :
  valid data -> 0 < a -> a < mid -> mid <= b -> b <= length data ->
  nth_error data (a - 1) = Some q -> ok p ->
  lt q p = false ->
  range_all (fun x => lt x q = false) data a b ->
  range_all (fun x => lt p x = false) data a mid ->
  range_all (fun x => lt p x = true) data mid b ->
  sorted_range data a mid
  /\ bounded_below data mid b
  /\ forall i j x y, a <= i -> i < mid -> mid <= j -> j < b ->
       nth_error data i = Some x -> nth_error data j = Some y -> lt y x = false.
Proof.
  intros Hv Ha Ham Hmb Hlen Eq Hokp Hqp Hq Hlo Hhi.
  assert (Hokq : ok q) by eauto.
  split; [ | split ].
  - intros i j x y H1 H2 H3 Ex Ey.
    assert (F1 : lt y q = false) by (apply (Hq j); auto; lia).
    assert (F2 : lt y p = false) by (apply (less_negtrans y q p); eauto).
    assert (F3 : lt p x = false) by (apply (Hlo i); auto; lia).
    apply (less_negtrans y p x); eauto.
  - right. destruct (nth_error_in_range data (mid - 1)) as [z Ez]; [ lia | ].
    exists z. split; [ exact Ez | ].
    intros k x Hk Hk' Ex.
    assert (F1 : lt p z = false) by (apply (Hlo (mid - 1)); auto; lia).
    assert (F2 : lt p x = true) by (apply (Hhi k); auto).
    assert (F3 : lt z x = true) by (apply (le_less_trans z p x); eauto).
    apply less_asym; eauto.
  - intros i j x y H1 H2 H3 H4 Ex Ey.
    assert (F1 : lt p x = false) by (apply (Hlo i); auto).
    assert (F2 : lt p y = true) by (apply (Hhi j); auto).
    assert (F3 : lt x y = true) by (apply (le_less_trans x p y); eauto).
    apply less_asym; eauto.
Qed.

Lemma pdqsort_loop_sorted : forall fuel data a b limit wasBalanced wasPartitioned d',
  valid data -> a <= b -> b <= length data -> bounded_below data a b ->
  pdqsort_loop lt fuel data a b limit wasBalanced wasPartitioned = Some d' ->
  sorted_range d' a b /\ within data d' a b.
Proof.
  induction fuel as [ | fuel IH]; intros data a b limit wb wp d' Hv Hab Hlen Hbb E;
    [ discriminate | ].
  cbn [pdqsort_loop] in E. cbv zeta in E.
  destruct (Nat.leb_spec (b - a) maxInsertion) as [ | Hlong].
  { injection E as <-. now apply insertionSort_func_sorted. }
  unfold maxInsertion in Hlong.
  destruct (limit =? 0); [ now apply heapSort_func_sorted | ].
  (* the patterns are broken *)
  set (st1 := if negb wb then _ else _) in E.
  assert (W1 : within data (fst st1) a b).
  { subst st1. destruct (negb wb); cbn [fst];
      [ apply breakPatterns_func_within | apply within_refl ]. }
  destruct st1 as [data1 limit1]. cbn [fst] in W1.
  (* the pivot is chosen *)
  pose proof (choosePivot_func_bounds data1 a b ltac:(lia)) as Hpiv.
  destruct (choosePivot_func lt data1 a b) as [pivot hint]. cbn [fst] in Hpiv.
  set (st2 := if sortedHint_eqb hint decreasingHint then _ else _) in E.
  assert (W2 : within data1 (fst (fst st2)) a b
               /\ a <= snd (fst st2) /\ snd (fst st2) < b).
  { subst st2. destruct (sortedHint_eqb hint decreasingHint); cbn [fst snd].
    - split; [ apply reverseRange_func_within; lia | lia ].
    - split; [ apply within_refl | lia ]. }
  destruct st2 as [[data2 pivot2] hint2]. cbn [fst snd] in W2.
  destruct W2 as (W2 & Hp2a & Hp2b).
  assert (W12 : within data data2 a b) by (eapply within_trans; eauto).
  assert (Hv2 : valid data2) by exact (within_valid _ _ _ _ W12 Hv).
  assert (Hl2 : b <= length data2) by (rewrite (within_length _ _ _ _ W12); exact Hlen).
  assert (Hb2 : bounded_below data2 a b)
    by (apply (within_bounded_below data _ a b a b); auto).
  (* a range that looks sorted gets a partial insertion sort *)
  set (st3 := if _ && _ && _ then _ else _) in E.
  assert (W3 : within data2 (fst st3) a b
               /\ (snd st3 = true -> sorted_range (fst st3) a b)).
  { subst st3. destruct (_ && _ && _).
    - destruct (partialInsertionSort_func lt data2 a b) as [d3 s3] eqn:E3.
      cbn [fst snd]. apply (partialInsertionSort_func_sorted data2 a b); auto. lia.
    - cbn [fst snd]. split; [ apply within_refl | discriminate ]. }
  destruct st3 as [data3 sorted]. cbn [fst snd] in W3. destruct W3 as [W3 Hsorted].
  assert (W13 : within data data3 a b) by (eapply within_trans; eauto).
  assert (Hv3 : valid data3) by exact (within_valid _ _ _ _ W13 Hv).
  assert (Hl3 : b <= length data3) by (rewrite (within_length _ _ _ _ W13); exact Hlen).
  assert (Hb3 : bounded_below data3 a b)
    by (apply (within_bounded_below data _ a b a b); auto).
  destruct sorted.
  { injection E as <-. auto. }
  destruct (nth_error_in_range data3 pivot2) as [p Ep]; [ lia | ].
  destruct ((0 <? a) && negb (Less lt data3 (a - 1) pivot2)) eqn:EU.
  - (* the pivot is equal to the element before the range *)
    apply andb_true_iff in EU. destruct EU as [Ha EU]. apply Nat.ltb_lt in Ha.
    destruct Hb3 as [ | (q & Eq & Hq)]; [ lia | ].
    rewrite (Less_at _ _ _ _ _ Eq Ep) in EU.
    assert (Hqp : lt q p = false) by (now destruct (lt q p)).
    destruct (partitionEqual_func lt data3 a b pivot2) as [[d mid] | ] eqn:EP;
      [ | discriminate ].
    apply (partitionEqual_func_sorted data3 a b pivot2 p) in EP; auto; try lia.
    destruct EP as (Hm1 & Hm2 & Hlo & Hhi & Wd).
    assert (Hvd : valid d) by exact (within_valid _ _ _ _ Wd Hv3).
    assert (Hld : b <= length d) by (rewrite (within_length _ _ _ _ Wd); exact Hl3).
    destruct (sorted_equal_part p q d a b mid) as (S1 & Bb & Hcross); auto.
    { rewrite (within_outside _ _ _ _ Wd) by lia. exact Eq. }
    { eauto. }
    { apply (within_range_all _ _ _ _ _ _ _ Wd); auto; lia. }
    apply IH in E; auto.
    destruct E as [S2 Wd2]. split.
    + intros i1 i2 x y H1 H2 H3 E1 E2.
      destruct (Nat.lt_ge_cases i2 mid) as [Hi2 | Hi2].
      * rewrite (within_outside _ _ _ _ Wd2) in E1, E2 by lia.
        apply (S1 i1 i2); auto.
      * destruct (Nat.lt_ge_cases i1 mid) as [Hi1 | Hi1].
        -- rewrite (within_outside _ _ _ _ Wd2) in E1 by lia.
           destruct (within_inside _ _ _ _ Wd2 i2) as (j & Hj1 & Hj2 & Ej); auto.
           rewrite Ej in E2. apply (Hcross i1 j); auto.
        -- apply (S2 i1 i2); auto.
    + eapply within_trans; [ exact W13 | ]. eapply within_trans; [ exact Wd | ].
      eapply within_weaken; [ | | exact Wd2 ]; lia.
  - (* the ordinary partition *)
    destruct (partition_func lt data3 a b pivot2) as [[[d mid] ap] | ] eqn:EP;
      [ | discriminate ].
    apply (partition_func_sorted data3 a b pivot2 p) in EP; auto; try lia.
    destruct EP as [HP Wd].
    assert (Hvd : valid d) by exact (within_valid _ _ _ _ Wd Hv3).
    assert (Hld : b <= length d) by (rewrite (within_length _ _ _ _ Wd); exact Hl3).
    assert (Hbd : bounded_below d a b)
      by (apply (within_bounded_below data3 _ a b a b); auto).
    assert (Hmid : a <= mid /\ mid < b) by (destruct HP as (? & ? & _); auto).
    assert (Wd' : within data d a b) by (eapply within_trans; eauto).
    destruct (mid - a <? b - mid).
    + destruct (pdqsort_loop lt fuel d a mid limit1 true true) as [d1 | ] eqn:E1;
        [ | discriminate ].
      apply IH in E1; auto; try lia; [ | apply (bounded_below_left _ a b); [ lia | exact Hbd ] ].
      destruct E1 as [S1 Wd1].
      apply IH in E; try lia.
      * destruct E as [S2 Wd2].
        destruct (sorted_parts p d d1 d' a b mid a mid (mid + 1) b) as [R1 R2]; auto.
        split; [ exact R1 | ]. eapply within_trans; eauto.
      * exact (within_valid _ _ _ _ Wd1 Hvd).
      * rewrite (within_length _ _ _ _ Wd1). exact Hld.
      * apply (bounded_below_right p _ a).
        apply (partitioned_within p d d1 a b mid a mid); auto; lia.
    + destruct (pdqsort_loop lt fuel d (mid + 1) b limit1 true true) as [d1 | ] eqn:E1;
        [ | discriminate ].
      apply IH in E1; auto; try lia; [ | now apply (bounded_below_right p _ a) ].
      destruct E1 as [S1 Wd1].
      apply IH in E; try lia.
      * destruct E as [S2 Wd2].
        destruct (sorted_parts p d d1 d' a b mid (mid + 1) b a mid) as [R1 R2]; auto.
        split; [ exact R1 | ]. eapply within_trans; eauto.
      * exact (within_valid _ _ _ _ Wd1 Hvd).
      * rewrite (within_length _ _ _ _ Wd1). lia.
      * apply (within_bounded_below d _ a mid (mid + 1) b); auto; try lia.
        apply (bounded_below_left _ a b); [ lia | exact Hbd ].
Qed.

Lemma sorted_range_ascending data :
  sorted_range data 0 (length data) -> ascending lt data.
Proof.
  intros Hs i j Hij. unfold Less.
  destruct (nth_error data j) as [y | ] eqn:Ej; [ | reflexivity ].
  destruct (nth_error data i) as [x | ] eqn:Ei; [ | reflexivity ].
  apply (Hs i j); auto; try lia. now apply nth_error_range in Ej.
Qed.

Lemma Slice_sorted_range data d :
  valid data -> Slice lt data = Some d -> sorted_range d 0 (length d).
Proof.
  intros Hv E.
  assert (Hl : length d = length data).
  { destruct (Slice_rearranges lt data) as (d0 & E0 & Hp).
    rewrite E in E0. injection E0 as <-. exact (Permutation_length Hp). }
  unfold Slice, pdqsort_func in E.
  apply pdqsort_loop_sorted in E; auto; try lia; [ | now left ].
  rewrite Hl. apply E.
Qed.

(** [sort.Slice] ends, and leaves the elements it was given in ascending
    order. *)
Lemma Slice_sorted data :
  valid data ->
  exists d, Slice lt data = Some d /\ Permutation d data /\ ascending lt d.
Proof.
  intros Hv. destruct (Slice_rearranges lt data) as (d & E & Hp).
  exists d. split; [ exact E | ]. split; [ exact Hp | ].
  apply sorted_range_ascending. exact (Slice_sorted_range data d Hv E).
Qed.

(** X13.  [sort.Slice] sorts: for every comparison that is a strict weak
    order on the elements of the slice (irreflexive, transitive, and with a
    transitive "not less"), and for every length, the call ends and leaves
    a rearrangement of the slice in which no element is less than an
    element before it. *)
Theorem Slice_sorts (data : list A) :
  valid data ->
  exists d, Slice lt data = Some d /\ Permutation d data /\ ascending lt d.
Proof.
  intros Hv.
  destruct (Slice_rearranges lt data) as (d & E & Hp).
  pose proof (Slice_sorted_range data d Hv E) as Hs.
  exists d. repeat split; auto.
  intros i j Hij. now apply sorted_range_ascending.
Qed.

End Sorting.

Lemma Slice_sorts_witness :
  exists d,
    GoSort.Slice Nat.ltb [5; 3; 9; 3; 1; 12; 7; 7; 2; 15; 4; 8; 11; 6; 10] = Some d
    /\ Permutation d [5; 3; 9; 3; 1; 12; 7; 7; 2; 15; 4; 8; 11; 6; 10]
    /\ GoSort.ascending Nat.ltb d.
Proof.
  apply (Slice_sorts Nat.ltb (fun _ => True)).
  - intros x _. apply Nat.ltb_irrefl.
  - intros x y z _ _ _. rewrite !Nat.ltb_lt. lia.
  - intros x y z _ _ _. rewrite !Nat.ltb_ge. lia.
  - intros i x _. exact I.
Defined.

(* ================================================================= *)
(** * The ranking is by distance *)

(** [<] on binary64 values that are not NaN is a strict weak order:
    [SFcompare] orders them by sign, exponent and mantissa. *)
Ltac SFcompare_cases :=
  repeat match goal with
  | |- context [Pos.compare_cont Eq ?a ?b] =>
      change (Pos.compare_cont Eq a b) with (Pos.compare a b)
  end;
  repeat match goal with
  | |- context [Z.compare ?a ?b] => destruct (Z.compare_spec a b)
  | |- context [Pos.compare ?a ?b] => destruct (Pos.compare_spec a b)
  end;
  subst; cbn; try discriminate; try reflexivity; try lia.

Lemma SFltb_trans x y z :
  SFltb x y = true -> SFltb y z = true -> SFltb x z = true.
Proof.
  unfold SFltb.
  destruct x as [ sx | [ | ] | | [ | ] mx ex ]; destruct y as [ sy | [ | ] | | [ | ] my ey ];
    cbn; try discriminate;
    destruct z as [ sz | [ | ] | | [ | ] mz ez ]; cbn; try discriminate; try reflexivity;
    SFcompare_cases.
Qed.

Lemma SFltb_negtrans x y z :
  SF_is_nan x = false -> SF_is_nan y = false -> SF_is_nan z = false ->
  SFltb x y = false -> SFltb y z = false -> SFltb x z = false.
Proof.
  unfold SFltb.
  destruct x as [ sx | [ | ] | | [ | ] mx ex ]; destruct y as [ sy | [ | ] | | [ | ] my ey ];
    cbn; try discriminate;
    destruct z as [ sz | [ | ] | | [ | ] mz ez ]; cbn; try discriminate; try reflexivity;
    intros _ _ _; SFcompare_cases.
Qed.

Lemma SFltb_false_leb x y :
  SF_is_nan x = false -> SF_is_nan y = false -> SFltb y x = false -> SFleb x y = true.
Proof.
  unfold SFltb, SFleb.
  destruct x as [ sx | [ | ] | | [ | ] mx ex ]; destruct y as [ sy | [ | ] | | [ | ] my ey ];
    cbn; try discriminate; try reflexivity; intros _ _; SFcompare_cases.
Qed.

Lemma SFltb_false_eqb x y :
  SF_is_nan x = false -> SF_is_nan y = false ->
  SFltb x y = false -> SFltb y x = false -> SFeqb x y = true.
Proof.
  unfold SFltb, SFeqb.
  destruct x as [ sx | [ | ] | | [ | ] mx ex ]; destruct y as [ sy | [ | ] | | [ | ] my ey ];
    cbn; try discriminate; try reflexivity; intros _ _; SFcompare_cases.
Qed.

(** An ascending arrangement is the only one, ties apart. *)
Section Unique.

Import GoSort GoSortFacts.

Context {A : Type}.
Variable lt : A -> A -> bool.

Lemma ascending_head (x : A) l z : ascending lt (x :: l) -> In z l -> lt z x = false.
Proof.
  intros H Hz. destruct (In_nth_error _ _ Hz) as [j Ej].
  specialize (H 0 (S j) ltac:(lia)). unfold Less in H. cbn [nth_error] in H.
  now rewrite Ej in H.
Qed.

Lemma ascending_tail (x : A) l : ascending lt (x :: l) -> ascending lt l.
Proof. intros H i j Hij. exact (H (S i) (S j) ltac:(lia)). Qed.

(** Two ascending arrangements of the same elements are the same list when
    no two different elements are unordered. *)
Lemma ascending_Permutation_unique : forall l1 l2 : list A,
  Permutation l1 l2 -> ascending lt l1 -> ascending lt l2 ->
  (forall x y, In x l1 -> In y l1 -> lt x y = false -> lt y x = false -> x = y) ->
  l1 = l2.
Proof.
  induction l1 as [ | x l1 IH]; intros l2 Hp H1 H2 Hanti.
  - apply Permutation_nil in Hp. now subst.
  - destruct l2 as [ | y l2].
    { apply Permutation_sym, Permutation_nil in Hp. discriminate. }
    assert (Hxy : x = y).
    { assert (Hx : In x (y :: l2)) by (apply (Permutation_in _ Hp); now left).
      assert (Hy : In y (x :: l1))
        by (apply (Permutation_in _ (Permutation_sym Hp)); now left).
      destruct Hx as [ | Hx]; [ congruence | ].
      destruct Hy as [ | Hy]; [ congruence | ].
      apply Hanti; [ now left | now right | | ].
      - exact (ascending_head y l2 x H2 Hx).
      - exact (ascending_head x l1 y H1 Hy). }
    subst y. f_equal.
    apply IH.
    + exact (Permutation_cons_inv Hp).
    + exact (ascending_tail _ _ H1).
    + exact (ascending_tail _ _ H2).
    + intros a b Ha Hb. apply Hanti; now right.
Qed.

End Unique.

Section Ranking.

Import Float64 SFFacts GoIntFacts Float64Facts GoSort GoSortFacts.
Open Scope float_scope.

Lemma lessDistance_irrefl x : numbered x -> lessDistance x x = false.
Proof. intros _. unfold lessDistance. rewrite FloatAxioms.ltb_spec. apply SFltb_irrefl. Qed.

Lemma lessDistance_trans x y z :
  numbered x -> numbered y -> numbered z ->
  lessDistance x y = true -> lessDistance y z = true -> lessDistance x z = true.
Proof.
  intros _ _ _. unfold lessDistance. rewrite !FloatAxioms.ltb_spec. apply SFltb_trans.
Qed.

Lemma lessDistance_negtrans x y z :
  numbered x -> numbered y -> numbered z ->
  lessDistance x y = false -> lessDistance y z = false -> lessDistance x z = false.
Proof.
  unfold numbered, is_nan, lessDistance. rewrite !FloatAxioms.ltb_spec.
  apply SFltb_negtrans.
Qed.

Lemma not_lessDistance_leb x y :
  numbered x -> numbered y -> lessDistance y x = false ->
  (Distance x <=? Distance y) = true.
Proof.
  unfold numbered, is_nan, lessDistance.
  rewrite FloatAxioms.ltb_spec, FloatAxioms.leb_spec. apply SFltb_false_leb.
Qed.

Lemma calculateDistance_number_nonneg d1 m1 r1 d2 m2 r2 :
  is_nan m1 = false -> is_nan r1 = false ->
  is_finite m2 = true -> is_finite r2 = true ->
  nonneg (calculateDistance d1 m1 r1 d2 m2 r2) = true.
Proof.
  intros Hm1 Hr1 Hm2 Hr2. unfold calculateDistance.
  apply Sqrt_nonneg. repeat apply float_add_nonneg.
  - apply (days_sq_nonneg d1 d2 20 _ _ _ eq_refl).
  - now apply (scaled_number_sq_nonneg m1 m2 2000 _ _ _ eq_refl).
  - now apply (scaled_number_sq_nonneg r1 r2 3000 _ _ _ eq_refl).
Qed.

Lemma calculateDistance_number d1 m1 r1 d2 m2 r2 :
  is_nan m1 = false -> is_nan r1 = false ->
  is_finite m2 = true -> is_finite r2 = true ->
  is_nan (calculateDistance d1 m1 r1 d2 m2 r2) = false.
Proof. intros. apply nonneg_is_nan. now apply calculateDistance_number_nonneg. Qed.

(** X16.  The distance of a query to a record with finite miles and
    receipts, for every query: it is NaN exactly when the query's miles or
    receipts are NaN; otherwise it is a number that is not negative, and
    [+Inf] when the query's miles or receipts are infinite.  The days never
    make it NaN or infinite. *)
Theorem calculateDistance_special_values
  (d1 : Z) (m1 r1 : float) (d2 : Z) (m2 r2 : float) :
  is_finite m2 = true -> is_finite r2 = true ->
  (is_nan (calculateDistance d1 m1 r1 d2 m2 r2) = true
   <-> is_nan m1 = true \/ is_nan r1 = true)
  /\ (is_nan m1 = false -> is_nan r1 = false ->
      (0 <=? calculateDistance d1 m1 r1 d2 m2 r2) = true
      /\ (is_inf m1 = true \/ is_inf r1 = true ->
          calculateDistance d1 m1 r1 d2 m2 r2 = infinity)).
Proof.
  intros Hm2 Hr2. split; [ split | ].
  - intros H. destruct (is_nan m1) eqn:Hm1; [ now left | ].
    destruct (is_nan r1) eqn:Hr1; [ now right | ].
    now rewrite calculateDistance_number in H.
  - intros H. now rewrite (calculateDistance_nan_query _ _ _ _ _ _ H).
  - intros Hm1 Hr1. split.
    + apply nonneg_leb. now apply calculateDistance_number_nonneg.
    + intros Hinf. now apply calculateDistance_infinite_query.
Qed.

Lemma calculateDistance_special_values_witness :
  (is_nan (calculateDistance 3 infinity 50 4 100 50) = true
   <-> is_nan infinity = true \/ is_nan 50 = true)
  /\ (is_nan infinity = false -> is_nan 50 = false ->
      (0 <=? calculateDistance 3 infinity 50 4 100 50) = true
      /\ (is_inf infinity = true \/ is_inf 50 = true ->
          calculateDistance 3 infinity 50 4 100 50 = infinity)).
Proof.
  apply (calculateDistance_special_values 3 infinity 50 4 100 50); reflexivity.
Defined.

(** The index of an element of [firstn n l] is below [n], that of an
    element of [skipn n l] is not. *)
Lemma In_firstn_nth_error {B : Type} (l : list B) n x :
  In x (firstn n l) -> exists i, (i < n)%nat /\ nth_error l i = Some x.
Proof.
  revert l. induction n as [ | n IH]; intros [ | y l] H; simpl in H; try contradiction.
  destruct H as [-> | H].
  - exists 0%nat. split; [ lia | reflexivity ].
  - destruct (IH l H) as (i & Hi & E). exists (S i). split; [ lia | exact E ].
Qed.

Lemma In_skipn_nth_error {B : Type} (l : list B) n x :
  In x (skipn n l) -> exists j, (n <= j)%nat /\ nth_error l j = Some x.
Proof.
  revert l. induction n as [ | n IH]; intros l H.
  - simpl in H. destruct (In_nth_error _ _ H) as [j E]. exists j. split; [ lia | exact E ].
  - destruct l as [ | y l]; simpl in H; [ contradiction | ].
    destruct (IH l H) as (j & Hj & E). exists (S j). split; [ lia | exact E ].
Qed.

Lemma ranked_by_distance (neighbors : list Neighbor) :
  Forall numbered neighbors ->
  exists sorted,
    GoSort.Slice lessDistance neighbors = Some sorted
    /\ Permutation sorted neighbors
    /\ forall i j x y, (i < j)%nat ->
         nth_error sorted i = Some x -> nth_error sorted j = Some y ->
         (Distance x <=? Distance y) = true.
Proof.
  intros Hn.
  destruct (Slice_sorted lessDistance numbered lessDistance_irrefl lessDistance_trans
              lessDistance_negtrans neighbors) as (sorted & Es & Hp & Hs).
  { intros i x E. rewrite Forall_forall in Hn. apply Hn. exact (nth_error_In _ _ E). }
  exists sorted. split; [ exact Es | ]. split; [ exact Hp | ].
  intros i j x y Hij Ex Ey.
  rewrite Forall_forall in Hn.
  apply not_lessDistance_leb.
  - apply Hn. apply (Permutation_in _ Hp). exact (nth_error_In _ _ Ex).
  - apply Hn. apply (Permutation_in _ Hp). exact (nth_error_In _ _ Ey).
  - specialize (Hs i j Hij). unfold GoSort.Less in Hs. now rewrite Ey, Ex in Hs.
Qed.

(** C7.  Without exact match on a non-empty TrainingSet, the ranking ends
    with a rearrangement [nearest :: rest] of the neighbours, and with
    [weight = 1 / (distance + 1e-8)] for each selected neighbour, the first
    [min(k, n)] of that list, [predictWeightedKNN] returns the output of
    [nearest] when [total_weight] is zero, and
    [weighted_sum / total_weight] otherwise; it does not panic.  For a
    query without NaN against records with finite miles and receipts,
    [nearest] is a nearest neighbour, no neighbour being at a smaller
    distance, and the selected neighbours are nearest ones, none of the
    others being nearer than any of them. *)
Theorem aggregation_result
  (tripDays : Z) (miles receipts : float) (training : TrainingData) (k : Z) :
  training <> [] ->
  find (isExactMatch tripDays miles receipts) training = None ->
  exists nearest rest,
    GoSort.Slice lessDistance (neighborsOf tripDays miles receipts training)
    = Some (nearest :: rest)
    /\ Permutation (nearest :: rest) (neighborsOf tripDays miles receipts training)
    /\ (let selected := firstn (clamp k (length (nearest :: rest))) (nearest :: rest) in
        let weighted_sum :=
          fold_left (fun s nb => s + 1 / (Distance nb + epsilon) * Output nb) selected 0 in
        let total_weight :=
          fold_left (fun s nb => s + 1 / (Distance nb + epsilon)) selected 0 in
        predictWeightedKNN tripDays miles receipts training k
        = if total_weight =? 0 then Returns (Output nearest)
          else Returns (weighted_sum / total_weight))
    /\ (is_nan miles = false -> is_nan receipts = false ->
        Forall (fun c => is_finite (MilesTraveled (Input c)) = true
                         /\ is_finite (TotalReceiptsAmount (Input c)) = true) training ->
        (forall nb, In nb (neighborsOf tripDays miles receipts training) ->
           (Distance nearest <=? Distance nb) = true)
        /\ (forall selected other,
              In selected (firstn (clamp k (length (nearest :: rest))) (nearest :: rest)) ->
              In other (skipn (clamp k (length (nearest :: rest))) (nearest :: rest)) ->
              (Distance selected <=? Distance other) = true)).
Proof.
  intros Hne Hfind.
  destruct (predictWeightedKNN_ranked tripDays miles receipts training k Hfind)
    as (sorted & Hs & Hp & E).
  pose proof (Permutation_length Hp) as Hl. rewrite neighborsOf_length in Hl.
  destruct sorted as [ | nearest rest].
  { destruct training; [ contradiction | discriminate ]. }
  exists nearest, rest. split; [ exact Hs | ]. split; [ exact Hp | ]. split.
  { cbv zeta. rewrite E, accumulate_sums. reflexivity. }
  intros Hm Hr Hfin.
  assert (Hnum : Forall numbered (neighborsOf tripDays miles receipts training)).
  { apply Forall_forall. intros nb Hin. unfold neighborsOf in Hin.
    apply in_map_iff in Hin. destruct Hin as (c & <- & Hc).
    rewrite Forall_forall in Hfin. destruct (Hfin c Hc) as [Hcm Hcr].
    now apply calculateDistance_number. }
  destruct (ranked_by_distance _ Hnum) as (sorted' & Es' & _ & Hord).
  rewrite Hs in Es'. injection Es' as <-.
  split.
  - intros nb Hin. apply (Permutation_in _ (Permutation_sym Hp)) in Hin.
    destruct Hin as [<- | Hin].
    + rewrite Forall_forall in Hnum.
      apply not_lessDistance_leb.
      * apply Hnum, (Permutation_in _ Hp). now left.
      * apply Hnum, (Permutation_in _ Hp). now left.
      * apply lessDistance_irrefl. apply Hnum, (Permutation_in _ Hp). now left.
    + destruct (In_nth_error _ _ Hin) as [j Ej].
      apply (Hord 0%nat (S j)); [ lia | reflexivity | exact Ej ].
  - intros used unused Hu Hn.
    destruct (In_firstn_nth_error _ _ _ Hu) as (i & Hi & Ei).
    destruct (In_skipn_nth_error _ _ _ Hn) as (j & Hj & Ej).
    apply (Hord i j); auto. lia.
Qed.

Lemma aggregation_result_witness :
  exists nearest rest,
    GoSort.Slice lessDistance
      (neighborsOf 3 100 50 [mkCase 23 100 50 100; mkCase 1 100 50 200])
    = Some (nearest :: rest)
    /\ Permutation (nearest :: rest)
         (neighborsOf 3 100 50 [mkCase 23 100 50 100; mkCase 1 100 50 200])
    /\ (let selected := firstn (clamp 5 (length (nearest :: rest))) (nearest :: rest) in
        let weighted_sum :=
          fold_left (fun s nb => s + 1 / (Distance nb + epsilon) * Output nb) selected 0 in
        let total_weight :=
          fold_left (fun s nb => s + 1 / (Distance nb + epsilon)) selected 0 in
        predictWeightedKNN 3 100 50 [mkCase 23 100 50 100; mkCase 1 100 50 200] 5
        = if total_weight =? 0 then Returns (Output nearest)
          else Returns (weighted_sum / total_weight))
    /\ (is_nan 100 = false -> is_nan 50 = false ->
        Forall (fun c => is_finite (MilesTraveled (Input c)) = true
                         /\ is_finite (TotalReceiptsAmount (Input c)) = true)
          [mkCase 23 100 50 100; mkCase 1 100 50 200] ->
        (forall nb,
           In nb (neighborsOf 3 100 50 [mkCase 23 100 50 100; mkCase 1 100 50 200]) ->
           (Distance nearest <=? Distance nb) = true)
        /\ (forall selected other,
              In selected (firstn (clamp 5 (length (nearest :: rest))) (nearest :: rest)) ->
              In other (skipn (clamp 5 (length (nearest :: rest))) (nearest :: rest)) ->
              (Distance selected <=? Distance other) = true)).
Proof.
  apply (aggregation_result 3 100 50 [mkCase 23 100 50 100; mkCase 1 100 50 200] 5).
  - discriminate.
  - vm_compute. reflexivity.
Defined.

(** The nearest neighbour is not the first record here: with no neighbour
    selected the fallback returns the output of the second record, and with
    one selected the quotient is that output. *)
Lemma aggregation_nearest_example :
  predictWeightedKNN 3 100 50 [mkCase 23 100 50 100; mkCase 1 100 50 200] 0
  = Returns 200
  /\ predictWeightedKNN 3 100 50 [mkCase 23 100 50 100; mkCase 1 100 50 200] 1
     = Returns 200.
Proof. split; vm_compute; reflexivity. Qed.

(** X14.  For a query without NaN and without exact match, against records
    with finite miles and receipts, and for every number of records: the
    ranking ends, the ranked list is a rearrangement of the neighbours in
    ascending order of distance, and the neighbours that are aggregated,
    the first [min(k, n)] of the list, are nearest ones: none of the others
    is nearer to the query than any of them. *)
Theorem neighbours_used_are_nearest
  (tripDays : Z) (miles receipts : float) (training : TrainingData) (k : Z) :
  find (isExactMatch tripDays miles receipts) training = None ->
  is_nan miles = false -> is_nan receipts = false ->
  Forall (fun c => is_finite (MilesTraveled (Input c)) = true
                   /\ is_finite (TotalReceiptsAmount (Input c)) = true) training ->
  exists sorted,
    GoSort.Slice lessDistance (neighborsOf tripDays miles receipts training) = Some sorted
    /\ Permutation sorted (neighborsOf tripDays miles receipts training)
    /\ predictWeightedKNN tripDays miles receipts training k
       = finish (accumulate (firstn (clamp k (length sorted)) sorted) 0 0) sorted
    /\ (forall i j x y, (i < j)%nat ->
          nth_error sorted i = Some x -> nth_error sorted j = Some y ->
          (Distance x <=? Distance y) = true)
    /\ (forall used unused,
          In used (firstn (clamp k (length sorted)) sorted) ->
          In unused (skipn (clamp k (length sorted)) sorted) ->
          (Distance used <=? Distance unused) = true).
Proof.
  intros Hfind Hm Hr Hfin.
  destruct (ranked_by_distance (neighborsOf tripDays miles receipts training))
    as (sorted & Es & Hp & Hs).
  { apply Forall_forall. intros nb Hin. unfold neighborsOf in Hin.
    apply in_map_iff in Hin. destruct Hin as (c & <- & Hc).
    rewrite Forall_forall in Hfin. destruct (Hfin c Hc) as [Hcm Hcr].
    now apply calculateDistance_number. }
  destruct (predictWeightedKNN_ranked tripDays miles receipts training k Hfind)
    as (sorted' & Es' & _ & E).
  rewrite Es in Es'. injection Es' as <-.
  exists sorted. repeat split; auto.
  intros used unused Hu Hn.
  destruct (In_firstn_nth_error _ _ _ Hu) as (i & Hi & Ei).
  destruct (In_skipn_nth_error _ _ _ Hn) as (j & Hj & Ej).
  apply (Hs i j); auto. lia.
Qed.

Lemma neighbours_used_are_nearest_witness :
  exists sorted,
    GoSort.Slice lessDistance
      (neighborsOf 3 100 50 [mkCase 5 100 50 200; mkCase 4 100 50 100; mkCase 9 100 50 300])
    = Some sorted
    /\ Permutation sorted
         (neighborsOf 3 100 50
            [mkCase 5 100 50 200; mkCase 4 100 50 100; mkCase 9 100 50 300])
    /\ predictWeightedKNN 3 100 50
         [mkCase 5 100 50 200; mkCase 4 100 50 100; mkCase 9 100 50 300] 2
       = finish (accumulate (firstn (clamp 2 (length sorted)) sorted) 0 0) sorted
    /\ (forall i j x y, (i < j)%nat ->
          nth_error sorted i = Some x -> nth_error sorted j = Some y ->
          (Distance x <=? Distance y) = true)
    /\ (forall used unused,
          In used (firstn (clamp 2 (length sorted)) sorted) ->
          In unused (skipn (clamp 2 (length sorted)) sorted) ->
          (Distance used <=? Distance unused) = true).
Proof.
  apply (neighbours_used_are_nearest 3 100 50
           [mkCase 5 100 50 200; mkCase 4 100 50 100; mkCase 9 100 50 300] 2).
  - vm_compute. reflexivity.
  - reflexivity.
  - reflexivity.
  - repeat constructor.
Defined.

Lemma find_none_Permutation {B : Type} (f : B -> bool) l l' :
  Permutation l l' -> find f l = None -> find f l' = None.
Proof.
  intros Hp H. destruct (find f l') as [x | ] eqn:E; [ | reflexivity ].
  apply find_some in E. destruct E as [Hin Hf].
  apply (Permutation_in _ (Permutation_sym Hp)) in Hin.
  now rewrite (List.find_none _ _ H x Hin) in Hf.
Qed.

(** X15.  The order of the records in the data file does not matter to the
    prediction when the records that match the query exactly, if any, have
    the same expected output, and no two different neighbours are at the
    same distance from the query (query without NaN, records with finite
    miles and receipts): any rearrangement of the TrainingSet gives the same
    result, bit for bit. *)
Theorem prediction_independent_of_record_order
  (tripDays : Z) (miles receipts : float) (training training' : TrainingData) (k : Z) :
  Permutation training training' ->
  (forall c1 c2, In c1 training -> In c2 training ->
     isExactMatch tripDays miles receipts c1 = true ->
     isExactMatch tripDays miles receipts c2 = true ->
     ExpectedOutput c1 = ExpectedOutput c2) ->
  is_nan miles = false -> is_nan receipts = false ->
  Forall (fun c => is_finite (MilesTraveled (Input c)) = true
                   /\ is_finite (TotalReceiptsAmount (Input c)) = true) training ->
  (forall nb1 nb2,
     In nb1 (neighborsOf tripDays miles receipts training) ->
     In nb2 (neighborsOf tripDays miles receipts training) ->
     (Distance nb1 =? Distance nb2) = true -> nb1 = nb2) ->
  predictWeightedKNN tripDays miles receipts training' k
  = predictWeightedKNN tripDays miles receipts training k.
Proof.
  intros Hp Hsame Hm Hr Hfin Hties.
  destruct (find (isExactMatch tripDays miles receipts) training) as [c | ] eqn:Hfind.
  { (* some record matches: so does one in the rearrangement *)
    destruct (find (isExactMatch tripDays miles receipts) training') as [c' | ] eqn:Hfind'.
    - rewrite (predictWeightedKNN_match _ _ _ _ k _ Hfind).
      rewrite (predictWeightedKNN_match _ _ _ _ k _ Hfind').
      apply find_some in Hfind, Hfind'.
      destruct Hfind as [Hc Hmc], Hfind' as [Hc' Hmc'].
      apply (Permutation_in _ (Permutation_sym Hp)) in Hc'.
      f_equal. now apply Hsame.
    - apply find_some in Hfind. destruct Hfind as [Hc Hmc].
      apply (Permutation_in _ Hp) in Hc.
      now rewrite (List.find_none _ _ Hfind' c Hc) in Hmc. }
  pose proof (find_none_Permutation _ _ _ Hp Hfind) as Hfind'.
  assert (Hnum : Forall numbered (neighborsOf tripDays miles receipts training)).
  { apply Forall_forall. intros nb Hin. unfold neighborsOf in Hin.
    apply in_map_iff in Hin. destruct Hin as (c & <- & Hc).
    rewrite Forall_forall in Hfin. destruct (Hfin c Hc) as [Hcm Hcr].
    now apply calculateDistance_number. }
  assert (HpN : Permutation (neighborsOf tripDays miles receipts training)
                  (neighborsOf tripDays miles receipts training'))
    by (apply Permutation_map; exact Hp).
  assert (Hnum' : Forall numbered (neighborsOf tripDays miles receipts training')).
  { rewrite Forall_forall in *. intros nb Hin. apply Hnum.
    exact (Permutation_in _ (Permutation_sym HpN) Hin). }
  destruct (Slice_sorted lessDistance numbered lessDistance_irrefl lessDistance_trans
              lessDistance_negtrans (neighborsOf tripDays miles receipts training))
    as (s & Es & Hps & Has).
  { intros i x E. rewrite Forall_forall in Hnum. apply Hnum. exact (nth_error_In _ _ E). }
  destruct (Slice_sorted lessDistance numbered lessDistance_irrefl lessDistance_trans
              lessDistance_negtrans (neighborsOf tripDays miles receipts training'))
    as (s' & Es' & Hps' & Has').
  { intros i x E. rewrite Forall_forall in Hnum'. apply Hnum'. exact (nth_error_In _ _ E). }
  assert (Heq : s = s').
  { apply (ascending_Permutation_unique lessDistance); auto.
    - rewrite Hps, Hps'. exact HpN.
    - intros x y Hx Hy Hxy Hyx.
      apply (Permutation_in _ Hps) in Hx. apply (Permutation_in _ Hps) in Hy.
      apply Hties; auto.
      rewrite Forall_forall in Hnum.
      unfold lessDistance in Hxy, Hyx.
      rewrite FloatAxioms.ltb_spec in Hxy, Hyx. rewrite FloatAxioms.eqb_spec.
      apply SFltb_false_eqb; auto; [ apply (Hnum x Hx) | apply (Hnum y Hy) ]. }
  destruct (predictWeightedKNN_ranked tripDays miles receipts training k Hfind)
    as (r & Er & _ & ->).
  destruct (predictWeightedKNN_ranked tripDays miles receipts training' k Hfind')
    as (r' & Er' & _ & ->).
  rewrite Es in Er. rewrite Es' in Er'. injection Er as <-. injection Er' as <-.
  now rewrite Heq.
Qed.

Lemma prediction_independent_of_record_order_witness :
  predictWeightedKNN 3 100 50
    [mkCase 4 100 50 100; mkCase 5 100 50 200; mkCase 9 100 50 300] 2
  = predictWeightedKNN 3 100 50
      [mkCase 5 100 50 200; mkCase 4 100 50 100; mkCase 9 100 50 300] 2.
Proof.
  apply (prediction_independent_of_record_order 3 100 50
           [mkCase 5 100 50 200; mkCase 4 100 50 100; mkCase 9 100 50 300]
           [mkCase 4 100 50 100; mkCase 5 100 50 200; mkCase 9 100 50 300] 2).
  - apply perm_swap.
  - intros c1 c2 H1 H2.
    cbn [In] in H1, H2.
    repeat match goal with
    | H : _ \/ _ |- _ => destruct H
    | H : False |- _ => contradiction
    end; subst; try reflexivity; intros E; vm_compute in E; discriminate.
  - reflexivity.
  - reflexivity.
  - repeat constructor.
  - intros nb1 nb2 H1 H2.
    cbn [neighborsOf map In] in H1, H2.
    repeat match goal with
    | H : _ \/ _ |- _ => destruct H
    | H : False |- _ => contradiction
    end; subst; try reflexivity; intros E; vm_compute in E; discriminate.
Defined.

End Ranking.

(* ================================================================= *)
(** * The command *)

Section MainFacts.

Import String.
Import GoMain.

(** What [predictWeightedKNN] does is settled by the TrainingSet being
    empty or not. *)
Lemma predictWeightedKNN_outcome tripDays miles receipts training k :
  (training = [] /\ predictWeightedKNN tripDays miles receipts training k
                    = PanicIndexOutOfRange)
  \/ (training <> [] /\ exists v, predictWeightedKNN tripDays miles receipts training k
                                  = Returns v).
Proof.
  destruct training as [ | c training].
  - left. split; [ reflexivity | ].
    destruct (predictWeightedKNN_ranked tripDays miles receipts [] k eq_refl)
      as (sorted & _ & Hp & ->).
    apply Permutation_length in Hp. rewrite neighborsOf_length in Hp.
    destruct sorted; [ | discriminate ].
    rewrite firstn_nil. reflexivity.
  - right. split; [ discriminate | ].
    destruct (find (isExactMatch tripDays miles receipts) (c :: training))
      as [c' | ] eqn:Hfind.
    + rewrite (predictWeightedKNN_match _ _ _ _ k _ Hfind). eauto.
    + destruct (predictWeightedKNN_ranked tripDays miles receipts (c :: training) k Hfind)
        as (sorted & _ & Hp & ->).
      apply Permutation_length in Hp. rewrite neighborsOf_length in Hp.
      destruct sorted as [ | nb sorted]; [ discriminate | apply finish_returns ].
Qed.

Variable Atoi : string -> Z + string.
Variable ParseFloat : string -> float + string.
Variable file : Type.
Variable Open : string -> file + string.
Variable Decode : file -> TrainingData + string.
Variable format_2f : float -> string.

Let main := GoMain.main Atoi ParseFloat file Open Decode format_2f.
Let ready := GoMain.ready Atoi ParseFloat file Open Decode.

Lemma main_ready Args tripDays miles receipts data :
  ready Args tripDays miles receipts data ->
  main Args
  = match predictWeightedKNN tripDays miles receipts data 5 with
    | Returns reimbursement =>
        {| stdout := format_2f reimbursement ++ newline;
           stderr := ""; ending := ExitStatus 0 |}
    | _ => {| stdout := ""; stderr := ""; ending := RuntimePanic |}
    end.
Proof.
  intros (program & a1 & a2 & a3 & -> & Ha & Hm & Hr & Hl).
  unfold main, GoMain.main. simpl. now rewrite Ha, Hm, Hr, Hl.
Qed.

Lemma main_cases Args :
  (exists tripDays miles receipts data, ready Args tripDays miles receipts data)
  \/ (Args = [] /\ main Args = {| stdout := ""; stderr := ""; ending := RuntimePanic |})
  \/ (exists message, main Args = fail message).
Proof.
  unfold main, GoMain.main.
  destruct Args as [ | program [ | a1 [ | a2 [ | a3 [ | a4 rest]]]]]; simpl;
    try (right; right; eexists; reflexivity).
  { right. left. split; reflexivity. }
  destruct (Atoi a1) as [tripDays | e] eqn:Ha; [ | right; right; eexists; reflexivity ].
  destruct (ParseFloat a2) as [miles | e] eqn:Hm; [ | right; right; eexists; reflexivity ].
  destruct (ParseFloat a3) as [receipts | e] eqn:Hr; [ | right; right; eexists; reflexivity ].
  destruct (loadTrainingData file Open Decode) as [data | e] eqn:Hl;
    [ | right; right; eexists; reflexivity ].
  left. exists tripDays, miles, receipts, data, program, a1, a2, a3. auto.
Qed.

(** X9.  The command ends with exit status 0 exactly when it has three
    arguments, each is parsed, the data file is opened and decoded, and the
    data hold at least one record. *)
Theorem main_succeeds_iff (Args : list string) :
  ending (main Args) = ExitStatus 0
  <-> exists tripDays miles receipts data,
        ready Args tripDays miles receipts data /\ data <> [].
Proof.
  split.
  - intros H.
    destruct (main_cases Args) as [(d & m & r & data & Hr) | [[_ E] | [msg E]]].
    + exists d, m, r, data. split; [ exact Hr | ].
      rewrite (main_ready _ _ _ _ _ Hr) in H.
      destruct (predictWeightedKNN_outcome d m r data 5) as [[_ E] | [Hne _]];
        [ rewrite E in H; discriminate | exact Hne ].
    + rewrite E in H. discriminate.
    + rewrite E in H. discriminate.
  - intros (d & m & r & data & Hr & Hne).
    rewrite (main_ready _ _ _ _ _ Hr).
    destruct (predictWeightedKNN_outcome d m r data 5) as [[E _] | [_ [v ->]]];
      [ contradiction | reflexivity ].
Qed.

(** X10.  With three arguments that parse and a data file that holds at
    least one record, the command writes one line to the standard output,
    the value of [predictWeightedKNN] for the parsed query, the decoded data
    and [k = 5] under [%.2f], writes nothing to the standard error, and ends
    with exit status 0. *)
Theorem main_prints_prediction
  (Args : list string) (tripDays : Z) (miles receipts : float) (data : TrainingData) :
  ready Args tripDays miles receipts data -> data <> [] ->
  exists reimbursement,
    predictWeightedKNN tripDays miles receipts data 5 = Returns reimbursement
    /\ main Args = {| stdout := format_2f reimbursement ++ newline;
                     stderr := ""; ending := ExitStatus 0 |}.
Proof.
  intros Hr Hne. rewrite (main_ready _ _ _ _ _ Hr).
  destruct (predictWeightedKNN_outcome tripDays miles receipts data 5)
    as [[E _] | [_ [v E]]]; [ contradiction | ].
  exists v. now rewrite E.
Qed.

(** X11.  The command ends in a run-time panic exactly when the argument
    vector is empty (the usage line reads [os.Args[0]]) or when everything
    is parsed and loaded and the data file holds no record (an empty JSON
    array): [predictWeightedKNN] then reads [neighbors[0]] of an empty
    slice. *)
Theorem main_panics_iff (Args : list string) :
  ending (main Args) = RuntimePanic
  <-> Args = [] \/ exists tripDays miles receipts, ready Args tripDays miles receipts [].
Proof.
  split.
  - intros H.
    destruct (main_cases Args) as [(d & m & r & data & Hr) | [[E _] | [msg E]]].
    + right. exists d, m, r.
      rewrite (main_ready _ _ _ _ _ Hr) in H.
      destruct (predictWeightedKNN_outcome d m r data 5) as [[-> _] | [_ [v E]]];
        [ exact Hr | rewrite E in H; discriminate ].
    + now left.
    + rewrite E in H. discriminate.
  - intros [-> | (d & m & r & Hr)]; [ reflexivity | ].
    now rewrite (main_ready _ _ _ _ _ Hr).
Qed.

(** X12.  A run that does not end with exit status 0 has written nothing to
    the standard output, and it ends with exit status 1 or in a run-time
    panic: no other status is used. *)
Theorem main_failure_is_silent (Args : list string) :
  ending (main Args) <> ExitStatus 0 ->
  stdout (main Args) = ""%string
  /\ (ending (main Args) = ExitStatus 1 \/ ending (main Args) = RuntimePanic).
Proof.
  intros H.
  destruct (main_cases Args) as [(d & m & r & data & Hr) | [[_ E] | [msg E]]].
  - rewrite (main_ready _ _ _ _ _ Hr) in *.
    destruct (predictWeightedKNN d m r data 5); simpl in *; auto; contradiction.
  - rewrite E. simpl. auto.
  - rewrite E. simpl. auto.
Qed.

End MainFacts.

Section MainRuns.

Import String.
Import GoMain.
Open Scope string_scope.

Lemma main_prints_prediction_witness :
  exists reimbursement,
    predictWeightedKNN 3 100 50 [mkCase 3 100 50 120] 5 = Returns reimbursement
    /\ main Atoi_digit ParseFloat_literal unit Open_one Decode_one format_fixed
         ["predict"; "3"; "100"; "50"]
       = {| stdout := format_fixed reimbursement ++ newline;
            stderr := ""; ending := ExitStatus 0 |}.
Proof.
  apply (main_prints_prediction Atoi_digit ParseFloat_literal unit Open_one Decode_one
           format_fixed ["predict"; "3"; "100"; "50"] 3 100 50 [mkCase 3 100 50 120]).
  - exists "predict", "3", "100", "50". repeat split; reflexivity.
  - discriminate.
Defined.

Lemma main_failure_is_silent_witness :
  stdout (main Atoi_digit ParseFloat_literal unit Open_one Decode_one format_fixed
            ["predict"; "three"; "100"; "50"]) = ""
  /\ (ending (main Atoi_digit ParseFloat_literal unit Open_one Decode_one format_fixed
                ["predict"; "three"; "100"; "50"]) = ExitStatus 1
      \/ ending (main Atoi_digit ParseFloat_literal unit Open_one Decode_one format_fixed
                   ["predict"; "three"; "100"; "50"]) = RuntimePanic).
Proof.
  apply (main_failure_is_silent Atoi_digit ParseFloat_literal unit Open_one Decode_one
           format_fixed ["predict"; "three"; "100"; "50"]).
  vm_compute. discriminate.
Defined.

End MainRuns.
